(** * Timingsrc: sorted endpoint index, map utilities and cue sequencers

    A shallow embedding of
    - [BinarySearch] (sorted array of unique numbers with bulk update and
      its index queries),
    - the set, [Map], array and object helpers of [util.js],
    - the modifying methods of [ObservableMap] and their notifications,
    - the event reconciliation of [SingleSequencer] and the readiness
      protocol and timing updates of [DoubleSequencer]
      ([doublesequencer.js]),
    followed by the properties established about them. *)

From Stdlib Require Import ZArith List Bool Lia String.
From Stdlib Require Import Sorting.Sorted Sorting.Permutation.
Import ListNotations.
Local Open Scope Z_scope.

(* ===================================================================== *)
(** * Part I: the model                                                   *)
(* ===================================================================== *)

(** ** JavaScript primitives used by the sources *)

Module Js.

(** Array elements are JavaScript numbers.  The model keeps the integers
    and [Infinity], the latter because [_update_sort] writes it into the
    array as a tombstone. *)
Inductive num : Type :=
| Fin (z : Z)
| Infinity.

(** [a < b] on numbers. *)
Definition ltb (a b : num) : bool :=
  match a, b with
  | Fin x, Fin y => x <? y
  | Fin _, Infinity => true
  | Infinity, _ => false
  end.

(** [a == b] on numbers. *)
Definition eqb (a b : num) : bool :=
  match a, b with
  | Fin x, Fin y => x =? y
  | Infinity, Infinity => true
  | _, _ => false
  end.

(** The value of [a - b]: a finite number, an infinity or [NaN]. *)
Inductive diff : Type :=
| DNum (z : Z)
| DPosInf
| DNegInf
| DNaN.

Definition sub (a b : num) : diff :=
  match a, b with
  | Fin x, Fin y => DNum (x - y)
  | Fin _, Infinity => DNegInf
  | Infinity, Fin _ => DPosInf
  | Infinity, Infinity => DNaN
  end.

(** [Array.prototype.sort] moves [b] before [a] only when the comparator
    is positive; [NaN] counts as zero. *)
Definition positive (d : diff) : bool :=
  match d with
  | DNum z => 0 <? z
  | DPosInf => true
  | DNegInf => false
  | DNaN => false
  end.

Section Arrays.
Context {A : Type}.

(** [array[i]]: [None] stands for [undefined]. *)
Definition get (array : list A) (i : Z) : option A :=
  if i <? 0 then None else nth_error array (Z.to_nat i).

Definition length (array : list A) : Z := Z.of_nat (List.length array).

(** [array.splice(start, deleteCount, ...items)], the array after the
    call.  A negative [start] counts from the end. *)
Definition splice (array : list A) (start deleteCount : Z) (items : list A)
  : list A :=
  let len := length array in
  let actualStart :=
    if start <? 0 then Z.max (len + start) 0 else Z.min start len in
  let actualDeleteCount := Z.min (Z.max deleteCount 0) (len - actualStart) in
  firstn (Z.to_nat actualStart) array ++ items
    ++ skipn (Z.to_nat (actualStart + actualDeleteCount)) array.

(** [array[i] = v] for an index inside the array.  A write elsewhere
    would create holes, which the model does not represent: [None]. *)
Definition set (array : list A) (i : Z) (v : A) : option (list A) :=
  if (0 <=? i) && (i <? length array)
  then Some (firstn (Z.to_nat i) array ++ v :: skipn (S (Z.to_nat i)) array)
  else None.

(** Stable sort with a comparator, as [Array.prototype.sort(cmp)]. *)
Fixpoint sort_insert (cmp : A -> A -> diff) (x : A) (l : list A) : list A :=
  match l with
  | [] => [x]
  | y :: l' =>
      if positive (cmp x y) then y :: sort_insert cmp x l' else x :: y :: l'
  end.

Definition sort (cmp : A -> A -> diff) (l : list A) : list A :=
  fold_right (sort_insert cmp) [] l.

End Arrays.

(** [array.indexOf(x)]: the first index holding [x], or [-1]. *)
Fixpoint indexOf_from (array : list num) (x : num) (i : Z) : Z :=
  match array with
  | [] => -1
  | y :: array' => if eqb y x then i else indexOf_from array' x (i + 1)
  end.

Definition indexOf (array : list num) (x : num) : Z := indexOf_from array x 0.

(** [[...new Set(A)]]: the first occurrence of every value, in order. *)
Fixpoint unique_from (seen : list num) (l : list num) : list num :=
  match l with
  | [] => []
  | x :: l' =>
      if existsb (eqb x) seen then unique_from seen l'
      else x :: unique_from (x :: seen) l'
  end.

(** [ToInt32], applied by the operators [|] and [~]. *)
Definition to_int32 (z : Z) : Z := (z + 2 ^ 31) mod 2 ^ 32 - 2 ^ 31.

(** [x / 2 | 0] for an integer [x]. *)
Definition half (x : Z) : Z := to_int32 (Z.quot x 2).

(** [~x]. *)
Definition bitnot (x : Z) : Z := Z.lnot (to_int32 x).

End Js.

(** ** binarysearch.js *)

Module BinarySearch.
Import Js.

(** Failure of a model function: a loop that did not finish within its
    fuel, or an array write outside the array. *)
Definition bind {A B : Type} (m : option A) (f : A -> option B) : option B :=
  match m with
  | Some a => f a
  | None => None
  end.

Notation "x <- m ;; k" := (bind m (fun x => k))
  (at level 61, m at next level, right associativity).

Inductive approach : Type :=
| splice_approach
| sort_approach.

(** [resolve_approach(arrayLength, batchLength)] *)
Definition resolve_approach (arrayLength batchLength : Z) : approach :=
  if arrayLength =? 0 then sort_approach
  else if batchLength <=? 100 then splice_approach else sort_approach.

(** [var cmp = function (a, b) {return a-b;};] *)
Definition cmp (a b : num) : diff := sub a b.

(** The [while] loop of [binaryIndexOf].  An [undefined] element compares
    false both ways, so the loop answers [currentIndex]. *)
Fixpoint binaryIndexOf_loop (fuel : nat) (array : list num)
  (searchElement : num) (minIndex maxIndex : Z) : option Z :=
  if minIndex <=? maxIndex then
    match fuel with
    | O => None
    | S fuel' =>
        let currentIndex := half (minIndex + maxIndex) in
        match get array currentIndex with
        | Some currentElement =>
            if ltb currentElement searchElement then
              binaryIndexOf_loop fuel' array searchElement
                (currentIndex + 1) maxIndex
            else if ltb searchElement currentElement then
              binaryIndexOf_loop fuel' array searchElement
                minIndex (currentIndex - 1)
            else Some currentIndex
        | None => Some currentIndex
        end
    end
  else Some (bitnot maxIndex).

Definition binaryIndexOf (array : list num) (searchElement : num)
  : option Z :=
  binaryIndexOf_loop (List.length array) array searchElement
    0 (length array - 1).

Definition isFound (array : list num) (index : Z) (x : num) : bool :=
  if 0 <? index then true
  else if (index =? 0) && (0 <? length array)
          && match get array 0 with
             | Some y => eqb y x
             | None => false
             end
       then true
       else false.

Definition indexOf (array : list num) (x : num) : option Z :=
  index <- binaryIndexOf array x ;;
  Some (if isFound array index x then index else -1).

Fixpoint indexOfElements (array : list num) (elements : list num)
  : option (list Z) :=
  match elements with
  | [] => Some []
  | x :: elements' =>
      index <- indexOf array x ;;
      indexes <- indexOfElements array elements' ;;
      Some (if -1 <? index then index :: indexes else indexes)
  end.

Definition _unique (A : list num) : list num := unique_from [] A.

(** The second loop of [_update_splice]. *)
Fixpoint insert_loop (array : list num) (to_insert : list num)
  : option (list num) :=
  match to_insert with
  | [] => Some array
  | x :: to_insert' =>
      index <- binaryIndexOf array x ;;
      insert_loop
        (if isFound array index x then array
         else splice array (Z.abs index) 0 [x])
        to_insert'
  end.

Definition _update_splice (array : list num) (to_remove to_insert : list num)
  : option (list num) :=
  array1 <-
    (if 0 <? length array then
       indexes <- indexOfElements array to_remove ;;
       let indexes := sort (fun a b => DNum (a - b)) indexes in
       Some (fold_left (fun a i => splice a i 1 []) (rev indexes) array)
     else Some array) ;;
  insert_loop array1 to_insert.

(** The flagging loop of [_update_sort]. *)
Fixpoint flag_loop (array : list num) (indexes : list Z)
  : option (list num) :=
  match indexes with
  | [] => Some array
  | i :: indexes' =>
      array' <- set array i Infinity ;;
      flag_loop array' indexes'
  end.

Definition _update_sort (array : list num) (to_remove to_insert : list num)
  : option (list num) :=
  array1 <-
    (if 0 <? length array then
       indexes <- indexOfElements array to_remove ;;
       flag_loop array indexes
     else Some array) ;;
  let array2 := array1 ++ to_insert in
  let array3 := sort cmp array2 in
  let index := Js.indexOf array3 Infinity in
  let array4 := splice array3 index (length array3) [] in
  Some (_unique array4).

(** [update(to_remove, to_insert)]: the stored array afterwards. *)
Definition update (array : list num) (to_remove to_insert : list num)
  : option (list num) :=
  let size := length to_remove + length to_insert in
  if size =? 0 then Some array
  else
    match resolve_approach (length array) size with
    | splice_approach => _update_splice array to_remove to_insert
    | sort_approach => _update_sort array to_remove to_insert
    end.

(** [get(index)] *)
Definition get_by_index (array : list num) (index : Z) : option num :=
  get array index.

(** [insert(to_insert)] *)
Definition insert (array : list num) (to_insert : list num)
  : option (list num) :=
  update array [] to_insert.

(** [remove(to_remove)] *)
Definition remove (array : list num) (to_remove : list num)
  : option (list num) :=
  update array to_remove [].

(** [getMinimum()]: [None] stands for [undefined]. *)
Definition getMinimum (array : list num) : option num :=
  if 0 <? length array then get array 0 else None.

(** [getMaximum()] *)
Definition getMaximum (array : list num) : option num :=
  if 0 <? length array then get array (length array - 1) else None.

(** [ltIndexOf(x)]: index of the largest value less than [x], or [-1]. *)
Definition ltIndexOf (array : list num) (x : num) : option Z :=
  i <- binaryIndexOf array x ;;
  Some (if isFound array i x then (if 0 <? i then i - 1 else -1)
        else Z.abs i - 1).

(** [leIndexOf(x)] *)
Definition leIndexOf (array : list num) (x : num) : option Z :=
  i <- binaryIndexOf array x ;;
  Some (if isFound array i x then i
        else let i := Z.abs i - 1 in if 0 <=? i then i else -1).

(** [gtIndexOf(x)] *)
Definition gtIndexOf (array : list num) (x : num) : option Z :=
  i <- binaryIndexOf array x ;;
  Some (if isFound array i x then
          (if i <? length array - 1 then i + 1 else -1)
        else let idx := Z.abs i in if idx <? length array then idx else -1).

(** [geIndexOf(x)] *)
Definition geIndexOf (array : list num) (x : num) : option Z :=
  i <- binaryIndexOf array x ;;
  Some (if isFound array i x then i
        else let i := Z.abs i in if i <? length array then i else -1).

(** What [sliceIterator(array, start, stop)] yields when iterated:
    [array[start]], ..., [array[stop - 1]]. *)
Definition sliceIterator (array : list num) (start stop : Z)
  : list (option num) :=
  map (fun n => get array (start + Z.of_nat n))
    (seq 0 (Z.to_nat (stop - start))).

(** What [emptyIterator()] yields. *)
Definition emptyIterator : list (option num) := [].

(** An [Interval] as [lookup] reads it.  The bounds are numbers of the
    model, so the interval [(-Infinity, Infinity)] that [lookup] takes for
    a missing argument is not among them. *)
Record Interval : Type := {
  low : num;
  high : num;
  lowInclude : bool;
  highInclude : bool
}.

(** [lookup(interval)] for an [Interval] argument: what the returned
    iterator yields. *)
Definition lookup (array : list num) (interval : Interval)
  : option (list (option num)) :=
  start_index <-
    (if lowInclude interval then geIndexOf array (low interval)
     else gtIndexOf array (low interval)) ;;
  if start_index =? -1 then Some emptyIterator
  else
    end_index <-
      (if highInclude interval then leIndexOf array (high interval)
       else ltIndexOf array (high interval)) ;;
    if end_index =? -1 then Some emptyIterator
    else Some (sliceIterator array start_index (end_index + 1)).

(** [items()] *)
Definition items (array : list num) : list (option num) :=
  sliceIterator array 0 (length array).

End BinarySearch.

(** ** JavaScript [Map] *)

Module JsMap.

(** Key equality of a [Map] ([SameValueZero]), decidable. *)
Class KeyEq (K : Type) : Type := {
  key_eqb : K -> K -> bool;
  key_eqb_eq : forall a b : K, key_eqb a b = true <-> a = b
}.

Section Map.
Context {K V : Type} `{KeyEq K}.

(** The entries of a [Map] in insertion order.  The keys of a [Map] are
    pairwise distinct ([wf]); every operation below keeps them so. *)
Definition t : Type := list (K * V).

Definition empty : t := [].

Definition size (m : t) : Z := Z.of_nat (List.length m).

Definition has (m : t) (k : K) : bool :=
  existsb (fun e => key_eqb (fst e) k) m.

(** [m.get(k)]: [None] stands for [undefined]. *)
Fixpoint get (m : t) (k : K) : option V :=
  match m with
  | [] => None
  | (k', v) :: m' => if key_eqb k' k then Some v else get m' k
  end.

(** [m.set(k, v)]: an existing key keeps its place. *)
Fixpoint set (m : t) (k : K) (v : V) : t :=
  match m with
  | [] => [(k, v)]
  | (k', v') :: m' =>
      if key_eqb k' k then (k', v) :: m' else (k', v') :: set m' k v
  end.

Definition delete (m : t) (k : K) : t :=
  filter (fun e => negb (key_eqb (fst e) k)) m.

(** [new Map(entries)] *)
Definition from_entries (entries : list (K * V)) : t :=
  fold_left (fun m e => set m (fst e) (snd e)) entries empty.

Definition keys (m : t) : list K := map fst m.

Definition values (m : t) : list V := map snd m.

Fixpoint distinct (l : list K) : bool :=
  match l with
  | [] => true
  | k :: l' => negb (existsb (key_eqb k) l') && distinct l'
  end.

Definition wf (m : t) : bool := distinct (keys m).

End Map.

Arguments t : clear implicits.

End JsMap.

(** ** util.js

    [map_difference] and [map_intersect] read the same in both versions of
    the file. *)

Module Util.
Import JsMap.

Section Maps.
Context {K V : Type} `{KeyEq K}.

(** [map_difference(a, b)]: key in [a] but not in [b]. *)
Definition map_difference (a b : JsMap.t K V) : JsMap.t K V :=
  if size a =? 0 then empty
  else if size b =? 0 then a
  else from_entries (filter (fun e => negb (has b (fst e))) a).

(** [map_intersect(a, b)]: key in [a] and [b]. *)
Definition map_intersect (a b : JsMap.t K V) : JsMap.t K V :=
  let '(a, b) := if size a <=? size b then (a, b) else (b, a) in
  if size a =? 0 then empty
  else from_entries (filter (fun e => has b (fst e)) a).

End Maps.

(** How a call ends: with a value, or by throwing [Error(message)]. *)
Inductive Outcome (A : Type) : Type :=
| Returns (a : A)
| Throws (message : string).

Arguments Returns {A} a.
Arguments Throws {A} message.

(** The integers a double holds exactly together with all integers of
    smaller magnitude ([Number.isSafeInteger]). *)
Definition safe_integer (z : Z) : bool := Z.abs z <? 2 ^ 53.

(** [divmod(n, d)] on safe integers, where the three operations of the
    body are exact in double arithmetic: [r = n % d] is the remainder that
    takes the sign of [n]; [n - r] lies between [0] and [n]; and
    [q = (n - r) / d] is an integer no larger than [n] in magnitude, so the
    rounded quotient is the quotient.  A zero that JavaScript computes as
    [-0] is [0] here.  [None] is what the model does not represent: the
    pair of [NaN] returned for [d = 0], and arguments that are not safe
    integers, for which the operations round. *)
Definition divmod (n d : Z) : option (Z * Z) :=
  if negb (safe_integer n && safe_integer d) then None
  else if d =? 0 then None
  else
    let r := Z.rem n d in
    let q := Z.quot (n - r) d in
    Some (q, r).

(** A [Set]: its elements in insertion order, pairwise distinct. *)
Section Sets.
Context {K : Type} `{KeyEq K}.

Definition set_has (s : list K) (a : K) : bool := existsb (key_eqb a) s.

Definition set_size (s : list K) : Z := Z.of_nat (List.length s).

Definition set_add (s : list K) (a : K) : list K :=
  if set_has s a then s else s ++ [a].

(** [new Set(elements)] *)
Definition new_Set (elements : list K) : list K :=
  fold_left set_add elements [].

(** [all(pred, as)] *)
Definition all (pred : K -> bool) (as_ : list K) : bool := forallb pred as_.

(** [isIn(as)] *)
Definition isIn (as_ : list K) : K -> bool := fun a => set_has as_ a.

(** [eqSet(as, bs)] *)
Definition eqSet (as_ bs : list K) : bool :=
  (set_size as_ =? set_size bs) && all (isIn bs) as_.

(** [set_difference(as, bs)] *)
Definition set_difference (as_ bs : list K) : list K :=
  new_Set (filter (fun e => negb (set_has bs e)) as_).

End Sets.

Section Merging.
Context {K V : Type} `{KeyEq K}.

(** Maps are objects: an array may hold the same map more than once, and
    [map_merge] writes into the first one.  [MapRef] names a map, a
    [MapHeap] gives the contents of the maps before the call. *)
Definition MapRef : Type := nat.

Definition MapHeap : Type := MapRef -> JsMap.t K V.

(** What [map_merge] is given: a [Map], an array whose elements are maps
    ([Some]) or other objects ([None]), or something else. *)
Inductive MergeArgument : Type :=
| ArgMap (m : MapRef)
| ArgArray (elements : list (option MapRef))
| ArgOther.

(** [array_of_maps.map(o => o instanceof Map)] with [every]: the maps,
    when every element is one. *)
Fixpoint every_Map (elements : list (option MapRef)) : option (list MapRef) :=
  match elements with
  | [] => Some []
  | Some r :: elements' =>
      match every_Map elements' with
      | Some refs => Some (r :: refs)
      | None => None
      end
  | None :: _ => None
  end.

(** [for (let [key, val] of m.entries()) first.set(key, val)] *)
Definition set_all (first m : JsMap.t K V) : JsMap.t K V :=
  fold_left (fun first e => set first (fst e) (snd e)) m first.

(** [map_merge(array_of_maps, {copy, order})]: the contents of the map
    that is returned.  Without [copy] the map returned is the first one of
    the (sorted) array, filled in place; when that same map comes again
    later in the array, it is read as filled so far. *)
Definition map_merge (heap : MapHeap) (array_of_maps : MergeArgument)
  (copy order : bool) : Outcome (JsMap.t K V) :=
  match array_of_maps with
  | ArgMap m => Returns (heap m)
  | ArgOther => Throws "illegal input array_of_maps"
  | ArgArray elements =>
      if Z.of_nat (List.length elements) =? 0
      then Throws "empty array_of_maps"
      else
        match every_Map elements with
        | None => Throws "some object in array_of_maps is not a Map"
        | Some refs =>
            let refs :=
              if negb order then
                Js.sort (fun a b => Js.DNum (size (heap b) - size (heap a)))
                  refs
              else refs in
            if copy then
              Returns (fold_left (fun first m => set_all first (heap m))
                         refs empty)
            else
              match refs with
              | [] => Returns empty (* not reached: the array is not empty *)
              | f :: rest =>
                  Returns
                    (fold_left
                       (fun first m =>
                          set_all first
                            (if Nat.eqb m f then first else heap m))
                       rest (heap f))
              end
        end
  end.

End Merging.

#[export] Instance string_KeyEq : KeyEq string :=
  {| key_eqb := String.eqb; key_eqb_eq := String.eqb_eq |}.

(** Objects as [object_equals] reads them. *)
Section Objects.
Context {Val : Type} `{KeyEq Val}.

(** A property value: [undefined], [NaN], or any other value.  [Val] holds
    the other values, told apart by [===]. *)
Inductive Value : Type :=
| Undefined
| NaN
| Other (v : Val).

(** [x === y]: [NaN] equals nothing, itself included. *)
Definition strict_equals (x y : Value) : bool :=
  match x, y with
  | Undefined, Undefined => true
  | Other v, Other w => key_eqb v w
  | _, _ => false
  end.

(** An object: its own properties, in the order of
    [Object.getOwnPropertyNames], and what a name that is not an own
    property is resolved to along the prototype chain ([Undefined] when it
    is found nowhere). *)
Record Object : Type := {
  own : JsMap.t string Value;
  inherited : string -> Value
}.

(** [o[propName]] *)
Definition read (o : Object) (propName : string) : Value :=
  match get (own o) propName with
  | Some v => v
  | None => inherited o propName
  end.

(** The loop of [object_equals] over the property names of [a]. *)
Fixpoint object_equals_loop (aProps : list string) (a b : Object) : bool :=
  match aProps with
  | [] => true
  | propName :: aProps' =>
      if negb (strict_equals (read a propName) (read b propName)) then false
      else object_equals_loop aProps' a b
  end.

(** [object_equals(a, b)] *)
Definition object_equals (a b : Object) : bool :=
  let aProps := keys (own a) in
  let bProps := keys (own b) in
  if negb (Z.of_nat (List.length aProps) =? Z.of_nat (List.length bProps))
  then false
  else object_equals_loop aProps a b.

End Objects.

(** Arrays as [array_concat] handles them. *)
Section Concat.
Context {V : Type}.

(** An array that may have empty slots.  An empty slot and a slot that
    holds [undefined] both read as [undefined]: [None]. *)
Definition Slots : Type := list (option V).

(** Arrays are objects: [array_concat] writes into the first one, and the
    array of arrays may hold the same array more than once.  [ArrayRef]
    names an array, an [ArrayHeap] gives the contents of the arrays before
    the call. *)
Definition ArrayRef : Type := nat.

Definition ArrayHeap : Type := ArrayRef -> Slots.

(** [array[i]] *)
Definition slot (array : Slots) (i : Z) : option V :=
  match Js.get array i with
  | Some v => v
  | None => None
  end.

(** [array.length = n], for [0 <= n] *)
Definition set_length (array : Slots) (n : Z) : Slots :=
  firstn (Z.to_nat n) array
    ++ repeat None (Z.to_nat n - List.length array).

(** [array[i] = v], for [0 <= i]: a write past the end extends the array,
    leaving empty slots in between. *)
Definition store (array : Slots) (i : Z) (v : option V) : Slots :=
  if i <? Js.length array
  then firstn (Z.to_nat i) array ++ v :: skipn (S (Z.to_nat i)) array
  else array ++ repeat None (Z.to_nat i - List.length array) ++ [v].

(** [for (let i=0; i<len; i++) first[start + i] = arr[i]], where [arr] is
    another array ([Some], its contents) or [first] itself ([None]). *)
Definition copy_into (first : Slots) (arr : option Slots) (start len : Z)
  : Slots :=
  fold_left (fun first i =>
               let source :=
                 match arr with
                 | Some contents => contents
                 | None => first
                 end in
               store first (start + Z.of_nat i) (slot source (Z.of_nat i)))
    (seq 0 (Z.to_nat len)) first.

(** The body of [for (let arr of arrays)]: [first] and [start] after one
    array.  [first_ref] is the array [first] is, when it is one of the
    arrays given. *)
Definition concat_step (heap : ArrayHeap) (first_ref : option ArrayRef)
  (state : Slots * Z) (arr : ArrayRef) : Slots * Z :=
  let '(first, start) := state in
  let aliased :=
    match first_ref with
    | Some r => Nat.eqb arr r
    | None => false
    end in
  let len := Js.length (if aliased then first else heap arr) in
  (copy_into first (if aliased then None else Some (heap arr)) start len,
   start + len).

(** [array_concat(arrays, {copy, order})] of the v3 [util.js]: the contents
    of the array that is returned. *)
Definition array_concat (heap : ArrayHeap) (arrays : list ArrayRef)
  (copy order : bool) : Slots :=
  if Js.length arrays =? 0 then []
  else if Js.length arrays =? 1 then
    match arrays with
    | r :: _ => heap r
    | [] => [] (* not reached: the array has one element *)
    end
  else
    let total_len :=
      fold_left (fun acc cur => acc + Js.length (heap cur)) arrays 0 in
    let arrays :=
      if negb order then
        Js.sort (fun a b => Js.DNum (Js.length (heap b) - Js.length (heap a)))
          arrays
      else arrays in
    let '(first_ref, first, arrays) :=
      if copy then (None, [], arrays)
      else
        match arrays with
        | r :: rest => (Some r, heap r, rest)
        | [] => (None, [], []) (* not reached: the array is not empty *)
        end in
    let start := Js.length first in
    let first := set_length first total_len in
    fst (fold_left (concat_step heap first_ref) arrays (first, start)).

(** [array_concat(...arrays)] of the v2.1 [util.js]: the same body, always
    sorting and always filling the first array. *)
Definition array_concat_v2 (heap : ArrayHeap) (arrays : list ArrayRef)
  : Slots :=
  array_concat heap arrays false false.

End Concat.

End Util.

(** ** observablemap.js *)

Module ObservableMap.
Import JsMap.

Section Observable.
Context {K V : Type} `{KeyEq K}.

(** Whether a value is [null] or [undefined]; the map may store either. *)
Variable nullish : V -> bool.

(** [{key, new, old}].  [None] is the [undefined] the methods write where
    there is no value; [Some] is a value given by the caller or read from
    the map. *)
Record Item : Type := {
  item_key : K;
  item_new : option V;
  item_old : option V
}.

(** A call [eventifyTrigger(name, arg)]. *)
Inductive Trigger : Type :=
| Batch (items : list Item)
| Remove (item : Item)
| Change (item : Item).

(** Whether [eventifySubscriptions(name)] is non-empty, for the three
    event names. *)
Record Subscriptions : Type := {
  batch_subs : bool;
  remove_subs : bool;
  change_subs : bool
}.

(** [x == undefined]: true of [undefined] and of [null]. *)
Definition is_undefined (x : option V) : bool :=
  match x with
  | Some v => nullish v
  | None => true
  end.

(** [_notifyEvents(items)]: the triggers, in order. *)
Definition _notifyEvents (subs : Subscriptions) (items : list Item)
  : list Trigger :=
  if Z.of_nat (List.length items) =? 0 then []
  else
    (if batch_subs subs then [Batch items] else [])
    ++ (if remove_subs subs || change_subs subs then
          flat_map (fun item =>
            if is_undefined (item_new item)
               && negb (is_undefined (item_old item))
            then (if remove_subs subs then [Remove item] else [])
            else (if change_subs subs then [Change item] else []))
            items
        else []).

(** [set(key, value)] on the backing [Map] [datasource]: the map
    afterwards and the triggers. *)
Definition set (subs : Subscriptions) (datasource : JsMap.t K V)
  (key : K) (value : V) : JsMap.t K V * list Trigger :=
  let old := if has datasource key then get datasource key else None in
  (JsMap.set datasource key value,
   _notifyEvents subs
     [{| item_key := key; item_new := Some value; item_old := old |}]).

(** [delete(key)]: the map afterwards, the result and the triggers. *)
Definition delete (subs : Subscriptions) (datasource : JsMap.t K V)
  (key : K) : JsMap.t K V * bool * list Trigger :=
  let '(datasource', old, result) :=
    if has datasource key
    then (JsMap.delete datasource key, get datasource key, true)
    else (datasource, None, false) in
  (datasource', result,
   _notifyEvents subs
     [{| item_key := key; item_new := None; item_old := old |}]).

(** [clear()]: the map afterwards and the triggers. *)
Definition clear (subs : Subscriptions) (datasource : JsMap.t K V)
  : JsMap.t K V * list Trigger :=
  let items :=
    map (fun e => {| item_key := fst e; item_new := None;
                     item_old := Some (snd e) |}) datasource in
  (empty, _notifyEvents subs items).

End Observable.

End ObservableMap.

(** ** doublesequencer.js *)

Module Sequencing.
Import JsMap Util.

(** Modelled from the spec: [Axis.Delta], the per-key change markers of an
    axis update (the axis module itself is taken as given below). *)
Inductive Delta : Type :=
| NOOP
| CHANGE
| INSERT
| DELETE.

(** Modelled from the spec: [motionutils.MotionDelta.PosDelta]. *)
Inductive PosDelta : Type :=
| PosDelta_NOOP
| PosDelta_CHANGE.

(** Modelled from the spec: [motionutils.MotionDelta.MoveDelta]. *)
Inductive MoveDelta : Type :=
| MoveDelta_NOOP
| MoveDelta_START
| MoveDelta_STOP
| MoveDelta_CHANGE.

Definition Delta_eqb (a b : Delta) : bool :=
  match a, b with
  | NOOP, NOOP | CHANGE, CHANGE | INSERT, INSERT | DELETE, DELETE => true
  | _, _ => false
  end.

Definition PosDelta_eqb (a b : PosDelta) : bool :=
  match a, b with
  | PosDelta_NOOP, PosDelta_NOOP | PosDelta_CHANGE, PosDelta_CHANGE => true
  | _, _ => false
  end.

Definition MoveDelta_eqb (a b : MoveDelta) : bool :=
  match a, b with
  | MoveDelta_NOOP, MoveDelta_NOOP | MoveDelta_START, MoveDelta_START
  | MoveDelta_STOP, MoveDelta_STOP | MoveDelta_CHANGE, MoveDelta_CHANGE => true
  | _, _ => false
  end.

(** The modules the sequencers require and that are taken as given:
    intervals, motion vectors, the axis and the schedule.  A cue is an
    object read through [cue.key] and [cue.interval]. *)
Class Collaborators : Type := {
  Key : Type;
  Key_eq :: KeyEq Key;
  Position : Type;
  Time : Type;
  (* the clock and the range of a timing object *)
  Clock : Type;
  now : Clock -> Time;
  Range : Type;
  (* util/interval *)
  Interval : Type;
  Interval_point : Position -> Interval;
  Interval_new : Position -> Position -> bool -> bool -> Interval;
  covers_endpoint : Interval -> Position -> bool;
  (* cues *)
  Cue : Type;
  cue_key : Cue -> Key;
  cue_interval : Cue -> Interval;
  (* util/motionutils *)
  Vector : Type;
  position : Vector -> Position;
  timestamp : Vector -> Time;
  calculateVector : Vector -> Time -> Vector;
  MotionDelta : Vector -> Vector -> PosDelta * MoveDelta;
  pos_min : Position -> Position -> Position;
  pos_max : Position -> Position -> Position;
  (* sequencing/axis *)
  Axis : Type;
  lookup : Axis -> Interval -> list Cue;
  (* sequencing/schedule *)
  Schedule : Type;
  Schedule_new : Clock -> Range -> Axis -> Schedule;
  setVector : Schedule -> Vector -> Schedule
}.

Inductive Error : Type :=
| ReferenceError (name : string)
| TypeError (message : string).

(** How a call ends: normally, or by throwing. *)
Inductive Completion (A : Type) : Type :=
| Normal (a : A)
| Throw (e : Error).

Arguments Normal {A} a.
Arguments Throw {A} e.

Section Sequencers.
Context {C : Collaborators}.

(** A timing object as the sequencers read it: [to.vector],
    [to.old_vector], [to.clock], [to.range], [to.isReady()]. *)
Record TimingObject : Type := {
  vector : Vector;
  old_vector : Vector;
  clock : Clock;
  range : Range;
  to_isReady : bool
}.

(** [{key, new, old}] *)
Record Event : Type := {
  ev_key : Key;
  ev_new : option Cue;
  ev_old : option Cue
}.

(** [item.delta] of an axis event. *)
Record ItemDelta : Type := {
  d_interval : Delta;
  d_data : Delta
}.

(** An item of the axis [eventMap]: [{key, new, old, delta}]. *)
Record AxisItem : Type := {
  it_key : Key;
  it_new : option Cue;
  it_old : option Cue;
  it_delta : ItemDelta
}.

(** [item.endpoint = [value, right, closed, singular]] *)
Record Endpoint : Type := {
  ep_value : Position;
  ep_right : bool;
  ep_closed : bool;
  ep_singular : bool
}.

(** [{endpoint, cue, direction}] *)
Record EndpointItem : Type := {
  ei_endpoint : Endpoint;
  ei_cue : Cue;
  ei_direction : Z
}.

Definition isNoop (delta : ItemDelta) : bool :=
  Delta_eqb (d_interval delta) NOOP && Delta_eqb (d_data delta) NOOP.

Definition exit_event (k : Key) (old : option Cue) : Event :=
  {| ev_key := k; ev_new := None; ev_old := old |}.

Definition enter_event (k : Key) (new : option Cue) : Event :=
  {| ev_key := k; ev_new := new; ev_old := None |}.

Definition change_event (k : Key) (new old : option Cue) : Event :=
  {| ev_key := k; ev_new := new; ev_old := old |}.

(** [new Map(cues.map(cue => [cue.key, cue]))] *)
Definition cue_map (cues : list Cue) : JsMap.t Key Cue :=
  from_entries (map (fun cue => (cue_key cue, cue)) cues).

(** [eventifyTriggerEvent("change", events)], guarded by
    [events.length > 0]: the notifications sent. *)
Definition notify (events : list Event) : list (list Event) :=
  if 0 <? Z.of_nat (List.length events) then [events] else [].

End Sequencers.

End Sequencing.

Module SingleSequencer.
Import JsMap Util Sequencing.

Section Single.
Context {C : Collaborators}.

(** The fields of a [SingleSequencer]. *)
Record t : Type := {
  _axis : Axis;
  _to : TimingObject;
  _sched : Schedule;
  _activeCues : JsMap.t Key Cue
}.

Definition with_activeCues (this : t) (m : JsMap.t Key Cue) : t :=
  {| _axis := _axis this; _to := _to this; _sched := _sched this;
     _activeCues := m |}.

Definition with_sched (this : t) (s : Schedule) : t :=
  {| _axis := _axis this; _to := _to this; _sched := s;
     _activeCues := _activeCues this |}.

(** [isReady()] is [this._to.isReady()].  The timing object is a live
    object that the sequencer only refers to: [_to] holds its state at the
    moment considered, and [observe] below renews it when the object has
    changed. *)
Definition isReady (this : t) : bool := to_isReady (_to this).

Definition EventTriple : Type := (list Event * list Event * list Event)%type.

(** [_get_events_from_axis_lookup(eventMap, position, approach1)]:
    [[exitEvents, changeEvents, enterEvents]]. *)
Definition _get_events_from_axis_lookup (this : t)
  (eventMap : JsMap.t Key AxisItem) (position : Position) (approach1 : bool)
  : EventTriple :=
  let pos := Interval_point position in
  let activeCues := cue_map (lookup (_axis this) pos) in
  let first := size (_activeCues this) =? 0 in
  let '(changeEvents, exitEvents) :=
    if negb first then
      let remainCues := map_intersect (_activeCues this) activeCues in
      let changeEvents :=
        if approach1 then
          flat_map (fun cue =>
            match get eventMap (cue_key cue) with
            | Some item =>
                if negb (isNoop (it_delta item))
                then [change_event (it_key item) (it_new item) (it_old item)]
                else []
            | None => []
            end) (values remainCues)
        else
          flat_map (fun item =>
            match get remainCues (it_key item) with
            | Some cue =>
                if negb (isNoop (it_delta item))
                then [change_event (it_key item) (it_new item) (it_old item)]
                else []
            | None => []
            end) (values eventMap) in
      let exitCues := map_difference (_activeCues this) activeCues in
      (changeEvents,
       map (fun cue => exit_event (cue_key cue) (Some cue)) (values exitCues))
    else ([], []) in
  let enterCues :=
    if first then activeCues
    else map_difference activeCues (_activeCues this) in
  let enterEvents :=
    map (fun cue => enter_event (cue_key cue) (Some cue)) (values enterCues) in
  (exitEvents, changeEvents, enterEvents).

(** The [for] loop of [_get_events_from_axis_events].  [None] is the
    [undefined] produced by the bare [return] on a noop item. *)
Fixpoint axis_events_loop (this : t) (first : bool) (position : Position)
  (items : list AxisItem) (exitEvents changeEvents enterEvents : list Event)
  : option EventTriple :=
  match items with
  | [] => Some (exitEvents, changeEvents, enterEvents)
  | item :: items' =>
      if isNoop (it_delta item) then None
      else
        let is_active :=
          if first then false else has (_activeCues this) (it_key item) in
        let should_be_active :=
          match it_new item with
          | Some new => covers_endpoint (cue_interval new) position
          | None => false
          end in
        if is_active && negb should_be_active then
          axis_events_loop this first position items'
            (exitEvents ++ [exit_event (it_key item) (it_old item)])
            changeEvents enterEvents
        else if negb is_active && should_be_active then
          axis_events_loop this first position items'
            exitEvents changeEvents
            (enterEvents ++ [enter_event (it_key item) (it_new item)])
        else if is_active && should_be_active then
          axis_events_loop this first position items'
            exitEvents
            (changeEvents
               ++ [change_event (it_key item) (it_new item) (it_old item)])
            enterEvents
        else
          axis_events_loop this first position items'
            exitEvents changeEvents enterEvents
  end.

(** [_get_events_from_axis_events(eventMap, position)] *)
Definition _get_events_from_axis_events (this : t)
  (eventMap : JsMap.t Key AxisItem) (position : Position)
  : option EventTriple :=
  let first := size (_activeCues this) =? 0 in
  axis_events_loop this first position (values eventMap) [] [] [].

(** [new Set(events.map(item => item.key))], as the list of keys. *)
Definition event_keys (events : list Event) : list Key := map ev_key events.

(** [_onAxisCallback(eventMap)]: the sequencer afterwards and the
    notifications sent.  Destructuring an [undefined] first result throws.
    The set comparisons of the three results only write to the console. *)
Definition _onAxisCallback (this : t) (eventMap : JsMap.t Key AxisItem)
  : Completion (t * list (list Event)) :=
  let now_vector := calculateVector (vector (_to this)) (now (clock (_to this))) in
  let res1 := _get_events_from_axis_events this eventMap (position now_vector) in
  let res2 :=
    _get_events_from_axis_lookup this eventMap (position now_vector) true in
  let res3 :=
    _get_events_from_axis_lookup this eventMap (position now_vector) false in
  match res1 with
  | None => Throw (TypeError "undefined is not iterable")
  | Some _ =>
      let '(exitEvents, changeEvents, enterEvents) := res3 in
      let active1 :=
        fold_left (fun m item => delete m (ev_key item))
          exitEvents (_activeCues this) in
      let active2 :=
        fold_left (fun m item =>
                     match ev_new item with
                     | Some cue => set m (ev_key item) cue
                     | None => m
                     end)
          enterEvents active1 in
      let events := exitEvents ++ changeEvents ++ enterEvents in
      Normal (with_sched (with_activeCues this active2)
                (setVector (_sched this) now_vector),
              notify events)
  end.

(** [_onTimingCallback(eInfo)].  The body reads the identifier [to], which
    neither the method nor the module binds; [to] is what that identifier
    resolves to in the enclosing (global) scope, if anything. *)
Definition _onTimingCallback (to : option TimingObject) (this : t)
  (eInfo_init : bool) : Completion (t * list (list Event)) :=
  match to with
  | None => Throw (ReferenceError "to")
  | Some to =>
      let new_vector :=
        if eInfo_init then calculateVector (vector to) (now (clock to))
        else vector to in
      let delta := MotionDelta (old_vector to) new_vector in
      let '(this1, sent) :=
        if PosDelta_eqb (fst delta) PosDelta_CHANGE
           || MoveDelta_eqb (snd delta) MoveDelta_STOP
        then
          let low := position new_vector in
          let high := position new_vector in
          let itv := Interval_new low high true true in
          let activeCues := cue_map (lookup (_axis this) itv) in
          let exitCues := map_difference (_activeCues this) activeCues in
          let enterCues := map_difference activeCues (_activeCues this) in
          let events :=
            map (fun cue => exit_event (cue_key cue) (Some cue))
                (values exitCues)
            ++ map (fun cue => enter_event (cue_key cue) (Some cue))
                (values enterCues) in
          (with_activeCues this activeCues, notify events)
        else (this, []) in
      Normal (with_sched this1 (setVector (_sched this1) new_vector), sent)
  end.

(** The callback given to [endpointItems.forEach] in
    [_onScheduleCallback]: the active cues and the events after one item. *)
Definition schedule_item (acc : JsMap.t Key Cue * list Event)
  (item : EndpointItem) : JsMap.t Key Cue * list Event :=
  let '(activeCues, events) := acc in
  let cue := ei_cue item in
  let has_cue := has activeCues (cue_key cue) in
  if ep_singular (ei_endpoint item) then
    if has_cue then
      (delete activeCues (cue_key cue),
       events ++ [exit_event (cue_key cue) (Some cue)])
    else
      (activeCues,
       events ++ [enter_event (cue_key cue) (Some cue);
                  exit_event (cue_key cue) (Some cue)])
  else
    let right_value := if ep_right (ei_endpoint item) then -1 else 1 in
    let enter := 0 <? ei_direction item * right_value in
    if enter then
      if negb has_cue then
        (set activeCues (cue_key cue) cue,
         events ++ [enter_event (cue_key cue) (Some cue)])
      else (activeCues, events)
    else
      if has_cue then
        (delete activeCues (cue_key cue),
         events ++ [exit_event (cue_key cue) (Some cue)])
      else (activeCues, events).

(** [_onScheduleCallback(endpointItems)] *)
Definition _onScheduleCallback (this : t) (endpointItems : list EndpointItem)
  : t * list (list Event) :=
  let '(activeCues, events) :=
    fold_left schedule_item endpointItems (_activeCues this, []) in
  (with_activeCues this activeCues, notify events).

(** What the environment delivers to a sequencer.  A timing change comes
    with the binding of the identifier [to] in force at that time. *)
Inductive Input : Type :=
| TimingChange (to : option TimingObject) (eInfo_init : bool)
| AxisUpdate (eventMap : JsMap.t Key AxisItem)
| ScheduleCallback (endpointItems : list EndpointItem).

(** The fields after one input.  Both handlers that can throw do so before
    they assign any field. *)
Definition step (this : t) (i : Input) : t :=
  match i with
  | TimingChange to eInfo_init =>
      match _onTimingCallback to this eInfo_init with
      | Normal (this', _) => this'
      | Throw _ => this
      end
  | AxisUpdate eventMap =>
      match _onAxisCallback this eventMap with
      | Normal (this', _) => this'
      | Throw _ => this
      end
  | ScheduleCallback endpointItems =>
      fst (_onScheduleCallback this endpointItems)
  end.

Definition run (this : t) (inputs : list Input) : t :=
  fold_left step inputs this.

(** The sequencer at a moment when its timing object is in state [to]:
    [this._to] is the same object, read afresh. *)
Definition observe (this : t) (to : TimingObject) : t :=
  {| _axis := _axis this; _to := to; _sched := _sched this;
     _activeCues := _activeCues this |}.

(** An input together with the state the timing object is in when the
    input arrives; between two inputs the timing object may have changed,
    in its vector as in its readiness. *)
Definition live_step (this : t) (moment : TimingObject * Input) : t :=
  step (observe this (fst moment)) (snd moment).

Definition live_run (this : t) (moments : list (TimingObject * Input)) : t :=
  fold_left live_step moments this.

End Single.

End SingleSequencer.

Module DoubleSequencer.
Import JsMap Util Sequencing.

Section Double.
Context {C : Collaborators}.

(** Timing objects are compared by reference ([to == this._toA]); [Ref]
    names an object and a [Heap] gives the objects' current contents. *)
Definition Ref : Type := nat.

Definition Heap : Type := Ref -> TimingObject.

(** The fields of a [DoubleSequencer].  [None] is [undefined]. *)
Record t : Type := {
  _axis : Axis;
  _toA : Ref;
  _toB : Ref;
  _ready : bool;
  _toA_ready : bool;
  _toB_ready : bool;
  _scheduleA : option Schedule;
  _scheduleB : option Schedule;
  _activeCues : option (JsMap.t Key Cue)
}.


Definition isReady (this : t) : bool := _ready this.

(** [{src, init}] of a timing object's change event. *)
Record EInfo : Type := {
  src : Ref;
  init : bool
}.

(** [changeMap]: key to [{new, old}]. *)
Definition ChangeMap : Type := JsMap.t Key Event.

(** [_onTimingUpdate(to, new_vector)]: the fields when the call ends, and
    how it ends.  Reading [size] or [values] of [undefined] throws. *)
Definition _onTimingUpdate (heap : Heap) (this : t) (to : Ref)
  (new_vector : Vector) : t * Completion (list ChangeMap) :=
  let other_to := if Nat.eqb to (_toA this) then _toB this else _toA this in
  let ts := timestamp new_vector in
  let other_new_vector := calculateVector (vector (heap other_to)) ts in
  let delta := MotionDelta (old_vector (heap to)) new_vector in
  let jump : Completion (option (JsMap.t Key Cue * JsMap.t Key Cue
                                 * JsMap.t Key Cue)) :=
    if PosDelta_eqb (fst delta) PosDelta_CHANGE then
      let low := pos_min (position new_vector) (position other_new_vector) in
      let high := pos_max (position new_vector) (position other_new_vector) in
      let itv := Interval_new low high true true in
      let activeCues := cue_map (lookup (_axis this) itv) in
      match _activeCues this with
      | None => Throw (TypeError "cannot read size of undefined")
      | Some old =>
          Normal (Some (activeCues,
                        map_difference activeCues old,
                        map_difference old activeCues))
      end
    else Normal None in
  match jump with
  | Throw e => (this, Throw e)
  | Normal cues =>
      let kicked : Completion (option Schedule * option Schedule) :=
        if Nat.eqb to (_toA this) then
          match _scheduleA this with
          | Some s => Normal (Some (setVector s new_vector), _scheduleB this)
          | None => Throw (TypeError "cannot read setVector of undefined")
          end
        else if Nat.eqb to (_toB this) then
          match _scheduleB this with
          | Some s => Normal (_scheduleA this, Some (setVector s new_vector))
          | None => Throw (TypeError "cannot read setVector of undefined")
          end
        else Normal (_scheduleA this, _scheduleB this) in
      match kicked with
      | Throw e => (this, Throw e)
      | Normal (schedA, schedB) =>
          let this' :=
            {| _axis := _axis this; _toA := _toA this; _toB := _toB this;
               _ready := _ready this; _toA_ready := _toA_ready this;
               _toB_ready := _toB_ready this;
               _scheduleA := schedA; _scheduleB := schedB;
               _activeCues :=
                 match cues with
                 | Some (activeCues, _, _) => Some activeCues
                 | None => None
                 end |} in
          match cues with
          | None => (this', Throw (TypeError "cannot read values of undefined"))
          | Some (_, enterCues, exitCues) =>
              let changeMap1 :=
                fold_left (fun m cue =>
                             set m (cue_key cue) (exit_event (cue_key cue) (Some cue)))
                  (values exitCues) empty in
              let changeMap :=
                fold_left (fun m cue =>
                             set m (cue_key cue) (enter_event (cue_key cue) (Some cue)))
                  (values enterCues) changeMap1 in
              (this', Normal [changeMap])
          end
      end
  end.

(** [_onTimingUpdateWrapper(eInfo)] *)
Definition _onTimingUpdateWrapper (heap : Heap) (this : t) (eInfo : EInfo)
  : t * Completion (list ChangeMap) :=
  let to := src eInfo in
  let this1 :=
    if negb (_ready this) then
      let this0 :=
        if Nat.eqb to (_toA this) then
          {| _axis := _axis this; _toA := _toA this; _toB := _toB this;
             _ready := _ready this; _toA_ready := true;
             _toB_ready := _toB_ready this;
             _scheduleA :=
               Some (Schedule_new (clock (heap to)) (range (heap to))
                       (_axis this));
             _scheduleB := _scheduleB this;
             _activeCues := _activeCues this |}
        else if Nat.eqb to (_toB this) then
          {| _axis := _axis this; _toA := _toA this; _toB := _toB this;
             _ready := _ready this; _toA_ready := _toA_ready this;
             _toB_ready := true;
             _scheduleA := _scheduleA this;
             _scheduleB :=
               Some (Schedule_new (clock (heap to)) (range (heap to))
                       (_axis this));
             _activeCues := _activeCues this |}
        else this in
      if _toA_ready this0 && _toB_ready this0 then
        {| _axis := _axis this0; _toA := _toA this0; _toB := _toB this0;
           _ready := true; _toA_ready := _toA_ready this0;
           _toB_ready := _toB_ready this0;
           _scheduleA := _scheduleA this0; _scheduleB := _scheduleB this0;
           _activeCues := _activeCues this0 |}
      else this0
    else this in
  let new_vector :=
    if init eInfo then
      calculateVector (vector (heap to)) (now (clock (heap to)))
    else vector (heap to) in
  if isReady this1 then _onTimingUpdate heap this1 to new_vector
  else (this1, Normal []).

(** [_onAxisUpdate(batchMap)] only writes to the console. *)
Definition _onAxisUpdate (this : t) (batchMap : JsMap.t Key AxisItem) : t :=
  this.

(** [_onScheduleCallback(dueEvents, schedule)] only writes to the console. *)
Definition _onScheduleCallback (this : t) (dueEvents : list EndpointItem)
  (schedule : option Schedule) : t :=
  this.

(** What the environment delivers to a sequencer. *)
Inductive Input : Type :=
| TimingChange (heap : Heap) (eInfo : EInfo)
| AxisUpdate (batchMap : JsMap.t Key AxisItem)
| ScheduleCallback (dueEvents : list EndpointItem) (schedule : option Schedule).

(** The fields after one input; a handler that throws leaves the fields as
    they were when it threw. *)
Definition step (this : t) (i : Input) : t :=
  match i with
  | TimingChange heap eInfo => fst (_onTimingUpdateWrapper heap this eInfo)
  | AxisUpdate batchMap => _onAxisUpdate this batchMap
  | ScheduleCallback dueEvents schedule =>
      _onScheduleCallback this dueEvents schedule
  end.

Definition run (this : t) (inputs : list Input) : t :=
  fold_left step inputs this.


End Double.

End DoubleSequencer.

(** ** A sample instance of the collaborators *)

Module Sample.
Import JsMap Sequencing.

#[export] Instance nat_KeyEq : KeyEq nat :=
  {| key_eqb := Nat.eqb; key_eqb_eq := Nat.eqb_eq |}.

(** Modelled from the spec: an interval [{low, high, lowInclude,
    highInclude}], here over integer positions. *)
Record interval : Type := {
  low : Z;
  high : Z;
  lowInclude : bool;
  highInclude : bool
}.

(** Modelled from the spec: [interval.covers(value)]. *)
Definition covers (itv : interval) (p : Z) : bool :=
  ((low itv <? p) || ((low itv =? p) && lowInclude itv))
  && ((p <? high itv) || ((p =? high itv) && highInclude itv)).

(** Modelled from the spec: a cue [{key, interval}]. *)
Record cue : Type := {
  key : nat;
  cue_itv : interval
}.

(** Modelled from the spec: a motion vector, here without acceleration. *)
Record motion : Type := {
  m_position : Z;
  m_velocity : Z;
  m_timestamp : Z
}.

(** Modelled from the spec: [calculateVector(V, t)]. *)
Definition motion_at (v : motion) (t : Z) : motion :=
  {| m_position := m_position v + m_velocity v * (t - m_timestamp v);
     m_velocity := m_velocity v;
     m_timestamp := t |}.

(** Modelled from the spec: [MotionDelta(old, new)]. *)
Definition motion_delta (old new : motion) : PosDelta * MoveDelta :=
  (if m_position (motion_at old (m_timestamp new)) =? m_position new
   then PosDelta_NOOP else PosDelta_CHANGE,
   if m_velocity old =? m_velocity new then MoveDelta_NOOP
   else if m_velocity new =? 0 then MoveDelta_STOP
   else if m_velocity old =? 0 then MoveDelta_START
   else MoveDelta_CHANGE).

(** Modelled from the spec: [Axis.lookup(interval)] over a list of cues,
    for the closed query intervals the sequencers build. *)
Definition axis_lookup (axis : list cue) (q : interval) : list cue :=
  filter (fun c =>
            covers (cue_itv c) (low q) || covers (cue_itv c) (high q)
            || covers q (low (cue_itv c)) || covers q (high (cue_itv c)))
    axis.

(** The schedule only remembers the vector it was last given. *)
Definition collaborators : Collaborators :=
  {| Key := nat;
     Position := Z;
     Time := Z;
     Clock := Z;
     now := fun c => c;
     Range := unit;
     Interval := interval;
     Interval_point := fun p =>
       {| low := p; high := p; lowInclude := true; highInclude := true |};
     Interval_new := fun l h li hi =>
       {| low := l; high := h; lowInclude := li; highInclude := hi |};
     covers_endpoint := covers;
     Cue := cue;
     cue_key := key;
     cue_interval := cue_itv;
     Vector := motion;
     position := m_position;
     timestamp := m_timestamp;
     calculateVector := motion_at;
     MotionDelta := motion_delta;
     pos_min := Z.min;
     pos_max := Z.max;
     Axis := list cue;
     lookup := axis_lookup;
     Schedule := option motion;
     Schedule_new := fun _ _ _ => None;
     setVector := fun _ v => Some v |}.

Definition closed (l h : Z) : interval :=
  {| low := l; high := h; lowInclude := true; highInclude := true |}.

(** Sample cues, sequencers and inputs. *)

Definition cueA : cue :=
  {| key := 1; cue_itv := closed 20 30 |}.

Definition cueB0 : cue :=
  {| key := 2; cue_itv := closed 10 20 |}.

Definition cueB : cue :=
  {| key := 2; cue_itv := closed 0 10 |}.

Definition cueP : cue :=
  {| key := 3; cue_itv := closed 7 7 |}.

Definition at5 : motion :=
  {| m_position := 5; m_velocity := 0; m_timestamp := 0 |}.

(** A sequencer at position [5] over the axis [[cueA; cueB]], with no
    active cue. *)
Definition sample_sequencer : @SingleSequencer.t collaborators :=
  {| SingleSequencer._axis := [cueA; cueB] : @Axis collaborators;
     SingleSequencer._to := {| vector := at5 : @Vector collaborators;
               old_vector := at5 : @Vector collaborators;
               clock := 0 : @Clock collaborators;
               range := tt : @Range collaborators;
               to_isReady := true |};
     SingleSequencer._sched := None : @Schedule collaborators;
     SingleSequencer._activeCues := [] |}.

(** The event map of an axis update that stores [cueA] again, unchanged,
    and replaces [cueB0] by [cueB]. *)
Definition sample_eventMap
  : JsMap.t (@Key collaborators) (@AxisItem collaborators) :=
  [(1%nat, {| it_key := 1%nat : @Key collaborators;
              it_new := Some cueA; it_old := Some cueA;
              it_delta := {| d_interval := NOOP; d_data := NOOP |} |});
   (2%nat, {| it_key := 2%nat : @Key collaborators;
              it_new := Some cueB; it_old := Some cueB0;
              it_delta := {| d_interval := CHANGE; d_data := NOOP |} |})].

Definition singular_item : @EndpointItem collaborators :=
  {| ei_endpoint := {| ep_value := 7 : @Position collaborators;
                       ep_right := false; ep_closed := true;
                       ep_singular := true |};
     ei_cue := cueP : @Cue collaborators;
     ei_direction := 1 |}.

Definition low_item : @EndpointItem collaborators :=
  {| ei_endpoint := {| ep_value := 0 : @Position collaborators;
                       ep_right := false; ep_closed := true;
                       ep_singular := false |};
     ei_cue := cueB : @Cue collaborators;
     ei_direction := 1 |}.

Definition sample_heap : @DoubleSequencer.Heap collaborators :=
  fun _ =>
    {| vector := at5 : @Vector collaborators;
       old_vector := at5 : @Vector collaborators;
       clock := 0 : @Clock collaborators;
       range := tt : @Range collaborators;
       to_isReady := true |}.


Definition at25 : motion :=
  {| m_position := 25; m_velocity := 0; m_timestamp := 0 |}.

(** A timing object that is not ready yet. *)
Definition waiting : @TimingObject collaborators :=
  {| vector := at5 : @Vector collaborators;
     old_vector := at5 : @Vector collaborators;
     clock := 0 : @Clock collaborators;
     range := tt : @Range collaborators;
     to_isReady := false |}.

(** A timing object that has just jumped from position [5] to [25]. *)
Definition jumped : @TimingObject collaborators :=
  {| vector := at25 : @Vector collaborators;
     old_vector := at5 : @Vector collaborators;
     clock := 0 : @Clock collaborators;
     range := tt : @Range collaborators;
     to_isReady := true |}.

Definition jump_heap : @DoubleSequencer.Heap collaborators :=
  fun _ => jumped.

(** The event map of an axis update that replaces [cueB0] by [cueB]. *)
Definition change_eventMap
  : JsMap.t (@Key collaborators) (@AxisItem collaborators) :=
  [(2%nat, {| it_key := 2%nat : @Key collaborators;
              it_new := Some cueB; it_old := Some cueB0;
              it_delta := {| d_interval := CHANGE; d_data := NOOP |} |})].

(** A ready double sequencer over the axis [[cueA; cueB]] with [cueB]
    active. *)
Definition sample_double : @DoubleSequencer.t collaborators :=
  {| DoubleSequencer._axis := [cueA; cueB] : @Axis collaborators;
     DoubleSequencer._toA := 1%nat;
     DoubleSequencer._toB := 2%nat;
     DoubleSequencer._ready := true;
     DoubleSequencer._toA_ready := true;
     DoubleSequencer._toB_ready := true;
     DoubleSequencer._scheduleA := Some (None : @Schedule collaborators);
     DoubleSequencer._scheduleB := Some (None : @Schedule collaborators);
     DoubleSequencer._activeCues :=
       Some ([(2%nat, cueB)]
             : JsMap.t (@Key collaborators) (@Cue collaborators)) |}.

End Sample.

(** ** Vocabulary of the properties *)

Module Spec.
Import Js.

Definition lt (a b : num) : Prop := ltb a b = true.

Definition le (a b : num) : Prop := ltb b a = false.

(** Strictly increasing: sorted, and no element twice. *)
Fixpoint is_sorted (l : list num) : bool :=
  match l with
  | [] => true
  | x :: l' =>
      match l' with
      | [] => true
      | y :: _ => ltb x y && is_sorted l'
      end
  end.

Definition mem (x : num) (l : list num) : bool := existsb (eqb x) l.

(** No element twice. *)
Fixpoint no_repeat (l : list num) : bool :=
  match l with
  | [] => true
  | x :: l' => negb (mem x l') && no_repeat l'
  end.

Definition is_finite (x : num) : bool :=
  match x with
  | Fin _ => true
  | Infinity => false
  end.

(** The index at which [x] would be inserted into the sorted [array]: the
    number of elements below [x]. *)
Definition insertion_index (array : list num) (x : num) : Z :=
  Z.of_nat (List.length (filter (fun e => ltb e x) array)).

(** The batches for which [update] is characterised below: an empty batch;
    under the splice strategy, removals without repetition; under the sort
    strategy, finite numbers only and at least one removal that hits. *)
Definition update_in_scope (array to_remove to_insert : list num) : bool :=
  let size := length to_remove + length to_insert in
  (size =? 0)
  || match BinarySearch.resolve_approach (length array) size with
     | BinarySearch.splice_approach => no_repeat to_remove
     | BinarySearch.sort_approach =>
         forallb is_finite array && forallb is_finite to_insert
         && existsb (fun x => mem x array) to_remove
     end.

(** The number of elements not above [x]. *)
Definition count_upto (array : list num) (x : num) : Z :=
  Z.of_nat (List.length (filter (fun e => negb (ltb x e)) array)).

(** [e] lies in the interval, its ends counted as the interval says. *)
Definition within (interval : BinarySearch.Interval) (e : num) : bool :=
  (if BinarySearch.lowInclude interval
   then negb (ltb e (BinarySearch.low interval))
   else ltb (BinarySearch.low interval) e)
  && (if BinarySearch.highInclude interval
      then negb (ltb (BinarySearch.high interval) e)
      else ltb e (BinarySearch.high interval)).

End Spec.

Module UtilSpec.
Import JsMap Util.

Section Merging.
Context {K V : Type} `{KeyEq K}.

(** The binding of [k] in the last of the maps that has one. *)
Definition last_binding (heap : @MapHeap K V) (refs : list MapRef) (k : K)
  : option V :=
  fold_left (fun acc m =>
               match get (heap m) k with Some v => Some v | None => acc end)
    refs None.

End Merging.

End UtilSpec.

Module SequencingSpec.
Import JsMap Sequencing SingleSequencer.

Section Classification.
Context {C : Collaborators}.

(** The classification of an axis event by [(is_active, should_be_active)]. *)
Definition should_be_active (position : Position) (item : AxisItem) : bool :=
  match it_new item with
  | Some new => covers_endpoint (cue_interval new) position
  | None => false
  end.

Definition is_exit (this : t) (position : Position) (item : AxisItem) : bool :=
  has (_activeCues this) (it_key item) && negb (should_be_active position item).

Definition is_enter (this : t) (position : Position) (item : AxisItem) : bool :=
  negb (has (_activeCues this) (it_key item)) && should_be_active position item.

Definition is_change (this : t) (position : Position) (item : AxisItem) : bool :=
  has (_activeCues this) (it_key item) && should_be_active position item.

(** The axis event map and the active cues fit the axis at [position]:
    both maps are keyed by the key their values carry; for a key of the
    event map the axis now returns a covering cue exactly when the new cue
    of the event covers [position]; for any other key it does so exactly
    when the key is active. *)
Definition consistent (this : t) (eventMap : JsMap.t Key AxisItem)
  (position : Position) : Prop :=
  let covering := cue_map (lookup (_axis this) (Interval_point position)) in
  wf eventMap = true
  /\ wf (_activeCues this) = true
  /\ (forall k item, get eventMap k = Some item ->
        it_key item = k
        /\ has covering k = should_be_active position item)
  /\ (forall k cue, get (_activeCues this) k = Some cue -> cue_key cue = k)
  /\ (forall k, has eventMap k = false ->
        has covering k = has (_activeCues this) k).



(** A map of cues has pairwise distinct keys and binds every key to a cue
    that carries this key. *)
Definition keyed (m : JsMap.t Key Cue) : Prop :=
  wf m = true /\ forall k cue, get m k = Some cue -> cue_key cue = k.

(** A due event that leaves its cue active: the endpoint is not singular
    and is passed inwards. *)
Definition item_enters (item : EndpointItem) : bool :=
  negb (ep_singular (ei_endpoint item))
  && (0 <? ei_direction item
           * (if ep_right (ei_endpoint item) then -1 else 1)).

End Classification.

End SequencingSpec.

(* ===================================================================== *)
(** * Part II: properties                                                 *)
(* ===================================================================== *)

(** ** Numbers and arrays *)

Module JsFacts.
Import Js Spec.

Lemma eqb_eq (a b : num) : eqb a b = true <-> a = b.
Proof.
  destruct a as [x|], b as [y|]; simpl; split; intros E;
    try discriminate; try reflexivity.
  - apply Z.eqb_eq in E. now subst.
  - inversion E. apply Z.eqb_refl.
Qed.

Lemma eqb_refl (a : num) : eqb a a = true.
Proof. now apply eqb_eq. Qed.

Lemma eqb_neq (a b : num) : eqb a b = false <-> a <> b.
Proof.
  split.
  - intros E F. apply eqb_eq in F. congruence.
  - intros N. destruct (eqb a b) eqn:E; [|reflexivity].
    apply eqb_eq in E. contradiction.
Qed.

Lemma num_eq_dec (a b : num) : {a = b} + {a <> b}.
Proof.
  destruct (eqb a b) eqn:E.
  - left. now apply eqb_eq.
  - right. now apply eqb_neq.
Qed.

Lemma lt_irrefl (a : num) : ~ lt a a.
Proof. unfold lt. destruct a; simpl; [rewrite Z.ltb_irrefl|]; discriminate. Qed.

Lemma lt_trans (a b c : num) : lt a b -> lt b c -> lt a c.
Proof.
  unfold lt. destruct a, b, c; simpl; try discriminate; try reflexivity.
  rewrite !Z.ltb_lt. lia.
Qed.

Lemma lt_asym (a b : num) : lt a b -> ~ lt b a.
Proof. intros H1 H2. exact (lt_irrefl a (lt_trans _ _ _ H1 H2)). Qed.

Lemma ltb_total (a b : num) : ltb a b = false -> ltb b a = false -> a = b.
Proof.
  destruct a, b; simpl; try discriminate; try reflexivity.
  rewrite !Z.ltb_ge. intros. f_equal. lia.
Qed.

Lemma le_trans (a b c : num) : le a b -> le b c -> le a c.
Proof.
  unfold le. destruct a, b, c; simpl; try discriminate; try reflexivity.
  rewrite !Z.ltb_ge. lia.
Qed.

Lemma le_lt_or_eq (a b : num) : le a b -> lt a b \/ a = b.
Proof.
  unfold le, lt. intros H. destruct (ltb a b) eqn:E; [now left|].
  right. now apply ltb_total.
Qed.

Lemma lt_le_trans (a b c : num) : lt a b -> le b c -> lt a c.
Proof.
  intros H1 H2. destruct (le_lt_or_eq _ _ H2) as [H|H].
  - eapply lt_trans; eassumption.
  - now subst.
Qed.

Lemma le_Infinity (a : num) : le Infinity a -> a = Infinity.
Proof. unfold le. destruct a; simpl; [discriminate|reflexivity]. Qed.

Lemma to_int32_small (z : Z) : - 2 ^ 31 <= z < 2 ^ 31 -> to_int32 z = z.
Proof.
  intros H. unfold to_int32. rewrite Z.mod_small; lia.
Qed.

Lemma half_small (x : Z) : 0 <= x < 2 ^ 32 -> half x = x / 2.
Proof.
  intros H. unfold half. rewrite Z.quot_div_nonneg by lia.
  apply to_int32_small.
  assert (0 <= x / 2) by (apply Z.div_pos; lia).
  assert (x / 2 < 2 ^ 31) by (apply Z.div_lt_upper_bound; lia).
  lia.
Qed.

Lemma bitnot_small (z : Z) : - 2 ^ 31 <= z < 2 ^ 31 -> bitnot z = - z - 1.
Proof.
  intros H. unfold bitnot. rewrite to_int32_small by exact H.
  unfold Z.lnot. lia.
Qed.

Lemma is_sorted_StronglySorted (l : list num) :
  is_sorted l = true <-> StronglySorted lt l.
Proof.
  induction l as [|x l IH].
  - split; [constructor | reflexivity].
  - simpl. destruct l as [|y l'].
    + split; [repeat constructor | reflexivity].
    + rewrite andb_true_iff, IH. split.
      * intros [Hxy Hs]. constructor; [exact Hs|].
        constructor; [exact Hxy|].
        apply StronglySorted_inv in Hs. destruct Hs as [_ Hf].
        eapply Forall_impl; [|exact Hf].
        intros a Ha. eapply lt_trans; eassumption.
      * intros Hs. apply StronglySorted_inv in Hs. destruct Hs as [Hs Hf].
        split; [|exact Hs]. now inversion Hf.
Qed.

Lemma sorted_nth (l : list num) :
  StronglySorted lt l ->
  forall i j a b, (i < j)%nat ->
    nth_error l i = Some a -> nth_error l j = Some b -> lt a b.
Proof.
  induction 1 as [|x l Hs IH Hf]; intros i j a b Hij Hi Hj.
  - destruct i; discriminate.
  - destruct j as [|j]; [lia|]. simpl in Hj. destruct i as [|i].
    + simpl in Hi. inversion Hi; subst.
      rewrite Forall_forall in Hf. apply Hf. eapply nth_error_In; eassumption.
    + simpl in Hi. eapply IH; [|eassumption|eassumption]. lia.
Qed.

Lemma sorted_NoDup (l : list num) : StronglySorted lt l -> NoDup l.
Proof.
  induction 1 as [|x l Hs IH Hf]; constructor; [|exact IH].
  intros Hin. rewrite Forall_forall in Hf. exact (lt_irrefl x (Hf x Hin)).
Qed.

Lemma In_firstn_nth {A} (l : list A) (p : nat) (e : A) :
  In e (firstn p l) -> exists i, (i < p)%nat /\ nth_error l i = Some e.
Proof.
  revert l. induction p as [|p IH]; intros l Hin; [destruct Hin|].
  destruct l as [|x l]; [destruct Hin|]. simpl in Hin. destruct Hin as [E|Hin].
  - exists 0%nat. subst. split; [lia|reflexivity].
  - destruct (IH _ Hin) as (i & Hi & Hn). exists (S i). split; [lia|exact Hn].
Qed.

Lemma In_skipn_nth {A} (l : list A) (p : nat) (e : A) :
  In e (skipn p l) -> exists i, (p <= i)%nat /\ nth_error l i = Some e.
Proof.
  revert l. induction p as [|p IH]; intros l Hin.
  - simpl in Hin. apply In_nth_error in Hin. destruct Hin as [i Hi].
    exists i. split; [lia|exact Hi].
  - destruct l as [|x l]; [destruct Hin|]. simpl in Hin.
    destruct (IH _ Hin) as (i & Hi & Hn). exists (S i). split; [lia|exact Hn].
Qed.

Lemma get_nth {A} (l : list A) (i : Z) :
  0 <= i -> get l i = nth_error l (Z.to_nat i).
Proof. intros H. unfold get. destruct (Z.ltb_spec i 0); [lia|reflexivity]. Qed.

(** A split point of a sorted array is the insertion index. *)
Lemma split_insertion_index (l : list num) (x : num) (p : nat) :
  (p <= List.length l)%nat ->
  Forall (fun e => lt e x) (firstn p l) ->
  Forall (fun e => lt x e) (skipn p l) ->
  insertion_index l x = Z.of_nat p /\ ~ In x l.
Proof.
  intros Hp H1 H2. split.
  - unfold insertion_index. f_equal.
    rewrite <- (firstn_skipn p l) at 1. rewrite filter_app, length_app.
    assert (E1 : filter (fun e => ltb e x) (firstn p l) = firstn p l).
    { clear Hp H2. induction H1 as [|a l' Ha _ IH]; [reflexivity|].
      simpl. unfold lt in Ha. rewrite Ha. now f_equal. }
    assert (E2 : filter (fun e => ltb e x) (skipn p l) = []).
    { clear Hp H1. induction H2 as [|a l' Ha _ IH]; [reflexivity|].
      simpl. destruct (ltb a x) eqn:E; [|exact IH].
      exfalso. exact (lt_asym _ _ Ha E). }
    rewrite E1, E2, length_firstn. simpl. lia.
  - intros Hin. rewrite <- (firstn_skipn p l) in Hin.
    apply in_app_or in Hin. rewrite Forall_forall in H1, H2.
    destruct Hin as [Hin|Hin]; [apply H1 in Hin|apply H2 in Hin];
      exact (lt_irrefl _ Hin).
Qed.

Lemma mem_In (x : num) (l : list num) : mem x l = true <-> In x l.
Proof.
  unfold mem. rewrite existsb_exists. split.
  - intros (y & Hy & E). apply eqb_eq in E. now subst.
  - intros Hin. exists x. split; [exact Hin|apply eqb_refl].
Qed.

Lemma mem_not_In (x : num) (l : list num) : mem x l = false <-> ~ In x l.
Proof.
  rewrite <- mem_In. destruct (mem x l); split; intros; congruence.
Qed.

Lemma no_repeat_NoDup (l : list num) : no_repeat l = true <-> NoDup l.
Proof.
  induction l as [|x l IH]; simpl.
  - split; [constructor|reflexivity].
  - rewrite andb_true_iff, negb_true_iff, mem_not_In, IH. split.
    + intros [H1 H2]. now constructor.
    + intros H. inversion H. now split.
Qed.

Section SortedLists.
Context {A : Type} (R : A -> A -> Prop).

Lemma StronglySorted_app (l1 l2 : list A) :
  StronglySorted R (l1 ++ l2) <->
  StronglySorted R l1 /\ StronglySorted R l2
  /\ (forall a b, In a l1 -> In b l2 -> R a b).
Proof.
  induction l1 as [|x l1 IH]; simpl.
  - split.
    + intros H. repeat split; [constructor|exact H|contradiction].
    + now intros (_ & H & _).
  - split.
    + intros H. apply StronglySorted_inv in H. destruct H as [Hs Hf].
      apply IH in Hs. destruct Hs as (H1 & H2 & H3).
      rewrite Forall_app in Hf. destruct Hf as [Hf1 Hf2].
      repeat split; [now constructor|exact H2|].
      intros a b [->|Ha] Hb.
      * rewrite Forall_forall in Hf2. now apply Hf2.
      * now apply H3.
    + intros (H1 & H2 & H3). apply StronglySorted_inv in H1.
      destruct H1 as [Hs Hf]. constructor.
      * apply IH. repeat split; [exact Hs|exact H2|]. intros; apply H3; auto.
      * rewrite Forall_app. split; [exact Hf|].
        apply Forall_forall. intros b Hb. apply H3; auto.
Qed.

Lemma StronglySorted_remove_middle (l1 l2 : list A) (x : A) :
  StronglySorted R (l1 ++ x :: l2) -> StronglySorted R (l1 ++ l2).
Proof.
  rewrite !StronglySorted_app. intros (H1 & H2 & H3).
  apply StronglySorted_inv in H2. destruct H2 as [H2 _].
  repeat split; [exact H1|exact H2|]. intros a b Ha Hb. apply H3; simpl; auto.
Qed.

End SortedLists.

Lemma StronglySorted_rev {A} (R : A -> A -> Prop) (l : list A) :
  StronglySorted R l -> StronglySorted (fun a b => R b a) (rev l).
Proof.
  induction 1 as [|x l Hs IH Hf]; simpl; [constructor|].
  apply StronglySorted_app. repeat split.
  - exact IH.
  - repeat constructor.
  - intros a b Ha [<-|[]]. rewrite Forall_forall in Hf.
    apply Hf. now apply in_rev.
Qed.

(** [sort] with a comparator that decides a total preorder [R]. *)
Section Sorting.
Context {A : Type} (cmp : A -> A -> diff) (R : A -> A -> Prop).
Hypothesis R_trans : forall a b c, R a b -> R b c -> R a c.
Hypothesis cmp_le : forall x y, positive (cmp x y) = false -> R x y.
Hypothesis cmp_gt : forall x y, positive (cmp x y) = true -> R y x.

Lemma sort_insert_perm (x : A) (l : list A) :
  Permutation (x :: l) (sort_insert cmp x l).
Proof.
  induction l as [|y l IH]; simpl; [reflexivity|].
  destruct (positive (cmp x y)); [|reflexivity].
  rewrite perm_swap. now constructor.
Qed.

Lemma sort_perm (l : list A) : Permutation l (sort cmp l).
Proof.
  induction l as [|x l IH]; simpl; [reflexivity|].
  rewrite <- sort_insert_perm. now constructor.
Qed.

Lemma sort_insert_sorted (x : A) (l : list A) :
  StronglySorted R l -> StronglySorted R (sort_insert cmp x l).
Proof.
  induction 1 as [|y l Hs IH Hf]; simpl; [repeat constructor|].
  destruct (positive (cmp x y)) eqn:E.
  - constructor; [exact IH|].
    apply (Permutation_Forall (sort_insert_perm x l)).
    constructor; [now apply cmp_gt|exact Hf].
  - apply cmp_le in E. constructor; [now constructor|].
    constructor; [exact E|]. eapply Forall_impl; [|exact Hf].
    intros a Ha. eapply R_trans; eassumption.
Qed.

Lemma sort_sorted (l : list A) : StronglySorted R (sort cmp l).
Proof.
  induction l as [|x l IH]; simpl; [constructor|].
  now apply sort_insert_sorted.
Qed.

End Sorting.

Lemma sort_Z_sorted (l : list Z) :
  StronglySorted Z.le (sort (fun a b => DNum (a - b)) l).
Proof.
  apply sort_sorted.
  - intros a b c. apply Z.le_trans.
  - intros x y. simpl. rewrite Z.ltb_ge. lia.
  - intros x y. simpl. rewrite Z.ltb_lt. lia.
Qed.

Lemma sort_num_sorted (l : list num) : StronglySorted le (sort sub l).
Proof.
  apply sort_sorted.
  - exact le_trans.
  - intros x y. unfold le.
    destruct x, y; simpl; try discriminate; try reflexivity.
    rewrite !Z.ltb_ge. lia.
  - intros x y. unfold le.
    destruct x, y; simpl; try discriminate; try reflexivity.
    rewrite Z.ltb_lt, Z.ltb_ge. lia.
Qed.

(** A sorted list of pairwise distinct integers, reversed, is strictly
    decreasing. *)
Lemma sorted_distinct_rev (l : list Z) :
  StronglySorted Z.le l -> NoDup l -> StronglySorted Z.gt (rev l).
Proof.
  intros Hs Hn.
  assert (Hlt : StronglySorted Z.lt l).
  { induction Hs as [|x l Hs IH Hf]; [constructor|].
    inversion Hn; subst. constructor; [now apply IH|].
    rewrite Forall_forall in *. intros y Hy.
    assert (x <> y) by (intros ->; contradiction).
    specialize (Hf y Hy). lia. }
  apply StronglySorted_rev in Hlt.
  induction Hlt as [|a l' _ IH Hf]; constructor; [exact IH|].
  eapply Forall_impl; [|exact Hf]. cbv beta. intros; lia.
Qed.

(** Deleting one element with [splice]. *)
Lemma splice_delete_one {A} (a : list A) (i : Z) (x : A) :
  0 <= i -> nth_error a (Z.to_nat i) = Some x ->
  exists l1 l2, a = l1 ++ x :: l2 /\ List.length l1 = Z.to_nat i
                /\ splice a i 1 [] = l1 ++ l2.
Proof.
  intros Hi Hn. destruct (nth_error_split _ _ Hn) as (l1 & l2 & -> & Hl).
  exists l1, l2. split; [reflexivity|]. split; [exact Hl|].
  unfold splice, length. rewrite length_app. simpl List.length.
  destruct (Z.ltb_spec i 0); [lia|].
  replace (Z.to_nat (Z.min i (Z.of_nat (List.length l1 + S (List.length l2)))))
    with (List.length l1 + 0)%nat by lia.
  rewrite firstn_app_2. simpl firstn. rewrite app_nil_r. simpl app.
  f_equal.
  match goal with |- skipn ?n _ = _ =>
    replace n with (List.length l1 + 1)%nat by lia end.
  rewrite skipn_app.
  rewrite skipn_all2 by lia.
  replace (List.length l1 + 1 - List.length l1)%nat with 1%nat by lia.
  reflexivity.
Qed.

(** Inserting one element with [splice]. *)
Lemma splice_insert_one {A} (a : list A) (i : Z) (x : A) :
  0 <= i <= length a ->
  splice a i 0 [x] = firstn (Z.to_nat i) a ++ x :: skipn (Z.to_nat i) a.
Proof.
  intros Hi. unfold splice. unfold length in *.
  destruct (Z.ltb_spec i 0); [lia|].
  f_equal; [f_equal; lia|]. simpl. do 2 f_equal. lia.
Qed.

(** [array.indexOf(x)] splits the array at the first occurrence. *)
Lemma indexOf_from_split (l : list num) (x : num) (i : Z) :
  In x l ->
  exists l1 l2, l = l1 ++ x :: l2 /\ ~ In x l1
                /\ indexOf_from l x i = i + Z.of_nat (List.length l1).
Proof.
  revert i. induction l as [|y l IH]; intros i Hin; [destruct Hin|].
  simpl. destruct (eqb y x) eqn:E.
  - apply eqb_eq in E. subst y. exists [], l. simpl.
    repeat split; [tauto|lia].
  - apply eqb_neq in E. destruct Hin as [Hin|Hin]; [contradiction|].
    destruct (IH (i + 1) Hin) as (l1 & l2 & -> & Hnot & Hi).
    exists (y :: l1), l2. simpl. repeat split.
    + intros [F|F]; [contradiction|now apply Hnot].
    + rewrite Hi. lia.
Qed.

Lemma indexOf_from_absent (l : list num) (x : num) (i : Z) :
  ~ In x l -> indexOf_from l x i = -1.
Proof.
  revert i. induction l as [|y l IH]; intros i Hnot; [reflexivity|].
  simpl. destruct (eqb y x) eqn:E.
  - apply eqb_eq in E. subst. exfalso. apply Hnot. now left.
  - apply IH. intros F. apply Hnot. now right.
Qed.

(** [splice(index, length)] keeps what is before [index]. *)
Lemma splice_truncate {A} (l1 l2 : list A) :
  splice (l1 ++ l2) (Z.of_nat (List.length l1)) (length (l1 ++ l2)) [] = l1.
Proof.
  unfold splice, length. rewrite length_app.
  destruct (Z.ltb_spec (Z.of_nat (List.length l1)) 0); [lia|].
  simpl app.
  replace (Z.to_nat (Z.min (Z.of_nat (List.length l1))
                       (Z.of_nat (List.length l1 + List.length l2))))
    with (List.length l1 + 0)%nat by lia.
  rewrite firstn_app_2. simpl. rewrite app_nil_r.
  rewrite skipn_all2; [apply app_nil_r|]. rewrite length_app. lia.
Qed.

(** [splice(-1, length)] drops the last element. *)
Lemma splice_minus_one {A} (l : list A) (x : A) :
  splice (l ++ [x]) (-1) (length (l ++ [x])) [] = l.
Proof.
  unfold splice, length. rewrite length_app. simpl List.length.
  change (-1 <? 0) with true. cbv iota.
  replace (Z.to_nat (Z.max (Z.of_nat (List.length l + 1) + -1) 0))
    with (List.length l + 0)%nat by lia.
  rewrite firstn_app_2. simpl. rewrite app_nil_r.
  rewrite skipn_all2; [apply app_nil_r|]. rewrite length_app. simpl. lia.
Qed.

Lemma unique_from_In (l seen : list num) (e : num) :
  In e (unique_from seen l) <-> In e l /\ ~ In e seen.
Proof.
  revert seen. induction l as [|x l IH]; intros seen; simpl; [tauto|].
  destruct (existsb (eqb x) seen) eqn:E.
  - apply mem_In in E. rewrite IH. split; [tauto|].
    intros [[<-|H] Hn]; [contradiction|tauto].
  - apply mem_not_In in E. simpl. rewrite IH. simpl. split.
    + intros [<-|[H Hn]]; [tauto|]. split; [tauto|]. intros F. apply Hn. tauto.
    + intros [[<-|H] Hn]; [tauto|].
      destruct (num_eq_dec x e) as [->|Hne]; [tauto|].
      right. split; [exact H|]. intros [F|F]; contradiction.
Qed.

Lemma unique_from_sorted (l seen : list num) :
  StronglySorted le l -> StronglySorted lt (unique_from seen l).
Proof.
  intros Hs. revert seen. induction Hs as [|x l Hs IH Hf]; intros seen; simpl.
  - constructor.
  - destruct (existsb (eqb x) seen); [apply IH|].
    constructor; [apply IH|]. apply Forall_forall. intros e He.
    apply unique_from_In in He. destruct He as [He Hn].
    rewrite Forall_forall in Hf. destruct (le_lt_or_eq _ _ (Hf e He)) as [H|H].
    + exact H.
    + subst. exfalso. apply Hn. now left.
Qed.

End JsFacts.

(** ** The sorted index *)

Module BinarySearchFacts.
Import Js Spec JsFacts BinarySearch.

(** The loop of [binaryIndexOf] on a sorted array: with the elements below
    [minIndex] smaller and those above [maxIndex] larger than the searched
    element, it ends within its fuel, on the index of the element or on
    the negated split point. *)
Lemma binaryIndexOf_loop_spec (array : list num) (x : num) :
  StronglySorted lt array -> length array < 2 ^ 31 ->
  forall (fuel : nat) (minIndex maxIndex : Z),
    0 <= minIndex -> maxIndex < length array -> minIndex <= maxIndex + 1 ->
    maxIndex - minIndex + 1 <= Z.of_nat fuel ->
    (forall i e, (i < Z.to_nat minIndex)%nat ->
                 nth_error array i = Some e -> lt e x) ->
    (forall i e, (Z.to_nat (maxIndex + 1) <= i)%nat ->
                 nth_error array i = Some e -> lt x e) ->
    exists r, binaryIndexOf_loop fuel array x minIndex maxIndex = Some r /\
      ((0 <= r < length array /\ nth_error array (Z.to_nat r) = Some x) \/
       (exists p : nat, r = - Z.of_nat p /\ (p <= List.length array)%nat /\
          Forall (fun e => lt e x) (firstn p array) /\
          Forall (fun e => lt x e) (skipn p array))).
Proof.
  intros Hs Hlen. unfold length in *.
  induction fuel as [|fuel IH]; intros lo hi Hlo Hhi Hle Hfuel Hlow Hhigh.
  - simpl. destruct (Z.leb_spec lo hi) as [Hc|Hc]; [lia|].
    assert (hi + 1 = lo) by lia. clear Hfuel.
    exists (bitnot hi). split; [reflexivity|]. right.
    exists (Z.to_nat lo). rewrite bitnot_small by lia.
    split; [lia|]. split; [lia|]. split; apply Forall_forall; intros e Hin.
    + apply In_firstn_nth in Hin. destruct Hin as (i & Hi & Hn). eauto.
    + apply In_skipn_nth in Hin. destruct Hin as (i & Hi & Hn).
      apply (Hhigh i); [lia|exact Hn].
  - simpl. destruct (Z.leb_spec lo hi) as [Hc|Hc].
    + rewrite half_small by lia.
      set (cur := (lo + hi) / 2).
      assert (Hcur : lo <= cur <= hi).
      { subst cur. split.
        - apply Z.div_le_lower_bound; lia.
        - apply Z.div_le_upper_bound; lia. }
      rewrite get_nth by lia.
      destruct (nth_error array (Z.to_nat cur)) as [e|] eqn:He.
      2:{ apply nth_error_None in He. lia. }
      destruct (ltb e x) eqn:E1; [|destruct (ltb x e) eqn:E2].
      * apply IH; try lia.
        -- intros i e' Hi Hn.
           destruct (Nat.eq_dec i (Z.to_nat cur)) as [->|Hne].
           ++ rewrite He in Hn. inversion Hn; subst. exact E1.
           ++ eapply lt_trans; [|exact E1].
              eapply (sorted_nth _ Hs i (Z.to_nat cur)); [lia|eassumption..].
        -- exact Hhigh.
      * apply IH; try lia.
        -- exact Hlow.
        -- intros i e' Hi Hn.
           destruct (Nat.eq_dec i (Z.to_nat cur)) as [->|Hne].
           ++ rewrite He in Hn. inversion Hn; subst. exact E2.
           ++ eapply lt_trans; [exact E2|].
              eapply (sorted_nth _ Hs (Z.to_nat cur) i); [lia|eassumption..].
      * exists cur. split; [reflexivity|]. left. split; [lia|].
        rewrite He. f_equal. now apply ltb_total.
    + assert (hi + 1 = lo) by lia.
      exists (bitnot hi). split; [reflexivity|]. right.
      exists (Z.to_nat lo). rewrite bitnot_small by lia.
      split; [lia|]. split; [lia|]. split; apply Forall_forall; intros e Hin.
      * apply In_firstn_nth in Hin. destruct Hin as (i & Hi & Hn). eauto.
      * apply In_skipn_nth in Hin. destruct Hin as (i & Hi & Hn).
        apply (Hhigh i); [lia|exact Hn].
Qed.

(** [binaryIndexOf] on a sorted array: the index of a present element, the
    negated insertion index of an absent one. *)
Lemma binaryIndexOf_spec (array : list num) (x : num) :
  StronglySorted lt array -> length array < 2 ^ 31 ->
  exists r, binaryIndexOf array x = Some r /\
    ((In x array /\ 0 <= r < length array
      /\ nth_error array (Z.to_nat r) = Some x) \/
     (~ In x array /\ r = - insertion_index array x
      /\ 0 <= insertion_index array x <= length array
      /\ Forall (fun e => lt e x)
                (firstn (Z.to_nat (insertion_index array x)) array)
      /\ Forall (fun e => lt x e)
                (skipn (Z.to_nat (insertion_index array x)) array))).
Proof.
  intros Hs Hlen. unfold binaryIndexOf.
  destruct (binaryIndexOf_loop_spec array x Hs Hlen (List.length array)
              0 (length array - 1)) as (r & Hr & Hcase).
  - lia.
  - lia.
  - unfold length. lia.
  - unfold length. lia.
  - intros i e Hi. simpl in Hi. lia.
  - intros i e Hi Hn. assert (nth_error array i <> None) by congruence.
    apply nth_error_Some in H. unfold length in Hi. lia.
  - exists r. split; [exact Hr|]. destruct Hcase as [[Hb Hn]|(p & -> & Hp & H1 & H2)].
    + left. split; [|split; assumption]. eapply nth_error_In; eassumption.
    + right. destruct (split_insertion_index array x p Hp H1 H2) as [Hi Hnot].
      rewrite Hi, Nat2Z.id. unfold length.
      repeat split; try assumption; lia.
Qed.

Lemma isFound_present (array : list num) (r : Z) (x : num) :
  0 <= r -> nth_error array (Z.to_nat r) = Some x -> isFound array r x = true.
Proof.
  intros Hr Hn. unfold isFound. destruct (Z.ltb_spec 0 r); [reflexivity|].
  assert (r = 0) by lia. subst r. simpl in Hn.
  destruct array as [|y l]; [discriminate|]. inversion Hn; subst.
  unfold get, length. simpl. now rewrite eqb_refl.
Qed.

Lemma isFound_absent (array : list num) (p : Z) (x : num) :
  0 <= p -> ~ In x array -> isFound array (- p) x = false.
Proof.
  intros Hp Hnot. unfold isFound. destruct (Z.ltb_spec 0 (- p)); [lia|].
  destruct (Z.eqb_spec (- p) 0) as [E|E]; [|reflexivity].
  destruct array as [|y l]; [reflexivity|].
  unfold get, length. simpl.
  destruct (eqb y x) eqn:Ey; [|reflexivity].
  apply eqb_eq in Ey. subst. exfalso. apply Hnot. now left.
Qed.

Lemma indexOf_spec (array : list num) (x : num) :
  StronglySorted lt array -> length array < 2 ^ 31 ->
  exists r, indexOf array x = Some r /\
    ((In x array /\ 0 <= r < length array
      /\ nth_error array (Z.to_nat r) = Some x) \/
     (~ In x array /\ r = -1)).
Proof.
  intros Hs Hlen. unfold indexOf.
  destruct (binaryIndexOf_spec array x Hs Hlen) as (r & -> & Hcase). simpl.
  destruct Hcase as [(Hin & Hr & Hn)|(Hnot & -> & Hb & _)].
  - rewrite isFound_present by (try lia; assumption).
    exists r. split; [reflexivity|]. left. auto.
  - rewrite isFound_absent by (try lia; assumption).
    exists (-1). split; [reflexivity|]. right. auto.
Qed.

(** The indexes collected by [indexOfElements]: those of the elements that
    are in the array. *)
Lemma indexOfElements_spec (array elements : list num) :
  StronglySorted lt array -> length array < 2 ^ 31 ->
  exists indexes, indexOfElements array elements = Some indexes /\
    Forall (fun i => 0 <= i < length array) indexes /\
    (forall i, In i indexes ->
       exists x, In x elements /\ nth_error array (Z.to_nat i) = Some x) /\
    (forall x, In x elements -> In x array ->
       exists i, In i indexes /\ nth_error array (Z.to_nat i) = Some x) /\
    (NoDup elements -> NoDup indexes).
Proof.
  intros Hs Hlen. induction elements as [|x elements IH].
  - exists []. simpl. repeat split; try constructor; try contradiction.
  - destruct IH as (indexes & Hidx & Hrange & Hsound & Hcompl & Hnodup).
    simpl. destruct (indexOf_spec array x Hs Hlen) as (r & -> & Hcase).
    simpl. rewrite Hidx. simpl.
    destruct Hcase as [(Hin & Hr & Hn)|(Hnot & ->)].
    + destruct (Z.ltb_spec (-1) r); [|lia].
      exists (r :: indexes). split; [reflexivity|]. repeat split.
      * now constructor.
      * intros i [<-|Hi].
        -- exists x. split; [now left|exact Hn].
        -- destruct (Hsound i Hi) as (y & Hy & Hny).
           exists y. split; [now right|exact Hny].
      * intros y [<-|Hy] Hyin.
        -- exists r. split; [now left|exact Hn].
        -- destruct (Hcompl y Hy Hyin) as (i & Hi & Hni).
           exists i. split; [now right|exact Hni].
      * intros Hnd. inversion Hnd; subst. constructor; [|now apply Hnodup].
        intros Hri. destruct (Hsound r Hri) as (y & Hy & Hny).
        rewrite Hn in Hny. inversion Hny; subst. contradiction.
    + simpl. exists indexes. split; [reflexivity|]. repeat split.
      * exact Hrange.
      * intros i Hi. destruct (Hsound i Hi) as (y & Hy & Hny).
        exists y. split; [now right|exact Hny].
      * intros y [<-|Hy] Hyin; [contradiction|]. now apply Hcompl.
      * intros Hnd. inversion Hnd; subst. now apply Hnodup.
Qed.

(** The removing loop of [_update_splice]: strictly decreasing indexes
    delete exactly the elements they point at. *)
Lemma remove_loop_spec (indexes : list Z) :
  forall array : list num,
    StronglySorted lt array -> StronglySorted Z.gt indexes ->
    Forall (fun i => 0 <= i < length array) indexes ->
    let array' := fold_left (fun a i => splice a i 1 []) indexes array in
    StronglySorted lt array' /\
    (List.length array' <= List.length array)%nat /\
    forall e, In e array' <->
      In e array /\
      ~ exists i, In i indexes /\ nth_error array (Z.to_nat i) = Some e.
Proof.
  induction indexes as [|i indexes IH]; intros array Hs Hd Hr; simpl.
  - split; [exact Hs|]. split; [lia|]. intros e. split.
    + intros H. split; [exact H|]. intros (i & [] & _).
    + now intros [H _].
  - apply StronglySorted_inv in Hd. destruct Hd as [Hd Hgt].
    inversion Hr as [|? ? Hi Hr']; subst. unfold length in Hi.
    destruct (nth_error array (Z.to_nat i)) as [x|] eqn:Hn.
    2:{ apply nth_error_None in Hn. lia. }
    destruct (splice_delete_one array i x (proj1 Hi) Hn)
      as (l1 & l2 & Ea & Hl1 & ->).
    assert (Hs1 : StronglySorted lt (l1 ++ l2)).
    { subst array. eapply StronglySorted_remove_middle; eassumption. }
    assert (Hr1 : Forall (fun j => 0 <= j < length (l1 ++ l2)) indexes).
    { rewrite Forall_forall in *. intros j Hj.
      specialize (Hgt j Hj). specialize (Hr' j Hj).
      unfold length. rewrite length_app. lia. }
    destruct (IH (l1 ++ l2) Hs1 Hd Hr1) as (Hs' & Hlen' & Hmem).
    split; [exact Hs'|]. split.
    { subst array. rewrite length_app in *. simpl. lia. }
    intros e. rewrite Hmem. clear Hmem IH.
    assert (Hnd : NoDup array) by now apply sorted_NoDup.
    assert (Hsame : forall j, In j indexes ->
              nth_error (l1 ++ l2) (Z.to_nat j) = nth_error array (Z.to_nat j)).
    { intros j Hj. rewrite Forall_forall in Hgt, Hr'.
      specialize (Hgt j Hj). specialize (Hr' j Hj). subst array.
      rewrite !nth_error_app1 by lia. reflexivity. }
    assert (Hx : ~ In x (l1 ++ l2)).
    { subst array. apply NoDup_remove_2 in Hnd. exact Hnd. }
    split.
    + intros [Hin Hno]. split.
      * subst array. apply in_app_or in Hin. apply in_or_app.
        destruct Hin; [now left|right; now right].
      * intros (j & [<-|Hj] & Hnj).
        -- rewrite Hn in Hnj. inversion Hnj; subst. contradiction.
        -- apply Hno. exists j. split; [exact Hj|]. now rewrite Hsame.
    + intros [Hin Hno]. split.
      * subst array. apply in_app_or in Hin. apply in_or_app.
        destruct Hin as [Hin|[<-|Hin]]; [now left| |now right].
        exfalso. apply Hno. exists i. split; [now left|exact Hn].
      * intros (j & Hj & Hnj). apply Hno. exists j.
        split; [now right|]. now rewrite <- Hsame.
Qed.

(** The inserting loop of [_update_splice] keeps the array sorted and adds
    the elements not yet there. *)
Lemma insert_loop_spec (to_insert : list num) :
  forall array : list num,
    StronglySorted lt array ->
    length array + length to_insert < 2 ^ 31 ->
    exists array', insert_loop array to_insert = Some array' /\
      StronglySorted lt array' /\
      forall e, In e array' <-> In e array \/ In e to_insert.
Proof.
  induction to_insert as [|x to_insert IH]; intros array Hs Hlen.
  - exists array. simpl. split; [reflexivity|]. split; [exact Hs|].
    intros e. tauto.
  - unfold length in Hlen. simpl List.length in Hlen.
    assert (Hlen0 : length array < 2 ^ 31) by (unfold length; lia).
    simpl. destruct (binaryIndexOf_spec array x Hs Hlen0) as (r & -> & Hcase).
    simpl. destruct Hcase as [(Hin & Hr & Hn)|(Hnot & -> & Hb & Hlo & Hhi)].
    + rewrite isFound_present by (try lia; assumption).
      destruct (IH array Hs) as (array' & -> & Hs' & Hmem).
      { unfold length. lia. }
      exists array'. split; [reflexivity|]. split; [exact Hs'|].
      intros e. rewrite Hmem. simpl. split; [tauto|].
      intros [H|[<-|H]]; auto.
    + rewrite isFound_absent by (try lia; assumption).
      rewrite Z.abs_opp, Z.abs_eq by lia.
      rewrite splice_insert_one by lia.
      set (p := Z.to_nat (insertion_index array x)) in *.
      assert (Hs1 : StronglySorted lt (firstn p array ++ x :: skipn p array)).
      { rewrite <- (firstn_skipn p array) in Hs.
        apply StronglySorted_app in Hs. destruct Hs as (H1 & H2 & H3).
        apply StronglySorted_app. repeat split.
        - exact H1.
        - now constructor.
        - intros a b Ha [<-|Hb'].
          + rewrite Forall_forall in Hlo. now apply Hlo.
          + now apply H3. }
      destruct (IH _ Hs1) as (array' & -> & Hs' & Hmem).
      { unfold length in *. rewrite length_app. simpl.
        rewrite length_firstn, length_skipn. lia. }
      exists array'. split; [reflexivity|]. split; [exact Hs'|].
      intros e. rewrite Hmem. simpl.
      rewrite <- (firstn_skipn p array) at 3.
      rewrite !in_app_iff. simpl. tauto.
Qed.

Lemma _update_splice_spec (array to_remove to_insert : list num) :
  StronglySorted lt array -> NoDup to_remove ->
  length array + length to_insert < 2 ^ 31 ->
  exists array', _update_splice array to_remove to_insert = Some array' /\
    StronglySorted lt array' /\
    forall e, In e array' <->
      (In e array /\ ~ In e to_remove) \/ In e to_insert.
Proof.
  intros Hs Hnd Hlen. unfold _update_splice.
  assert (Hlen0 : length array < 2 ^ 31) by (unfold length in *; lia).
  assert (H1 : exists array1,
             (if 0 <? length array
              then indexes <- indexOfElements array to_remove ;;
                   Some (fold_left (fun a i => splice a i 1 [])
                           (rev (sort (fun a b => DNum (a - b)) indexes))
                           array)
              else Some array) = Some array1 /\
             StronglySorted lt array1 /\
             (List.length array1 <= List.length array)%nat /\
             forall e, In e array1 <-> In e array /\ ~ In e to_remove).
  { destruct (Z.ltb_spec 0 (length array)) as [Hpos|Hpos].
    - destruct (indexOfElements_spec array to_remove Hs Hlen0)
        as (indexes & -> & Hrange & Hsound & Hcompl & Hnodup).
      simpl. eexists. split; [reflexivity|].
      set (sorted := sort (fun a b => DNum (a - b)) indexes).
      assert (Hperm : Permutation indexes sorted) by apply sort_perm.
      assert (Hin : forall i, In i (rev sorted) <-> In i indexes).
      { intros i. rewrite <- in_rev. split; apply Permutation_in;
          [now apply Permutation_sym|exact Hperm]. }
      destruct (remove_loop_spec (rev sorted) array Hs) as (Hs' & Hl' & Hmem).
      + apply sorted_distinct_rev; [apply sort_Z_sorted|].
        eapply Permutation_NoDup; [exact Hperm|now apply Hnodup].
      + apply Forall_forall. intros i Hi. rewrite Forall_forall in Hrange.
        apply Hrange. now apply Hin.
      + split; [exact Hs'|]. split; [exact Hl'|].
        intros e. rewrite Hmem. split; intros [He Hno]; split; try exact He.
        * intros Hr. destruct (Hcompl e Hr He) as (i & Hi & Hni).
          apply Hno. exists i. split; [now apply Hin|exact Hni].
        * intros (i & Hi & Hni). apply Hin in Hi.
          destruct (Hsound i Hi) as (x & Hx & Hnx).
          rewrite Hni in Hnx. inversion Hnx; subst. contradiction.
    - exists array. split; [reflexivity|]. split; [exact Hs|].
      split; [lia|]. destruct array; [|unfold length in Hpos; simpl in Hpos; lia].
      intros e. simpl. tauto. }
  destruct H1 as (array1 & -> & Hs1 & Hl1 & Hmem1). simpl.
  destruct (insert_loop_spec to_insert array1 Hs1) as (array' & -> & Hs' & Hmem).
  { unfold length in *. lia. }
  exists array'. split; [reflexivity|]. split; [exact Hs'|].
  intros e. rewrite Hmem, Hmem1. tauto.
Qed.

Lemma set_spec (array : list num) (i : Z) (v : num) :
  0 <= i < length array ->
  exists array', set array i v = Some array' /\
    List.length array' = List.length array /\
    forall j, nth_error array' j =
              if Nat.eqb j (Z.to_nat i) then Some v else nth_error array j.
Proof.
  intros Hi. unfold set, length in *.
  destruct (Z.leb_spec 0 i); [|lia].
  destruct (Z.ltb_spec i (Z.of_nat (List.length array))); [|lia].
  cbn [andb]. eexists. split; [reflexivity|].
  destruct (nth_error array (Z.to_nat i)) as [x|] eqn:Hn.
  2:{ apply nth_error_None in Hn. lia. }
  destruct (nth_error_split _ _ Hn) as (l1 & l2 & -> & Hl).
  rewrite <- Hl.
  assert (E1 : firstn (List.length l1) (l1 ++ x :: l2) = l1).
  { rewrite firstn_app, Nat.sub_diag, firstn_all. simpl. apply app_nil_r. }
  assert (E2 : skipn (S (List.length l1)) (l1 ++ x :: l2) = l2).
  { rewrite skipn_app, skipn_all2 by lia.
    replace (S (List.length l1) - List.length l1)%nat with 1%nat by lia.
    reflexivity. }
  rewrite E1, E2. split.
  - rewrite !length_app. reflexivity.
  - intros j. destruct (Nat.eqb_spec j (List.length l1)) as [->|Hne].
    + rewrite nth_error_app2 by lia. now rewrite Nat.sub_diag.
    + destruct (Nat.lt_ge_cases j (List.length l1)).
      * now rewrite !nth_error_app1 by lia.
      * rewrite !nth_error_app2 by lia.
        destruct (j - List.length l1)%nat eqn:E; [lia|reflexivity].
Qed.

(** The flagging loop of [_update_sort] overwrites exactly the given
    positions. *)
Lemma flag_loop_spec (indexes : list Z) :
  forall array : list num,
    Forall (fun i => 0 <= i < length array) indexes ->
    exists array', flag_loop array indexes = Some array' /\
      List.length array' = List.length array /\
      forall j e, nth_error array' j = Some e <->
        (In (Z.of_nat j) indexes /\ e = Infinity) \/
        (~ In (Z.of_nat j) indexes /\ nth_error array j = Some e).
Proof.
  induction indexes as [|i indexes IH]; intros array Hr.
  - exists array. simpl. split; [reflexivity|]. split; [reflexivity|].
    intros j e. tauto.
  - inversion Hr as [|? ? Hi Hr']; subst. simpl.
    destruct (set_spec array i Infinity Hi) as (array0 & -> & Hl0 & Hn0).
    simpl. destruct (IH array0) as (array' & -> & Hl' & Hn').
    { unfold length in *. rewrite Hl0. exact Hr'. }
    exists array'. split; [reflexivity|]. split; [congruence|].
    intros j e. rewrite Hn', Hn0.
    destruct (Nat.eqb_spec j (Z.to_nat i)) as [->|Hne].
    + rewrite Z2Nat.id by lia. split.
      * intros [[H ->]|[H E]]; [tauto|]. inversion E. tauto.
      * intros [[_ ->]|[H _]]; [|tauto].
        destruct (in_dec Z.eq_dec i indexes); [tauto|]. right. tauto.
    + assert (i <> Z.of_nat j) by lia. tauto.
Qed.

Lemma _update_sort_spec (array to_remove to_insert : list num) :
  StronglySorted lt array -> length array < 2 ^ 31 ->
  forallb is_finite array = true -> forallb is_finite to_insert = true ->
  existsb (fun x => mem x array) to_remove = true ->
  exists array', _update_sort array to_remove to_insert = Some array' /\
    StronglySorted lt array' /\
    forall e, In e array' <->
      (In e array /\ ~ In e to_remove) \/ In e to_insert.
Proof.
  intros Hs Hlen Hfa Hfi Hhit. unfold _update_sort.
  rewrite forallb_forall in Hfa, Hfi.
  apply existsb_exists in Hhit. destruct Hhit as (r & Hr & Hra).
  apply mem_In in Hra.
  destruct (Z.ltb_spec 0 (length array)) as [Hpos|Hpos].
  2:{ destruct array; [destruct Hra|]. unfold length in Hpos. simpl in Hpos. lia. }
  destruct (indexOfElements_spec array to_remove Hs Hlen)
    as (indexes & -> & Hrange & Hsound & Hcompl & _).
  simpl. destruct (flag_loop_spec indexes array Hrange)
    as (array1 & -> & Hl1 & Hn1).
  simpl. eexists. split; [reflexivity|].
  set (array3 := sort cmp (array1 ++ to_insert)).
  assert (Hperm : forall e, In e array3 <-> In e array1 \/ In e to_insert).
  { intros e. rewrite <- in_app_iff. split; apply Permutation_in;
      [apply Permutation_sym|]; apply sort_perm. }
  assert (Hs3 : StronglySorted le array3) by apply sort_num_sorted.
  assert (Hnd : NoDup array) by now apply sorted_NoDup.
  assert (Hinf : In Infinity array3).
  { apply Hperm. left. destruct (Hcompl r Hr Hra) as (i & Hi & Hni).
    apply (nth_error_In _ (Z.to_nat i)). apply Hn1. left.
    rewrite Forall_forall in Hrange. specialize (Hrange i Hi).
    rewrite Z2Nat.id by lia. tauto. }
  assert (Hkeep : forall e, In e array1 /\ e <> Infinity <->
                            In e array /\ ~ In e to_remove).
  { intros e. split.
    - intros [Hin Hne]. apply In_nth_error in Hin. destruct Hin as [j Hj].
      apply Hn1 in Hj. destruct Hj as [[_ ->]|[Hno Hj]]; [congruence|].
      split; [eapply nth_error_In; eassumption|].
      intros Her. destruct (Hcompl e Her) as (i & Hi & Hni).
      { eapply nth_error_In; eassumption. }
      rewrite Forall_forall in Hrange. specialize (Hrange i Hi).
      unfold length in Hrange.
      assert (Z.to_nat i = j).
      { rewrite NoDup_nth_error in Hnd. apply Hnd; [lia|congruence]. }
      apply Hno. subst j. now rewrite Z2Nat.id by lia.
    - intros [Hin Hno]. split.
      + apply In_nth_error in Hin. destruct Hin as [j Hj].
        apply (nth_error_In _ j). apply Hn1. right. split; [|exact Hj].
        intros Hi. destruct (Hsound _ Hi) as (x & Hx & Hnx).
        rewrite Nat2Z.id, Hj in Hnx. inversion Hnx; subst. contradiction.
      + intros ->. specialize (Hfa _ Hin). discriminate. }
  destruct (indexOf_from_split array3 Infinity 0 Hinf)
    as (l1 & l2 & E3 & Hnot & Hidx).
  unfold Js.indexOf. rewrite Hidx, E3. simpl (0 + _).
  rewrite (splice_truncate l1 (Infinity :: l2)).
  rewrite E3 in Hs3. apply StronglySorted_app in Hs3.
  destruct Hs3 as (Hs1 & Hs2 & _).
  apply StronglySorted_inv in Hs2. destruct Hs2 as [_ Hall].
  rewrite Forall_forall in Hall.
  split; [now apply unique_from_sorted|].
  intros e. unfold _unique. rewrite unique_from_In.
  assert (Hl1e : In e l1 <-> In e array3 /\ e <> Infinity).
  { rewrite E3, in_app_iff. simpl. split.
    - intros H. split; [tauto|]. intros ->. contradiction.
    - intros [[H|[H|H]] Hne]; [exact H|congruence|].
      apply Hall, le_Infinity in H. contradiction. }
  rewrite Hl1e, Hperm, <- Hkeep. split.
  - intros [[[H|H] Hne] _]; tauto.
  - intros [[H Hne]|H]; [tauto|]. split; [|tauto]. split; [tauto|].
    intros ->. specialize (Hfi _ H). discriminate.
Qed.

(** C1 (as amended).  On a sorted array without duplicates, [update] with
    a batch in scope leaves a sorted array without duplicates that holds
    exactly the elements of [(prev \ to_remove) ∪ to_insert]: insertions
    of present or repeated elements and removals of absent elements are
    ignored, and an element of both lists ends up stored. *)
Theorem update_set_semantics (array to_remove to_insert : list num) :
  is_sorted array = true ->
  length array + length to_insert < 2 ^ 31 ->
  update_in_scope array to_remove to_insert = true ->
  exists array', update array to_remove to_insert = Some array' /\
    is_sorted array' = true /\
    forall x, In x array' <->
      (In x array /\ ~ In x to_remove) \/ In x to_insert.
Proof.
  intros Hs Hlen Hscope. unfold update, update_in_scope in *.
  destruct (Z.eqb_spec (length to_remove + length to_insert) 0) as [E|E].
  - exists array. split; [reflexivity|]. split; [exact Hs|].
    assert (to_remove = [] /\ to_insert = []) as [-> ->].
    { unfold length in E. destruct to_remove, to_insert; simpl in E;
        try lia. now split. }
    intros x. simpl. tauto.
  - simpl in Hscope. apply is_sorted_StronglySorted in Hs.
    destruct (resolve_approach _ _).
    + apply no_repeat_NoDup in Hscope.
      destruct (_update_splice_spec array to_remove to_insert Hs Hscope Hlen)
        as (array' & -> & Hs' & Hmem).
      exists array'. split; [reflexivity|].
      split; [now apply is_sorted_StronglySorted|exact Hmem].
    + rewrite !andb_true_iff in Hscope. destruct Hscope as [[H1 H2] H3].
      destruct (_update_sort_spec array to_remove to_insert Hs) as
        (array' & -> & Hs' & Hmem); try assumption.
      { unfold length in *. lia. }
      exists array'. split; [reflexivity|].
      split; [now apply is_sorted_StronglySorted|exact Hmem].
Qed.

Lemma update_set_semantics_witness :
  exists array',
    update [Fin 3; Fin 5; Fin 7] [Fin 5; Fin 4] [Fin 6; Fin 6; Fin 1; Fin 7]
      = Some array' /\
    is_sorted array' = true /\
    forall x, In x array' <->
      (In x [Fin 3; Fin 5; Fin 7] /\ ~ In x [Fin 5; Fin 4])
      \/ In x [Fin 6; Fin 6; Fin 1; Fin 7].
Proof.
  apply (update_set_semantics [Fin 3; Fin 5; Fin 7] [Fin 5; Fin 4]
           [Fin 6; Fin 6; Fin 1; Fin 7]).
  - reflexivity.
  - vm_compute. reflexivity.
  - reflexivity.
Defined.

(** C1 (as stated) fails: an element that is both removed and inserted is
    stored afterwards, whereas [(prev ∪ to_insert) \ to_remove] leaves it
    out. *)
Lemma update_not_union_minus :
  ~ (forall array to_remove to_insert array' : list num,
       is_sorted array = true ->
       update array to_remove to_insert = Some array' ->
       forall x, In x array' <->
         (In x array \/ In x to_insert) /\ ~ In x to_remove).
Proof.
  intros H.
  specialize (H [Fin 1] [Fin 2] [Fin 2] [Fin 1; Fin 2] eq_refl eq_refl (Fin 2)).
  destruct H as [H _]. destruct H as [_ H]; [simpl; auto|].
  apply H. simpl. auto.
Qed.

(** The sort strategy without a removal that hits: [indexOf(Infinity)] is
    [-1], and [splice(-1, length)] drops the largest element.  This is the
    strategy chosen for every batch applied to an empty array. *)
Lemma update_into_empty_drops_maximum (to_insert : list num) :
  forallb is_finite to_insert = true ->
  update [] [] to_insert = Some (_unique (removelast (sort cmp to_insert))).
Proof.
  intros Hfin. destruct to_insert as [|x l]; [reflexivity|].
  unfold update, length. simpl List.length.
  destruct (Z.eqb_spec (0 + Z.of_nat (S (List.length l))) 0); [lia|].
  change (resolve_approach (Z.of_nat 0) (0 + Z.of_nat (S (List.length l))))
    with sort_approach.
  unfold _update_sort. change (0 <? length []) with false. cbn [bind app].
  set (sorted := sort cmp (x :: l)).
  assert (Hperm : Permutation (x :: l) sorted) by apply sort_perm.
  assert (Hnot : ~ In Infinity sorted).
  { intros Hin. apply (Permutation_in _ (Permutation_sym Hperm)) in Hin.
    rewrite forallb_forall in Hfin. specialize (Hfin _ Hin). discriminate. }
  unfold Js.indexOf. rewrite (indexOf_from_absent _ _ _ Hnot).
  assert (Hne : sorted <> []).
  { intros E. rewrite E in Hperm. apply Permutation_sym in Hperm.
    now apply Permutation_nil in Hperm. }
  rewrite (app_removelast_last Infinity Hne) at 1 2.
  now rewrite splice_minus_one.
Qed.

Example update_into_empty_single : update [] [] [Fin 1] = Some [].
Proof. reflexivity. Qed.

(** C6 (as amended).  On a sorted array without duplicates,
    [binaryIndexOf] answers the negated insertion index [-i] (that is,
    [~(i - 1)]) for an absent element, and [isFound] tells a present
    element from an absent one for every answer, [0] included. *)
Theorem binaryIndexOf_negated_insertion_index (array : list num) (x : num) :
  is_sorted array = true -> length array < 2 ^ 31 ->
  exists r, binaryIndexOf array x = Some r /\
    (mem x array = false ->
       r = - insertion_index array x
       /\ r = bitnot (insertion_index array x - 1)) /\
    isFound array r x = mem x array.
Proof.
  intros Hs Hlen. apply is_sorted_StronglySorted in Hs.
  destruct (binaryIndexOf_spec array x Hs Hlen) as (r & Hr & Hcase).
  exists r. split; [exact Hr|].
  destruct Hcase as [(Hin & Hb & Hn)|(Hnot & -> & Hb & _)].
  - assert (Hm : mem x array = true) by now apply mem_In.
    rewrite Hm. split; [discriminate|].
    apply isFound_present; [lia|exact Hn].
  - assert (Hm : mem x array = false) by now apply mem_not_In.
    rewrite Hm. split.
    + intros _. split; [reflexivity|]. rewrite bitnot_small; lia.
    + apply isFound_absent; [lia|exact Hnot].
Qed.

Lemma binaryIndexOf_negated_insertion_index_witness :
  exists r, binaryIndexOf [Fin 10; Fin 20; Fin 30] (Fin 25) = Some r /\
    (mem (Fin 25) [Fin 10; Fin 20; Fin 30] = false ->
       r = - insertion_index [Fin 10; Fin 20; Fin 30] (Fin 25)
       /\ r = bitnot (insertion_index [Fin 10; Fin 20; Fin 30] (Fin 25) - 1)) /\
    isFound [Fin 10; Fin 20; Fin 30] r (Fin 25)
    = mem (Fin 25) [Fin 10; Fin 20; Fin 30].
Proof.
  apply (binaryIndexOf_negated_insertion_index
           [Fin 10; Fin 20; Fin 30] (Fin 25)).
  - reflexivity.
  - vm_compute. reflexivity.
Defined.

(** C6 (as stated) fails: for [20] absent from [[10]] the insertion index
    is [1] and its complement [~1 = -2], but the answer is [-1]. *)
Lemma binaryIndexOf_not_complement :
  ~ (forall (array : list num) (x : num),
       is_sorted array = true -> mem x array = false ->
       binaryIndexOf array x = Some (bitnot (insertion_index array x))).
Proof.
  intros H. specialize (H [Fin 10] (Fin 20) eq_refl eq_refl).
  vm_compute in H. discriminate.
Qed.

(** C8.  [update(R, I)] followed by [update([], [])] stores the same array
    as [update(R, I)] alone. *)
Theorem update_then_empty_update (array to_remove to_insert : list num) :
  (array' <- update array to_remove to_insert ;; update array' [] [])
  = update array to_remove to_insert.
Proof.
  destruct (update array to_remove to_insert) as [array'|]; reflexivity.
Qed.

End BinarySearchFacts.

(** ** Maps *)

Module JsMapFacts.
Import JsMap.

Section MapFacts.
Context {K V : Type} `{KeyEq K}.

Lemma key_eqb_refl (k : K) : key_eqb k k = true.
Proof. now apply key_eqb_eq. Qed.

Lemma key_eqb_neq (a b : K) : key_eqb a b = false <-> a <> b.
Proof.
  rewrite <- key_eqb_eq. destruct (key_eqb a b); split; congruence.
Qed.

Lemma key_eq_dec (a b : K) : {a = b} + {a <> b}.
Proof.
  destruct (key_eqb a b) eqn:E.
  - left. now apply key_eqb_eq.
  - right. now apply key_eqb_neq.
Qed.

Lemma key_mem_In (k : K) (l : list K) : existsb (key_eqb k) l = true <-> In k l.
Proof.
  rewrite existsb_exists. split.
  - intros (y & Hy & E). apply key_eqb_eq in E. now subst.
  - intros Hin. exists k. split; [exact Hin|apply key_eqb_refl].
Qed.

Lemma distinct_NoDup (l : list K) : distinct l = true <-> NoDup l.
Proof.
  induction l as [|k l IH]; simpl.
  - split; [constructor|reflexivity].
  - rewrite andb_true_iff, negb_true_iff, IH. split.
    + intros [H1 H2]. constructor; [|exact H2].
      rewrite <- key_mem_In. congruence.
    + intros Hn. inversion Hn; subst. split; [|assumption].
      destruct (existsb (key_eqb k) l) eqn:E; [|reflexivity].
      apply key_mem_In in E. contradiction.
Qed.

Lemma has_get (m : JsMap.t K V) (k : K) :
  has m k = match get m k with Some _ => true | None => false end.
Proof.
  induction m as [|[k' v] m IH]; [reflexivity|].
  simpl. destruct (key_eqb k' k); [reflexivity|exact IH].
Qed.

Lemma has_In (m : JsMap.t K V) (k : K) : has m k = true <-> In k (keys m).
Proof.
  unfold has, keys. rewrite existsb_exists, in_map_iff. split.
  - intros (e & He & E). apply key_eqb_eq in E. now exists e.
  - intros (e & E & He). exists e. split; [exact He|].
    rewrite E. apply key_eqb_refl.
Qed.

Lemma get_In (m : JsMap.t K V) (k : K) (v : V) :
  get m k = Some v -> In (k, v) m.
Proof.
  induction m as [|[k' v'] m IH]; [discriminate|]. simpl.
  destruct (key_eqb k' k) eqn:E.
  - intros E'. inversion E'; subst. apply key_eqb_eq in E. subst. now left.
  - intros E'. right. now apply IH.
Qed.

Lemma In_get (m : JsMap.t K V) (k : K) (v : V) :
  wf m = true -> In (k, v) m -> get m k = Some v.
Proof.
  unfold wf. rewrite distinct_NoDup.
  induction m as [|[k' v'] m IH]; intros Hnd Hin; [destruct Hin|].
  simpl in *. inversion Hnd; subst. destruct Hin as [E|Hin].
  - inversion E; subst. now rewrite key_eqb_refl.
  - destruct (key_eqb k' k) eqn:E.
    + apply key_eqb_eq in E. subst. exfalso. apply H2.
      change k with (fst (k, v)). now apply in_map.
    + now apply IH.
Qed.

Lemma get_set (m : JsMap.t K V) (k k' : K) (v : V) :
  get (set m k v) k' = if key_eqb k k' then Some v else get m k'.
Proof.
  induction m as [|[k0 v0] m IH]; simpl.
  - reflexivity.
  - destruct (key_eqb k0 k) eqn:E0; simpl.
    + apply key_eqb_eq in E0. subst k0.
      destruct (key_eqb k k'); reflexivity.
    + destruct (key_eqb k0 k') eqn:E1; [|exact IH].
      apply key_eqb_eq in E1. subst k0. now rewrite (proj2 (key_eqb_neq k k')) by
        (apply key_eqb_neq in E0; congruence).
Qed.

Lemma get_delete (m : JsMap.t K V) (k k' : K) :
  get (delete m k) k' = if key_eqb k k' then None else get m k'.
Proof.
  induction m as [|[k0 v0] m IH]; simpl.
  - now destruct (key_eqb k k').
  - destruct (key_eqb k0 k) eqn:E0; simpl.
    + apply key_eqb_eq in E0. subst k0. rewrite IH.
      now destruct (key_eqb k k').
    + destruct (key_eqb k0 k') eqn:E1; [|exact IH].
      apply key_eqb_eq in E1. subst k0.
      now rewrite (proj2 (key_eqb_neq k k')) by
        (apply key_eqb_neq in E0; congruence).
Qed.

Lemma has_set (m : JsMap.t K V) (k k' : K) (v : V) :
  has (set m k v) k' = key_eqb k k' || has m k'.
Proof.
  rewrite !has_get, get_set. now destruct (key_eqb k k').
Qed.

Lemma has_delete (m : JsMap.t K V) (k k' : K) :
  has (delete m k) k' = negb (key_eqb k k') && has m k'.
Proof.
  rewrite !has_get, get_delete. now destruct (key_eqb k k').
Qed.

(** Filtering the entries of a map on their keys. *)
Lemma get_filter (g : K -> bool) (m : JsMap.t K V) (k : K) :
  get (filter (fun e => g (fst e)) m) k = if g k then get m k else None.
Proof.
  induction m as [|[k0 v0] m IH]; simpl.
  - now destruct (g k).
  - destruct (g k0) eqn:G; simpl.
    + destruct (key_eqb k0 k) eqn:E; [|exact IH].
      apply key_eqb_eq in E. subst. now rewrite G.
    + destruct (key_eqb k0 k) eqn:E; [|exact IH].
      apply key_eqb_eq in E. subst. rewrite IH. now rewrite G.
Qed.

Lemma wf_filter (f : K * V -> bool) (m : JsMap.t K V) :
  wf m = true -> wf (filter f m) = true.
Proof.
  unfold wf. rewrite !distinct_NoDup.
  induction m as [|e m IH]; intros Hnd; [constructor|].
  simpl in *. inversion Hnd; subst. destruct (f e); simpl.
  - constructor; [|now apply IH]. intros Hin. apply H2.
    unfold keys in *. rewrite in_map_iff in *.
    destruct Hin as (e' & E & He'). apply filter_In in He'.
    exists e'. tauto.
  - now apply IH.
Qed.

Lemma set_fresh (m : JsMap.t K V) (k : K) (v : V) :
  ~ In k (keys m) -> set m k v = m ++ [(k, v)].
Proof.
  induction m as [|[k0 v0] m IH]; intros Hnot; [reflexivity|].
  simpl in *. destruct (key_eqb k0 k) eqn:E.
  - apply key_eqb_eq in E. tauto.
  - rewrite IH by tauto. reflexivity.
Qed.

Lemma fold_set_fresh (entries : list (K * V)) :
  forall m : JsMap.t K V,
    NoDup (keys (m ++ entries)) ->
    fold_left (fun m e => set m (fst e) (snd e)) entries m = m ++ entries.
Proof.
  induction entries as [|[k v] entries IH]; intros m Hnd; simpl.
  - now rewrite app_nil_r.
  - rewrite set_fresh.
    + rewrite IH; rewrite <- app_assoc; [reflexivity|exact Hnd].
    + unfold keys in *. rewrite map_app in Hnd. simpl in Hnd.
      apply NoDup_remove_2 in Hnd. intros Hin. apply Hnd.
      apply in_or_app. now left.
Qed.

(** [new Map(entries)] of entries with pairwise distinct keys holds these
    entries, in their order. *)
Lemma from_entries_wf (entries : list (K * V)) :
  wf entries = true -> from_entries entries = entries.
Proof.
  intros Hwf. unfold from_entries, empty.
  rewrite fold_set_fresh; [reflexivity|]. now apply distinct_NoDup.
Qed.

Lemma keys_set (m : JsMap.t K V) (k : K) (v : V) :
  keys (set m k v) = if has m k then keys m else keys m ++ [k].
Proof.
  induction m as [|[k0 v0] m IH]; [reflexivity|].
  simpl. destruct (key_eqb k0 k) eqn:E; simpl; [reflexivity|].
  rewrite IH. unfold has. now destruct (existsb _ m).
Qed.

Lemma wf_set (m : JsMap.t K V) (k : K) (v : V) :
  wf m = true -> wf (set m k v) = true.
Proof.
  unfold wf. rewrite keys_set. destruct (has m k) eqn:E; [easy|].
  rewrite !distinct_NoDup. intros Hnd.
  apply NoDup_app; [exact Hnd|repeat constructor; easy|].
  intros a Ha [<-|[]]. apply has_In in Ha. congruence.
Qed.

Lemma wf_from_entries (entries : list (K * V)) :
  wf (from_entries entries) = true.
Proof.
  unfold from_entries.
  assert (Hgen : forall m : JsMap.t K V, wf m = true ->
            wf (fold_left (fun m e => set m (fst e) (snd e)) entries m) = true).
  { induction entries as [|e entries IH]; intros m Hm; [exact Hm|].
    simpl. apply IH. now apply wf_set. }
  now apply Hgen.
Qed.

Lemma wf_delete (m : JsMap.t K V) (k : K) :
  wf m = true -> wf (delete m k) = true.
Proof. apply wf_filter. Qed.

Lemma values_In (m : JsMap.t K V) (v : V) :
  wf m = true -> (In v (values m) <-> exists k, get m k = Some v).
Proof.
  intros Hwf. unfold values. rewrite in_map_iff. split.
  - intros ([k v'] & E & Hin). simpl in E. subst v'.
    exists k. now apply In_get.
  - intros (k & Hg). exists (k, v). split; [reflexivity|now apply get_In].
Qed.

Lemma In_set (m : JsMap.t K V) (k : K) (v : V) (e : K * V) :
  In e (set m k v) -> e = (k, v) \/ In e m.
Proof.
  induction m as [|[k0 v0] m IH]; simpl.
  - intros [<-|[]]. now left.
  - destruct (key_eqb k0 k) eqn:E; simpl.
    + apply key_eqb_eq in E. subst. intros [<-|Hin]; auto.
    + intros [<-|Hin]; auto. destruct (IH Hin); auto.
Qed.

(** Every entry of [new Map(entries)] is one of [entries]. *)
Lemma In_from_entries (entries : list (K * V)) (e : K * V) :
  In e (from_entries entries) -> In e entries.
Proof.
  unfold from_entries.
  assert (Hgen : forall m : JsMap.t K V,
            In e (fold_left (fun m e => set m (fst e) (snd e)) entries m) ->
            In e m \/ In e entries).
  { induction entries as [|[k v] entries IH]; intros m Hin; [now left|].
    simpl in Hin. destruct (IH _ Hin) as [H1|H1]; [|right; now right].
    destruct (In_set _ _ _ _ H1) as [->|H2]; [right; now left|now left]. }
  intros Hin. destruct (Hgen _ Hin) as [[]|Hin']. exact Hin'.
Qed.

End MapFacts.

End JsMapFacts.

(** ** Map difference and intersection *)

Module UtilFacts.
Import JsMap JsMapFacts Util.

Section MapsFacts.
Context {K V : Type} `{KeyEq K}.

Lemma size_zero (m : JsMap.t K V) : size m = 0 -> m = [].
Proof. unfold size. destruct m; simpl; [reflexivity|lia]. Qed.

Lemma map_difference_wf (a b : JsMap.t K V) :
  wf a = true ->
  map_difference a b =
  if size b =? 0 then a else filter (fun e => negb (has b (fst e))) a.
Proof.
  intros Ha. unfold map_difference.
  destruct (Z.eqb_spec (size a) 0) as [E|E].
  - apply size_zero in E. subst. now destruct (size b =? 0).
  - destruct (size b =? 0); [reflexivity|].
    apply from_entries_wf. now apply wf_filter.
Qed.

Lemma get_map_difference (a b : JsMap.t K V) (k : K) :
  wf a = true ->
  get (map_difference a b) k = if has b k then None else get a k.
Proof.
  intros Ha. rewrite map_difference_wf by exact Ha.
  destruct (Z.eqb_spec (size b) 0) as [E|E].
  - apply size_zero in E. subst. reflexivity.
  - rewrite (get_filter (fun k => negb (has b k))). now destruct (has b k).
Qed.

Lemma get_map_intersect (a b : JsMap.t K V) (k : K) :
  wf a = true -> wf b = true ->
  get (map_intersect a b) k =
  if size a <=? size b
  then (if has b k then get a k else None)
  else (if has a k then get b k else None).
Proof.
  assert (Hgen : forall a b : JsMap.t K V, wf a = true ->
            get (if size a =? 0 then empty
                 else from_entries (filter (fun e => has b (fst e)) a)) k
            = if has b k then get a k else None).
  { intros a0 b0 Ha0. destruct (Z.eqb_spec (size a0) 0) as [E|E].
    - apply size_zero in E. subst. now destruct (has b0 k).
    - rewrite from_entries_wf by now apply wf_filter.
      apply (get_filter (fun k => has b0 k)). }
  intros Ha Hb. unfold map_intersect.
  destruct (size a <=? size b); now apply Hgen.
Qed.

(** C10.  [map_difference(a, b)] binds exactly the keys of [a] that [b]
    lacks, to the values of [a]; [map_intersect(a, b)] binds exactly the
    keys of both, to the values of the smaller map ([a] when the sizes are
    equal). *)
Theorem map_difference_intersect_contents (a b : JsMap.t K V) (k : K) :
  wf a = true -> wf b = true ->
  get (map_difference a b) k = (if has b k then None else get a k) /\
  has (map_intersect a b) k = has a k && has b k /\
  get (map_intersect a b) k =
    (if has a k && has b k
     then (if size a <=? size b then get a k else get b k)
     else None).
Proof.
  intros Ha Hb. split; [now apply get_map_difference|].
  rewrite has_get, get_map_intersect by assumption.
  rewrite (has_get a k), (has_get b k).
  destruct (size a <=? size b), (get a k), (get b k); auto.
Qed.

Lemma wf_map_difference (a b : JsMap.t K V) :
  wf a = true -> wf (map_difference a b) = true.
Proof.
  intros Ha. rewrite map_difference_wf by exact Ha.
  destruct (size b =? 0); [exact Ha|now apply wf_filter].
Qed.

Lemma wf_map_intersect (a b : JsMap.t K V) :
  wf (map_intersect a b) = true.
Proof.
  unfold map_intersect. destruct (size a <=? size b).
  - destruct (size a =? 0); [reflexivity|apply wf_from_entries].
  - destruct (size b =? 0); [reflexivity|apply wf_from_entries].
Qed.

End MapsFacts.

End UtilFacts.

Import Sample.

Lemma map_difference_intersect_contents_witness :
  let a : JsMap.t nat Z := [(1%nat, 10); (2%nat, 20)] in
  let b : JsMap.t nat Z := [(2%nat, 21); (3%nat, 31); (4%nat, 41)] in
  JsMap.get (Util.map_difference a b) 2%nat
    = (if JsMap.has b 2%nat then None else JsMap.get a 2%nat) /\
  JsMap.has (Util.map_intersect a b) 2%nat
    = JsMap.has a 2%nat && JsMap.has b 2%nat /\
  JsMap.get (Util.map_intersect a b) 2%nat =
    (if JsMap.has a 2%nat && JsMap.has b 2%nat
     then (if JsMap.size a <=? JsMap.size b
           then JsMap.get a 2%nat else JsMap.get b 2%nat)
     else None).
Proof.
  intros a b.
  apply (UtilFacts.map_difference_intersect_contents a b 2%nat);
    reflexivity.
Defined.

(** ** The single sequencer *)

Module SingleSequencerFacts.
Import JsMap JsMapFacts Util UtilFacts Sequencing SingleSequencer.
Import SequencingSpec.

Section SingleFacts.
Context {C : Collaborators}.






(** A noop item ends [_get_events_from_axis_events] with [undefined],
    whatever was collected and whatever follows. *)
Lemma axis_events_loop_noop (this : t) (first : bool) (position : Position)
  (items : list AxisItem) :
  existsb (fun item => isNoop (it_delta item)) items = true ->
  forall exitEvents changeEvents enterEvents,
    axis_events_loop this first position items
      exitEvents changeEvents enterEvents = None.
Proof.
  induction items as [|item items IH]; intros Hex ex ch en; [discriminate|].
  simpl in *. destruct (isNoop (it_delta item)); [reflexivity|].
  simpl in Hex.
  repeat match goal with |- context [if ?b then _ else _] => destruct b end;
    now apply IH.
Qed.

Lemma has_first (m : JsMap.t Key Cue) (k : Key) :
  (if size m =? 0 then false else has m k) = has m k.
Proof.
  destruct (Z.eqb_spec (size m) 0) as [E|E]; [|reflexivity].
  apply size_zero in E. now subst.
Qed.

(** Without noop items, [_get_events_from_axis_events] classifies every
    item: [(true, false)] exit, [(false, true)] enter, [(true, true)]
    change, [(false, false)] dropped. *)
Lemma axis_events_loop_classifies (this : t) (position : Position)
  (items : list AxisItem) :
  existsb (fun item => isNoop (it_delta item)) items = false ->
  forall exitEvents changeEvents enterEvents,
    axis_events_loop this (size (_activeCues this) =? 0) position items
      exitEvents changeEvents enterEvents =
    Some (exitEvents
            ++ map (fun item => exit_event (it_key item) (it_old item))
                 (filter (is_exit this position) items),
          changeEvents
            ++ map (fun item =>
                      change_event (it_key item) (it_new item) (it_old item))
                 (filter (is_change this position) items),
          enterEvents
            ++ map (fun item => enter_event (it_key item) (it_new item))
                 (filter (is_enter this position) items)).
Proof.
  induction items as [|item items IH]; intros Hex ex ch en.
  - simpl. now rewrite !app_nil_r.
  - simpl in Hex. apply orb_false_iff in Hex. destruct Hex as [Hn Hex].
    simpl. rewrite Hn, has_first.
    unfold is_exit, is_change, is_enter, should_be_active.
    destruct (has (_activeCues this) (it_key item));
      destruct (match it_new item with
                | Some new => covers_endpoint (cue_interval new) position
                | None => false
                end); simpl; rewrite (IH Hex); rewrite <- ?app_assoc;
      reflexivity.
Qed.

(** C2 on the code as written: with the identifier [to] unbound, every
    timing change ends in a [ReferenceError], before the active cues are
    recomputed or any event is sent. *)
Theorem timing_change_throws (this : t) (eInfo_init : bool) :
  _onTimingCallback None this eInfo_init = Throw (ReferenceError "to").
Proof. reflexivity. Qed.

Lemma In_map_values (f : Cue -> Event) (m : JsMap.t Key Cue) (e : Event) :
  wf m = true ->
  (In e (map f (values m)) <-> exists k cue, get m k = Some cue /\ e = f cue).
Proof.
  intros Hwf. rewrite in_map_iff. split.
  - intros (cue & <- & Hin). apply values_In in Hin; [|exact Hwf].
    destruct Hin as [k Hk]. now exists k, cue.
  - intros (k & cue & Hk & ->). exists cue. split; [reflexivity|].
    apply values_In; [exact Hwf|]. now exists k.
Qed.

(** With the identifier [to] bound to a timing object, a timing change
    with a position change or a stop replaces the active cues by the cues
    the axis returns for the new position, and sends exit events for the
    keys that are no longer there and enter events for the new keys, and
    nothing else. *)
Lemma _onTimingCallback_bound (to : TimingObject) (this : t)
  (eInfo_init : bool) :
  let new_vector :=
    if eInfo_init then calculateVector (vector to) (now (clock to))
    else vector to in
  let delta := MotionDelta (old_vector to) new_vector in
  let p := position new_vector in
  let covering := cue_map (lookup (_axis this) (Interval_new p p true true)) in
  PosDelta_eqb (fst delta) PosDelta_CHANGE
  || MoveDelta_eqb (snd delta) MoveDelta_STOP = true ->
  wf (_activeCues this) = true ->
  exists this' events,
    _onTimingCallback (Some to) this eInfo_init
      = Normal (this', notify events) /\
    _activeCues this' = covering /\
    _sched this' = setVector (_sched this) new_vector /\
    (forall e, In e events <->
       (exists k cue, get (_activeCues this) k = Some cue
                      /\ has covering k = false
                      /\ e = exit_event (cue_key cue) (Some cue))
       \/ (exists k cue, get covering k = Some cue
                         /\ has (_activeCues this) k = false
                         /\ e = enter_event (cue_key cue) (Some cue))) /\
    (forall e, In e events -> ev_new e = None \/ ev_old e = None).
Proof.
  intros new_vector delta p covering Hjump Hwf.
  assert (Hwc : wf covering = true) by apply wf_from_entries.
  unfold _onTimingCallback. fold new_vector. fold delta. rewrite Hjump.
  fold p. fold covering. cbv zeta.
  eexists. eexists. split; [reflexivity|].
  split; [reflexivity|]. split; [reflexivity|].
  assert (Hchar : forall e,
    In e (map (fun cue => exit_event (cue_key cue) (Some cue))
            (values (map_difference (_activeCues this) covering))
          ++ map (fun cue => enter_event (cue_key cue) (Some cue))
               (values (map_difference covering (_activeCues this)))) <->
    (exists k cue, get (_activeCues this) k = Some cue
                   /\ has covering k = false
                   /\ e = exit_event (cue_key cue) (Some cue))
    \/ (exists k cue, get covering k = Some cue
                      /\ has (_activeCues this) k = false
                      /\ e = enter_event (cue_key cue) (Some cue))).
  { intros e. rewrite in_app_iff.
    rewrite !In_map_values by (apply wf_map_difference; assumption).
    split.
    - intros [(k & cue & Hk & ->)|(k & cue & Hk & ->)]; [left|right];
        exists k, cue; rewrite get_map_difference in Hk by assumption.
      + destruct (has covering k); [discriminate|]. auto.
      + destruct (has (_activeCues this) k); [discriminate|]. auto.
    - intros [(k & cue & Hg & Hh & ->)|(k & cue & Hg & Hh & ->)];
        [left|right]; exists k, cue; (split; [|reflexivity]);
        rewrite get_map_difference by assumption; now rewrite Hh. }
  split; [exact Hchar|].
  intros e He. apply Hchar in He.
  destruct He as [(k & cue & _ & _ & ->)|(k & cue & _ & _ & ->)];
    [left|right]; reflexivity.
Qed.

(** A timing change without position change or stop only rearms the
    schedule. *)
Lemma _onTimingCallback_bound_steady (to : TimingObject) (this : t)
  (eInfo_init : bool) :
  let new_vector :=
    if eInfo_init then calculateVector (vector to) (now (clock to))
    else vector to in
  let delta := MotionDelta (old_vector to) new_vector in
  PosDelta_eqb (fst delta) PosDelta_CHANGE
  || MoveDelta_eqb (snd delta) MoveDelta_STOP = false ->
  _onTimingCallback (Some to) this eInfo_init
  = Normal (with_sched this (setVector (_sched this) new_vector), []).
Proof.
  intros new_vector delta Hsteady. unfold _onTimingCallback.
  fold new_vector. fold delta. now rewrite Hsteady.
Qed.

(** *** Agreement of the three strategies of the axis callback *)

Section Agreement.
Variables (this : t) (eventMap : JsMap.t Key AxisItem) (position : Position).
Hypothesis Hcons : consistent this eventMap position.
Hypothesis Hnoop :
  existsb (fun item => isNoop (it_delta item)) (values eventMap) = false.

Let active : JsMap.t Key Cue := _activeCues this.
Let covering : JsMap.t Key Cue :=
  cue_map (lookup (_axis this) (Interval_point position)).

Lemma covering_key (k : Key) (cue : Cue) :
  get covering k = Some cue -> cue_key cue = k.
Proof.
  intros Hg. apply get_In, In_from_entries, in_map_iff in Hg.
  destruct Hg as (c & E & _). now inversion E.
Qed.

Lemma covering_wf : wf covering = true.
Proof. apply wf_from_entries. Qed.

Lemma item_not_noop (item : AxisItem) :
  In item (values eventMap) -> isNoop (it_delta item) = false.
Proof.
  intros Hin. destruct (isNoop (it_delta item)) eqn:E; [|reflexivity].
  assert (existsb (fun item => isNoop (it_delta item)) (values eventMap) = true).
  { apply existsb_exists. now exists item. }
  congruence.
Qed.

Lemma item_keys (f : AxisItem -> bool) (k : Key) :
  In k (map it_key (filter f (values eventMap))) <->
  exists item, get eventMap k = Some item /\ f item = true.
Proof.
  destruct Hcons as (Hwe & _ & Hitem & _).
  rewrite in_map_iff. split.
  - intros (item & <- & Hin). apply filter_In in Hin. destruct Hin as [Hin Hf].
    apply values_In in Hin; [|exact Hwe]. destruct Hin as [k' Hk'].
    destruct (Hitem _ _ Hk') as [-> _]. now exists item.
  - intros (item & Hg & Hf). exists item. destruct (Hitem _ _ Hg) as [Hk _].
    split; [exact Hk|]. apply filter_In. split; [|exact Hf].
    apply values_In; [exact Hwe|]. now exists k.
Qed.

Lemma cue_keys (m : JsMap.t Key Cue) (k : Key) :
  wf m = true ->
  (forall k' cue, get m k' = Some cue -> cue_key cue = k') ->
  (In k (map cue_key (values m)) <-> has m k = true).
Proof.
  intros Hwf Hkey. rewrite in_map_iff, has_get. split.
  - intros (cue & <- & Hin). apply values_In in Hin; [|exact Hwf].
    destruct Hin as [k' Hk']. rewrite (Hkey _ _ Hk'). now rewrite Hk'.
  - destruct (get m k) as [cue|] eqn:Hg; [|discriminate]. intros _.
    exists cue. split; [now apply Hkey|].
    apply values_In; [exact Hwf|]. now exists k.
Qed.

Lemma difference_key (a b : JsMap.t Key Cue) :
  wf a = true ->
  (forall k cue, get a k = Some cue -> cue_key cue = k) ->
  forall k, In k (map cue_key (values (map_difference a b))) <->
            has a k && negb (has b k) = true.
Proof.
  intros Hwf Hkey k. rewrite cue_keys.
  - rewrite has_get, get_map_difference by exact Hwf. rewrite (has_get a k).
    destruct (has b k), (get a k); simpl; tauto.
  - now apply wf_map_difference.
  - intros k' cue. rewrite get_map_difference by exact Hwf.
    destruct (has b k'); [discriminate|]. apply Hkey.
Qed.

Lemma remain_get (k : Key) (cue : Cue) :
  get (map_intersect active covering) k = Some cue ->
  cue_key cue = k /\ has active k = true /\ has covering k = true.
Proof.
  destruct Hcons as (_ & Hwa & _ & Hact & _). fold active in Hwa, Hact.
  rewrite get_map_intersect by (exact Hwa || exact covering_wf).
  rewrite (has_get active k), (has_get covering k).
  destruct (size active <=? size covering);
    destruct (get active k) as [ca|] eqn:Ea;
    destruct (get covering k) as [cc|] eqn:Ec;
    try discriminate; intros E; inversion E; subst;
    (split; [|now split]).
  - now apply Hact.
  - now apply covering_key.
Qed.

Lemma remain_has (k : Key) :
  has (map_intersect active covering) k = has active k && has covering k.
Proof.
  destruct Hcons as (_ & Hwa & _). fold active in Hwa.
  rewrite has_get, get_map_intersect by (exact Hwa || exact covering_wf).
  rewrite (has_get active k), (has_get covering k).
  destruct (size active <=? size covering), (get active k), (get covering k);
    reflexivity.
Qed.

(** The keys of the change events of the lookup strategy, either way. *)
Lemma lookup_change_keys (approach1 : bool) (k : Key) :
  let remainCues := map_intersect active covering in
  In k (event_keys
          (if approach1 then
             flat_map (fun cue =>
               match get eventMap (cue_key cue) with
               | Some item =>
                   if negb (isNoop (it_delta item))
                   then [change_event (it_key item) (it_new item) (it_old item)]
                   else []
               | None => []
               end) (values remainCues)
           else
             flat_map (fun item =>
               match get remainCues (it_key item) with
               | Some cue =>
                   if negb (isNoop (it_delta item))
                   then [change_event (it_key item) (it_new item) (it_old item)]
                   else []
               | None => []
               end) (values eventMap))) <->
  has active k && has covering k && has eventMap k = true.
Proof.
  intros remainCues. destruct Hcons as (Hwe & Hwa & Hitem & Hact & _).
  assert (Hwr : wf remainCues = true) by apply wf_map_intersect.
  unfold event_keys. rewrite in_map_iff.
  rewrite <- remain_has. fold remainCues.
  rewrite andb_true_iff, !has_get. destruct approach1; split.
  - intros (e & <- & Hin). apply in_flat_map in Hin.
    destruct Hin as (cue & Hcue & He).
    apply values_In in Hcue; [|exact Hwr]. destruct Hcue as [k' Hk'].
    destruct (remain_get _ _ Hk') as (Hk & _ & _).
    destruct (get eventMap (cue_key cue)) as [item|] eqn:Hg; [|destruct He].
    destruct (negb (isNoop (it_delta item))); [|destruct He].
    destruct He as [<-|[]]. simpl.
    destruct (Hitem _ _ Hg) as [-> _]. subst k'.
    now rewrite Hk', Hg.
  - intros [Hr He].
    destruct (get remainCues k) as [cue|] eqn:Hgr; [|discriminate].
    destruct (get eventMap k) as [item|] eqn:Hge; [|discriminate].
    exists (change_event (it_key item) (it_new item) (it_old item)).
    split; [simpl; now apply Hitem|].
    apply in_flat_map. exists cue. split.
    + apply values_In; [exact Hwr|]. now exists k.
    + destruct (remain_get _ _ Hgr) as (-> & _ & _). rewrite Hge.
      rewrite item_not_noop; [now left|].
      apply values_In; [exact Hwe|]. eexists. eassumption.
  - intros (e & <- & Hin). apply in_flat_map in Hin.
    destruct Hin as (item & Hitm & He).
    apply values_In in Hitm; [|exact Hwe]. destruct Hitm as [k' Hk'].
    destruct (Hitem _ _ Hk') as [Hkey _].
    destruct (get remainCues (it_key item)) as [cue|] eqn:Hg; [|destruct He].
    destruct (negb (isNoop (it_delta item))); [|destruct He].
    destruct He as [<-|[]]. simpl. rewrite Hg. subst k'. now rewrite Hk'.
  - intros [Hr He].
    destruct (get remainCues k) as [cue|] eqn:Hgr; [|discriminate].
    destruct (get eventMap k) as [item|] eqn:Hge; [|discriminate].
    exists (change_event (it_key item) (it_new item) (it_old item)).
    destruct (Hitem _ _ Hge) as [Hkey _].
    split; [exact Hkey|].
    apply in_flat_map. exists item. split.
    + apply values_In; [exact Hwe|]. now exists k.
    + rewrite Hkey, Hgr. rewrite item_not_noop; [now left|].
      apply values_In; [exact Hwe|]. now exists k.
Qed.

(** The key sets of the lookup strategy. *)
Lemma lookup_keys (approach1 : bool) (k : Key) :
  let '(exitEvents, changeEvents, enterEvents) :=
    _get_events_from_axis_lookup this eventMap position approach1 in
  (In k (event_keys exitEvents) <->
     has active k && negb (has covering k) = true)
  /\ (In k (event_keys changeEvents) <->
        has active k && has covering k && has eventMap k = true)
  /\ (In k (event_keys enterEvents) <->
        negb (has active k) && has covering k = true).
Proof.
  destruct Hcons as (Hwe & Hwa & Hitem & Hact & _).
  unfold _get_events_from_axis_lookup. fold active. fold covering.
  destruct (Z.eqb_spec (size active) 0) as [E|E]; cbn [negb].
  - apply size_zero in E. rewrite E. simpl. repeat split; try easy.
    + unfold event_keys. rewrite map_map. simpl.
      rewrite cue_keys; [tauto|exact covering_wf|exact covering_key].
    + unfold event_keys. rewrite map_map. simpl.
      rewrite cue_keys; [tauto|exact covering_wf|exact covering_key].
  - split; [|split].
    + unfold event_keys. rewrite map_map. simpl.
      apply difference_key; assumption.
    + apply lookup_change_keys.
    + unfold event_keys. rewrite map_map. simpl.
      rewrite difference_key; [|exact covering_wf|exact covering_key].
      now rewrite andb_comm.
Qed.

(** The key sets of the event strategy. *)
Lemma events_keys (k : Key) :
  exists exitEvents changeEvents enterEvents,
    _get_events_from_axis_events this eventMap position
    = Some (exitEvents, changeEvents, enterEvents)
    /\ (In k (event_keys exitEvents) <->
          has active k && negb (has covering k) = true)
    /\ (In k (event_keys changeEvents) <->
          has active k && has covering k && has eventMap k = true)
    /\ (In k (event_keys enterEvents) <->
          negb (has active k) && has covering k = true).
Proof.
  destruct Hcons as (Hwe & Hwa & Hitem & Hact & Hother).
  fold covering in Hitem, Hother. fold active in Hwa, Hact, Hother.
  unfold _get_events_from_axis_events.
  rewrite axis_events_loop_classifies by exact Hnoop. simpl app.
  do 3 eexists. split; [reflexivity|].
  unfold event_keys. rewrite !map_map. simpl.
  rewrite !item_keys. unfold is_exit, is_change, is_enter. fold active.
  assert (Hcase : forall item, get eventMap k = Some item ->
            should_be_active position item = has covering k).
  { intros item Hg. now destruct (Hitem _ _ Hg) as [_ ->]. }
  assert (Hk : forall item, get eventMap k = Some item -> it_key item = k).
  { intros item Hg. now destruct (Hitem _ _ Hg). }
  rewrite (has_get eventMap k).
  destruct (get eventMap k) as [item|] eqn:Hg.
  - specialize (Hcase item eq_refl). specialize (Hk item eq_refl).
    repeat split.
    + intros (i & E & H). inversion E; subst i. now rewrite Hk, Hcase in H.
    + intros H. exists item. now rewrite Hk, Hcase.
    + intros (i & E & H). inversion E; subst i. rewrite Hk, Hcase in H.
      now rewrite H.
    + intros H. exists item. rewrite Hk, Hcase.
      now rewrite andb_true_r in H.
    + intros (i & E & H). inversion E; subst i. now rewrite Hk, Hcase in H.
    + intros H. exists item. now rewrite Hk, Hcase.
  - assert (Hsame : has covering k = has active k).
    { apply Hother. rewrite has_get, Hg. reflexivity. }
    rewrite Hsame. repeat split; try (intros (i & E & _); discriminate).
    + now destruct (has active k).
    + now rewrite andb_false_r.
    + now destruct (has active k).
Qed.

(** X29.  When the event map and the active cues fit the axis and no
    event is a noop, the event strategy and the lookup strategy (either
    way) give the same sets of exit, change and enter keys. *)
Lemma axis_strategies_agree (approach1 : bool) (k : Key) :
  exists exit1 change1 enter1,
    _get_events_from_axis_events this eventMap position
    = Some (exit1, change1, enter1)
    /\ let '(exit2, change2, enter2) :=
         _get_events_from_axis_lookup this eventMap position approach1 in
       (In k (event_keys exit1) <-> In k (event_keys exit2))
       /\ (In k (event_keys change1) <-> In k (event_keys change2))
       /\ (In k (event_keys enter1) <-> In k (event_keys enter2)).
Proof.
  destruct (events_keys k) as (ex1 & ch1 & en1 & E1 & Hx1 & Hc1 & He1).
  exists ex1, ch1, en1. split; [exact E1|].
  pose proof (lookup_keys approach1 k) as H2.
  destruct (_get_events_from_axis_lookup this eventMap position approach1)
    as [[ex2 ch2] en2].
  destruct H2 as (Hx2 & Hc2 & He2).
  rewrite Hx1, Hx2, Hc1, Hc2, He1, He2. tauto.
Qed.

End Agreement.

End SingleFacts.

(** *** Runs on the sample instance *)

Import Sample.

(** C3 on the sample: the event of key [2] has a changed interval, is not
    active and should be (its new interval covers position [5]), so it
    calls for an enter event; the noop item before it makes the function
    return [undefined] instead. *)
Theorem axis_events_undefined_after_noop :
  d_interval (it_delta
    {| it_key := 2%nat : @Key Sample.collaborators;
       it_new := Some cueB; it_old := Some cueB0;
       it_delta := {| d_interval := CHANGE; d_data := NOOP |} |}) <> NOOP
  /\ has (_activeCues sample_sequencer) 2%nat = false
  /\ covers_endpoint (cue_interval (cueB : @Cue Sample.collaborators))
       (5 : @Position Sample.collaborators) = true
  /\ _get_events_from_axis_events sample_sequencer sample_eventMap
       (5 : @Position Sample.collaborators) = None.
Proof. repeat split. discriminate. Qed.

(** C9 on the sample: both lookup strategies report the enter of key [2],
    the event strategy returns [undefined], and the callback throws when
    it destructures that result. *)
Theorem axis_strategies_disagree :
  _get_events_from_axis_events sample_sequencer sample_eventMap
    (5 : @Position Sample.collaborators) = None
  /\ _get_events_from_axis_lookup sample_sequencer sample_eventMap
       (5 : @Position Sample.collaborators) true
     = ([], [], [enter_event (2%nat : @Key Sample.collaborators) (Some cueB)])
  /\ _get_events_from_axis_lookup sample_sequencer sample_eventMap
       (5 : @Position Sample.collaborators) false
     = ([], [], [enter_event (2%nat : @Key Sample.collaborators) (Some cueB)])
  /\ _onAxisCallback sample_sequencer sample_eventMap
     = Throw (TypeError "undefined is not iterable").
Proof. repeat split. Qed.




End SingleSequencerFacts.

(** ** Readiness *)

Module ReadinessFacts.
Import JsMap Sequencing.

Section Readiness.
Context {C : Collaborators}.






(** The handlers of a single sequencer leave its timing object alone. *)
Lemma single_step_to (this : SingleSequencer.t) (i : SingleSequencer.Input) :
  SingleSequencer._to (SingleSequencer.step this i) = SingleSequencer._to this.
Proof.
  destruct i as [to init|eventMap|items]; simpl.
  - unfold SingleSequencer._onTimingCallback. destruct to as [to|]; [|reflexivity].
    destruct (_ || _); reflexivity.
  - unfold SingleSequencer._onAxisCallback.
    destruct (SingleSequencer._get_events_from_axis_events _ _ _); [|reflexivity].
    destruct (SingleSequencer._get_events_from_axis_lookup _ _ _ false)
      as [[ex ch] en]. reflexivity.
  - unfold SingleSequencer._onScheduleCallback.
    destruct (fold_left _ _ _). reflexivity.
Qed.

Lemma single_run_to (inputs : list SingleSequencer.Input) :
  forall this : SingleSequencer.t,
    SingleSequencer._to (SingleSequencer.run this inputs)
    = SingleSequencer._to this.
Proof.
  induction inputs as [|i inputs IH]; intros this; [reflexivity|].
  simpl. rewrite IH. apply single_step_to.
Qed.








End Readiness.

(** A single sequencer that is not ready becomes ready with its timing
    object. *)
Lemma single_becomes_ready :
  let unready := SingleSequencer.observe sample_sequencer waiting in
  SingleSequencer.isReady unready = false
  /\ SingleSequencer.isReady
       (SingleSequencer.live_run unready
          [(waiting, SingleSequencer.ScheduleCallback []);
           (jumped, SingleSequencer.ScheduleCallback [])]) = true.
Proof. split; reflexivity. Qed.


End ReadinessFacts.

(** ** Searches and range lookup on the sorted index *)

Module BinarySearchQueryFacts.
Import Js Spec JsFacts BinarySearch BinarySearchFacts.

(** In a sorted array, the elements that satisfy a downward closed test
    are those at the first positions. *)
Lemma prefix_filter (p : num -> bool) (l : list num) :
  StronglySorted lt l ->
  (forall a b, lt a b -> p b = true -> p a = true) ->
  forall i e, nth_error l i = Some e ->
    (p e = true <-> (i < List.length (filter p l))%nat).
Proof.
  intros Hs Hp. induction Hs as [|h t Hs IH Hf]; intros i e Hn.
  - destruct i; discriminate.
  - rewrite Forall_forall in Hf. simpl. destruct (p h) eqn:Eh.
    + destruct i as [|j]; simpl in *.
      * inversion Hn; subst. split; [lia|auto].
      * rewrite (IH _ _ Hn). lia.
    + assert (Hnone : forall b, In b t -> p b = false).
      { intros b Hb. destruct (p b) eqn:Eb; [|reflexivity].
        rewrite (Hp h b (Hf b Hb) Eb) in Eh. discriminate. }
      assert (E : filter p t = []).
      { clear -Hnone. induction t as [|b t IHt]; [reflexivity|].
        simpl. rewrite (Hnone b) by now left.
        apply IHt. intros; apply Hnone; now right. }
      rewrite E. simpl. destruct i as [|j]; simpl in *.
      * inversion Hn; subst. rewrite Eh. split; [discriminate|lia].
      * rewrite (Hnone e) by (eapply nth_error_In; eassumption).
        split; [discriminate|lia].
Qed.

Lemma below_closed (x : num) :
  forall a b, lt a b -> ltb b x = true -> ltb a x = true.
Proof. intros a b Hab Hb. exact (lt_trans _ _ _ Hab Hb). Qed.

Lemma upto_closed (x : num) :
  forall a b, lt a b -> negb (ltb x b) = true -> negb (ltb x a) = true.
Proof.
  intros a b Hab Hb. destruct (ltb x a) eqn:E; [|reflexivity].
  rewrite (lt_trans _ _ _ E Hab) in Hb. discriminate.
Qed.

Lemma count_bounds (array : list num) (x : num) :
  0 <= insertion_index array x <= length array
  /\ 0 <= count_upto array x <= length array.
Proof.
  unfold insertion_index, count_upto, length.
  pose proof (filter_length_le (fun e => ltb e x) array).
  pose proof (filter_length_le (fun e => negb (ltb x e)) array). lia.
Qed.

Lemma get_Some {A} (l : list A) (i : Z) (e : A) :
  get l i = Some e <->
  0 <= i < length l /\ nth_error l (Z.to_nat i) = Some e.
Proof.
  unfold get, length. destruct (Z.ltb_spec i 0).
  - split; [discriminate|lia].
  - split.
    + intros Hn. split; [|exact Hn].
      assert (nth_error l (Z.to_nat i) <> None) by congruence.
      apply nth_error_Some in H0. lia.
    + tauto.
Qed.

(** Where [binaryIndexOf] ends, in terms of the numbers of elements below
    and not above the searched element. *)
Lemma binaryIndexOf_counts (array : list num) (x : num) :
  StronglySorted lt array -> length array < 2 ^ 31 ->
  exists r, binaryIndexOf array x = Some r /\
    isFound array r x = mem x array /\
    (if mem x array
     then r = insertion_index array x
          /\ count_upto array x = insertion_index array x + 1
     else r = - insertion_index array x
          /\ count_upto array x = insertion_index array x).
Proof.
  intros Hs Hlen.
  destruct (binaryIndexOf_spec array x Hs Hlen) as (r & Hr & Hcase).
  exists r. split; [exact Hr|].
  pose proof (count_bounds array x) as [Hb1 Hb2].
  destruct Hcase as [(Hin & Hb & Hn)|(Hnot & -> & Hb & _)].
  - rewrite (proj2 (mem_In x array) Hin).
    split; [apply isFound_present; [lia|exact Hn]|].
    pose proof (prefix_filter (fun e => ltb e x) array Hs (below_closed x))
      as Hlt.
    pose proof (prefix_filter (fun e => negb (ltb x e)) array Hs
                  (upto_closed x)) as Hle.
    unfold insertion_index, count_upto, length in *.
    set (clt := List.length (filter (fun e => ltb e x) array)) in *.
    set (cle := List.length (filter (fun e => negb (ltb x e)) array)) in *.
    assert (Hx1 : ltb x x = false).
    { destruct (ltb x x) eqn:E; [|reflexivity]. now apply lt_irrefl in E. }
    assert (H1 : (clt <= Z.to_nat r)%nat).
    { destruct (Nat.le_gt_cases clt (Z.to_nat r)) as [H|H]; [exact H|].
      apply (Hlt _ _ Hn) in H. congruence. }
    assert (H2 : (Z.to_nat r <= clt)%nat).
    { destruct (Nat.le_gt_cases (Z.to_nat r) clt) as [H|H]; [exact H|].
      destruct (nth_error array clt) as [e|] eqn:He.
      2:{ apply nth_error_None in He. lia. }
      assert (Hex : ltb e x = true).
      { exact (sorted_nth _ Hs clt (Z.to_nat r) e x H He Hn). }
      apply (Hlt _ _ He) in Hex. lia. }
    assert (H3 : (Z.to_nat r < cle)%nat).
    { apply (Hle _ _ Hn). now rewrite Hx1. }
    assert (H4 : (cle <= S (Z.to_nat r))%nat).
    { destruct (Nat.le_gt_cases cle (S (Z.to_nat r))) as [H|H]; [exact H|].
      destruct (nth_error array (S (Z.to_nat r))) as [e|] eqn:He.
      2:{ apply nth_error_None in He. lia. }
      assert (Hex : ltb x e = true).
      { exact (sorted_nth _ Hs (Z.to_nat r) (S (Z.to_nat r)) x e
                 (Nat.lt_succ_diag_r _) Hn He). }
      apply (Hle _ _ He) in H. rewrite Hex in H. discriminate. }
    lia.
  - rewrite (proj2 (mem_not_In x array) Hnot).
    split; [apply isFound_absent; [lia|exact Hnot]|].
    split; [reflexivity|]. unfold count_upto, insertion_index. do 2 f_equal.
    clear -Hnot. induction array as [|e l IH]; [reflexivity|].
    simpl. assert (He : e <> x) by (intros ->; apply Hnot; now left).
    rewrite IH by (intros H; apply Hnot; now right).
    destruct (ltb x e) eqn:E1, (ltb e x) eqn:E2; simpl; try reflexivity.
    + exfalso. exact (lt_asym _ _ E1 E2).
    + exfalso. apply He. now apply ltb_total.
Qed.

(** The four neighbour searches, in terms of the two numbers. *)
Lemma neighbour_results (array : list num) (x : num) :
  StronglySorted lt array -> length array < 2 ^ 31 ->
  ltIndexOf array x = Some (insertion_index array x - 1)
  /\ leIndexOf array x = Some (count_upto array x - 1)
  /\ gtIndexOf array x
     = Some (if count_upto array x <? length array
             then count_upto array x else -1)
  /\ geIndexOf array x
     = Some (if insertion_index array x <? length array
             then insertion_index array x else -1).
Proof.
  intros Hs Hlen.
  destruct (binaryIndexOf_counts array x Hs Hlen) as (r & Hr & Hf & Hc).
  pose proof (count_bounds array x) as [Hb1 Hb2].
  unfold ltIndexOf, leIndexOf, gtIndexOf, geIndexOf.
  rewrite Hr. simpl. rewrite Hf.
  set (clt := insertion_index array x) in *.
  set (cle := count_upto array x) in *.
  destruct (mem x array).
  - destruct Hc as [-> Hcle]. repeat split; f_equal;
      repeat match goal with
             | |- context [?a <? ?b] => destruct (Z.ltb_spec a b)
             | |- context [?a <=? ?b] => destruct (Z.leb_spec a b)
             end; lia.
  - destruct Hc as [-> Hcle].
    rewrite Z.abs_opp, Z.abs_eq by lia. repeat split; f_equal;
      repeat match goal with
             | |- context [?a <? ?b] => destruct (Z.ltb_spec a b)
             | |- context [?a <=? ?b] => destruct (Z.leb_spec a b)
             end; lia.
Qed.

Lemma below_index (array : list num) (x : num) (i : Z) (e : num) :
  StronglySorted lt array -> get array i = Some e ->
  ltb e x = (i <? insertion_index array x).
Proof.
  intros Hs Hg. apply get_Some in Hg. destruct Hg as [Hi Hn].
  pose proof (prefix_filter (fun e => ltb e x) array Hs (below_closed x)
                _ _ Hn) as H.
  unfold insertion_index.
  destruct (Z.ltb_spec i (Z.of_nat (List.length (filter (fun e => ltb e x) array))));
    destruct (ltb e x); try reflexivity.
  - assert (false = true) by (apply H; lia). discriminate.
  - assert (Hlt : (Z.to_nat i < List.length (filter (fun e => ltb e x) array))%nat)
      by now apply H.
    lia.
Qed.

Lemma upto_index (array : list num) (x : num) (i : Z) (e : num) :
  StronglySorted lt array -> get array i = Some e ->
  negb (ltb x e) = (i <? count_upto array x).
Proof.
  intros Hs Hg. apply get_Some in Hg. destruct Hg as [Hi Hn].
  pose proof (prefix_filter (fun e => negb (ltb x e)) array Hs (upto_closed x)
                _ _ Hn) as H.
  unfold count_upto.
  destruct (Z.ltb_spec i
              (Z.of_nat (List.length (filter (fun e => negb (ltb x e)) array))));
    destruct (negb (ltb x e)); try reflexivity.
  - assert (false = true) by (apply H; lia). discriminate.
  - assert (Hlt : (Z.to_nat i
                   < List.length (filter (fun e => negb (ltb x e)) array))%nat)
      by now apply H.
    lia.
Qed.

(** X1.  On a sorted array [indexOf(x)] answers the position of [x] when
    [x] is stored, and [-1] when it is not. *)
Theorem indexOf_position (array : list num) (x : num) :
  is_sorted array = true -> length array < 2 ^ 31 ->
  exists r, indexOf array x = Some r /\
    if mem x array then get array r = Some x else r = -1.
Proof.
  intros Hs Hlen. apply is_sorted_StronglySorted in Hs.
  destruct (indexOf_spec array x Hs Hlen) as (r & Hr & Hcase).
  exists r. split; [exact Hr|].
  destruct Hcase as [(Hin & Hb & Hn)|(Hnot & ->)].
  - rewrite (proj2 (mem_In x array) Hin). apply get_Some. now split.
  - now rewrite (proj2 (mem_not_In x array) Hnot).
Qed.

Lemma indexOf_position_witness :
  exists r, indexOf [Fin 10; Fin 20; Fin 30] (Fin 20) = Some r /\
    if mem (Fin 20) [Fin 10; Fin 20; Fin 30]
    then get [Fin 10; Fin 20; Fin 30] r = Some (Fin 20) else r = -1.
Proof.
  apply (indexOf_position [Fin 10; Fin 20; Fin 30] (Fin 20)).
  - reflexivity.
  - vm_compute. reflexivity.
Defined.

(** X2.  On a sorted array [ltIndexOf(x)] answers the index [r] such that
    the elements at the indexes up to [r] are exactly those below [x];
    [r = -1] when no element is below [x]. *)
Theorem ltIndexOf_splits (array : list num) (x : num) :
  is_sorted array = true -> length array < 2 ^ 31 ->
  exists r, ltIndexOf array x = Some r /\ -1 <= r < length array /\
    forall i e, get array i = Some e -> ltb e x = (i <=? r).
Proof.
  intros Hs Hlen. apply is_sorted_StronglySorted in Hs.
  destruct (neighbour_results array x Hs Hlen) as (H & _).
  pose proof (count_bounds array x) as [Hb _].
  eexists. split; [exact H|]. split; [lia|].
  intros i e Hg. rewrite (below_index array x i e Hs Hg).
  destruct (Z.ltb_spec i (insertion_index array x));
    destruct (Z.leb_spec i (insertion_index array x - 1)); lia.
Qed.

Lemma ltIndexOf_splits_witness :
  exists r, ltIndexOf [Fin 10; Fin 20; Fin 30] (Fin 20) = Some r /\
    -1 <= r < length [Fin 10; Fin 20; Fin 30] /\
    forall i e, get [Fin 10; Fin 20; Fin 30] i = Some e ->
                ltb e (Fin 20) = (i <=? r).
Proof.
  apply (ltIndexOf_splits [Fin 10; Fin 20; Fin 30] (Fin 20)).
  - reflexivity.
  - vm_compute. reflexivity.
Defined.

(** X3.  On a sorted array [leIndexOf(x)] answers the index [r] such that
    the elements at the indexes up to [r] are exactly those not above
    [x]; [r = -1] when every element is above [x]. *)
Theorem leIndexOf_splits (array : list num) (x : num) :
  is_sorted array = true -> length array < 2 ^ 31 ->
  exists r, leIndexOf array x = Some r /\ -1 <= r < length array /\
    forall i e, get array i = Some e -> negb (ltb x e) = (i <=? r).
Proof.
  intros Hs Hlen. apply is_sorted_StronglySorted in Hs.
  destruct (neighbour_results array x Hs Hlen) as (_ & H & _).
  pose proof (count_bounds array x) as [_ Hb].
  eexists. split; [exact H|]. split; [lia|].
  intros i e Hg. rewrite (upto_index array x i e Hs Hg).
  destruct (Z.ltb_spec i (count_upto array x));
    destruct (Z.leb_spec i (count_upto array x - 1)); lia.
Qed.

Lemma leIndexOf_splits_witness :
  exists r, leIndexOf [Fin 10; Fin 20; Fin 30] (Fin 20) = Some r /\
    -1 <= r < length [Fin 10; Fin 20; Fin 30] /\
    forall i e, get [Fin 10; Fin 20; Fin 30] i = Some e ->
                negb (ltb (Fin 20) e) = (i <=? r).
Proof.
  apply (leIndexOf_splits [Fin 10; Fin 20; Fin 30] (Fin 20)).
  - reflexivity.
  - vm_compute. reflexivity.
Defined.

(** X4.  On a sorted array [gtIndexOf(x)] answers [-1] when no element is
    above [x], and otherwise the index [r] such that the elements from
    index [r] on are exactly those above [x]. *)
Theorem gtIndexOf_splits (array : list num) (x : num) :
  is_sorted array = true -> length array < 2 ^ 31 ->
  exists r, gtIndexOf array x = Some r /\
    if r =? -1 then forallb (fun e => negb (ltb x e)) array = true
    else 0 <= r < length array /\
         forall i e, get array i = Some e -> ltb x e = (r <=? i).
Proof.
  intros Hs Hlen. apply is_sorted_StronglySorted in Hs.
  destruct (neighbour_results array x Hs Hlen) as (_ & _ & H & _).
  pose proof (count_bounds array x) as [_ Hb].
  eexists. split; [exact H|].
  destruct (Z.ltb_spec (count_upto array x) (length array)) as [Hc|Hc].
  - destruct (Z.eqb_spec (count_upto array x) (-1)); [lia|].
    split; [lia|]. intros i e Hg.
    pose proof (upto_index array x i e Hs Hg) as Hu.
    destruct (ltb x e); simpl in Hu;
      destruct (Z.ltb_spec i (count_upto array x));
      destruct (Z.leb_spec (count_upto array x) i);
      try discriminate; try lia; reflexivity.
  - simpl. apply forallb_forall. intros e He.
    apply In_nth_error in He. destruct He as [n Hn].
    assert (Hg : get array (Z.of_nat n) = Some e).
    { apply get_Some. rewrite Nat2Z.id. split; [|exact Hn].
      assert (nth_error array n <> None) by congruence.
      apply nth_error_Some in H0. unfold length. lia. }
    rewrite (upto_index array x _ e Hs Hg).
    apply get_Some in Hg. destruct (Z.ltb_spec (Z.of_nat n) (count_upto array x));
      [reflexivity|lia].
Qed.

Lemma gtIndexOf_splits_witness :
  exists r, gtIndexOf [Fin 10; Fin 20; Fin 30] (Fin 20) = Some r /\
    if r =? -1
    then forallb (fun e => negb (ltb (Fin 20) e)) [Fin 10; Fin 20; Fin 30]
         = true
    else 0 <= r < length [Fin 10; Fin 20; Fin 30] /\
         forall i e, get [Fin 10; Fin 20; Fin 30] i = Some e ->
                     ltb (Fin 20) e = (r <=? i).
Proof.
  apply (gtIndexOf_splits [Fin 10; Fin 20; Fin 30] (Fin 20)).
  - reflexivity.
  - vm_compute. reflexivity.
Defined.

(** X5.  On a sorted array [geIndexOf(x)] answers [-1] when every element
    is below [x], and otherwise the index [r] such that the elements from
    index [r] on are exactly those not below [x]. *)
Theorem geIndexOf_splits (array : list num) (x : num) :
  is_sorted array = true -> length array < 2 ^ 31 ->
  exists r, geIndexOf array x = Some r /\
    if r =? -1 then forallb (fun e => ltb e x) array = true
    else 0 <= r < length array /\
         forall i e, get array i = Some e -> negb (ltb e x) = (r <=? i).
Proof.
  intros Hs Hlen. apply is_sorted_StronglySorted in Hs.
  destruct (neighbour_results array x Hs Hlen) as (_ & _ & _ & H).
  pose proof (count_bounds array x) as [Hb _].
  eexists. split; [exact H|].
  destruct (Z.ltb_spec (insertion_index array x) (length array)) as [Hc|Hc].
  - destruct (Z.eqb_spec (insertion_index array x) (-1)); [lia|].
    split; [lia|]. intros i e Hg.
    rewrite (below_index array x i e Hs Hg).
    destruct (Z.ltb_spec i (insertion_index array x));
      destruct (Z.leb_spec (insertion_index array x) i);
      try lia; reflexivity.
  - simpl. apply forallb_forall. intros e He.
    apply In_nth_error in He. destruct He as [n Hn].
    assert (Hg : get array (Z.of_nat n) = Some e).
    { apply get_Some. rewrite Nat2Z.id. split; [|exact Hn].
      assert (nth_error array n <> None) by congruence.
      apply nth_error_Some in H0. unfold length. lia. }
    rewrite (below_index array x _ e Hs Hg).
    apply get_Some in Hg.
    destruct (Z.ltb_spec (Z.of_nat n) (insertion_index array x));
      [reflexivity|lia].
Qed.

Lemma geIndexOf_splits_witness :
  exists r, geIndexOf [Fin 10; Fin 20; Fin 30] (Fin 25) = Some r /\
    if r =? -1
    then forallb (fun e => ltb e (Fin 25)) [Fin 10; Fin 20; Fin 30] = true
    else 0 <= r < length [Fin 10; Fin 20; Fin 30] /\
         forall i e, get [Fin 10; Fin 20; Fin 30] i = Some e ->
                     negb (ltb e (Fin 25)) = (r <=? i).
Proof.
  apply (geIndexOf_splits [Fin 10; Fin 20; Fin 30] (Fin 25)).
  - reflexivity.
  - vm_compute. reflexivity.
Defined.

Lemma closed_rest_fails (p : num -> bool) (h : num) (t : list num) :
  StronglySorted lt (h :: t) ->
  (forall a b, lt a b -> p b = true -> p a = true) ->
  p h = false -> forallb (fun e => negb (p e)) t = true.
Proof.
  intros Hs Hp Eh. apply StronglySorted_inv in Hs. destruct Hs as [_ Hf].
  rewrite Forall_forall in Hf. apply forallb_forall. intros b Hb.
  destruct (p b) eqn:Eb; [|reflexivity].
  rewrite (Hp h b (Hf b Hb) Eb) in Eh. discriminate.
Qed.

Lemma filter_none (p : num -> bool) (l : list num) :
  forallb (fun e => negb (p e)) l = true -> filter p l = [].
Proof.
  induction l as [|b l IH]; [reflexivity|]. simpl.
  rewrite andb_true_iff, negb_true_iff. intros [-> H]. now apply IH.
Qed.

Lemma filter_prefix (p : num -> bool) (l : list num) :
  StronglySorted lt l ->
  (forall a b, lt a b -> p b = true -> p a = true) ->
  filter p l = firstn (List.length (filter p l)) l.
Proof.
  intros Hs Hp. induction l as [|h t IH]; [reflexivity|].
  simpl. destruct (p h) eqn:Eh.
  - simpl. f_equal. apply IH. now apply StronglySorted_inv in Hs.
  - rewrite (filter_none p t); [reflexivity|].
    eapply closed_rest_fails; eassumption.
Qed.

(** The elements of a sorted array that pass a downward closed test [p]
    and fail a downward closed test [q] form the slice between the two
    counts. *)
Lemma filter_between (p q : num -> bool) (l : list num) :
  StronglySorted lt l ->
  (forall a b, lt a b -> p b = true -> p a = true) ->
  (forall a b, lt a b -> q b = true -> q a = true) ->
  filter (fun e => negb (q e) && p e) l
  = skipn (List.length (filter q l)) (firstn (List.length (filter p l)) l).
Proof.
  intros Hs Hp Hq. induction l as [|h t IH]; [reflexivity|].
  assert (Hst : StronglySorted lt t) by now apply StronglySorted_inv in Hs.
  simpl. destruct (p h) eqn:Ep.
  - destruct (q h) eqn:Eq; simpl.
    + now apply IH.
    + pose proof (closed_rest_fails q h t Hs Hq Eq) as Hnq.
      rewrite (filter_none q t Hnq). simpl. f_equal.
      rewrite <- (filter_prefix p t Hst Hp). apply filter_ext_in.
      intros e He. rewrite forallb_forall in Hnq. now rewrite (Hnq e He).
  - pose proof (closed_rest_fails p h t Hs Hp Ep) as Hnp.
    rewrite (filter_none p t Hnp). simpl.
    rewrite skipn_nil, andb_false_r.
    apply filter_none. apply forallb_forall. intros e He.
    rewrite forallb_forall in Hnp. specialize (Hnp e He).
    apply negb_true_iff in Hnp. now rewrite Hnp, andb_false_r.
Qed.

Lemma sliceIterator_slice (array : list num) (s t : Z) :
  0 <= s -> t <= length array ->
  sliceIterator array s t
  = map Some (skipn (Z.to_nat s) (firstn (Z.to_nat t) array)).
Proof.
  intros Hs Ht. unfold sliceIterator. apply nth_error_ext. intros n.
  rewrite !nth_error_map, nth_error_seq, nth_error_skipn, nth_error_firstn.
  unfold length in Ht.
  destruct (Nat.ltb_spec n (Z.to_nat (t - s)));
    destruct (Nat.ltb_spec (Z.to_nat s + n) (Z.to_nat t)); try lia; simpl.
  - rewrite get_nth by lia.
    replace (Z.to_nat (s + Z.of_nat n)) with (Z.to_nat s + n)%nat by lia.
    destruct (nth_error array (Z.to_nat s + n)) eqn:E; [reflexivity|].
    apply nth_error_None in E. lia.
  - reflexivity.
Qed.

(** X6.  On a sorted array [lookup(interval)] yields exactly the stored
    elements that lie in the interval, in increasing order, an end being
    taken or left out as the interval says. *)
Theorem lookup_yields_interval (array : list num) (interval : Interval) :
  is_sorted array = true -> length array < 2 ^ 31 ->
  lookup array interval = Some (map Some (filter (within interval) array)).
Proof.
  intros Hs Hlen. apply is_sorted_StronglySorted in Hs.
  destruct (neighbour_results array (low interval) Hs Hlen)
    as (_ & _ & Hgt & Hge).
  destruct (neighbour_results array (high interval) Hs Hlen)
    as (Hlt & Hle & _ & _).
  pose proof (count_bounds array (low interval)) as [Hb1 Hb2].
  pose proof (count_bounds array (high interval)) as [Hb3 Hb4].
  set (q := fun e => if lowInclude interval then ltb e (low interval)
                     else negb (ltb (low interval) e)).
  set (p := fun e => if highInclude interval
                     then negb (ltb (high interval) e)
                     else ltb e (high interval)).
  assert (Hp : forall a b, lt a b -> p b = true -> p a = true).
  { subst p. cbv beta. destruct (highInclude interval);
      [apply upto_closed|apply below_closed]. }
  assert (Hq : forall a b, lt a b -> q b = true -> q a = true).
  { subst q. cbv beta. destruct (lowInclude interval);
      [apply below_closed|apply upto_closed]. }
  assert (Hfilter : filter (within interval) array
                    = filter (fun e => negb (q e) && p e) array).
  { apply filter_ext. intros e. unfold within. subst p q. cbv beta.
    destruct (lowInclude interval), (highInclude interval);
      rewrite ?negb_involutive; reflexivity. }
  rewrite Hfilter, (filter_between p q array Hs Hp Hq).
  set (cq := if lowInclude interval then insertion_index array (low interval)
             else count_upto array (low interval)).
  set (cp := if highInclude interval then count_upto array (high interval)
             else insertion_index array (high interval)).
  assert (Ecq : Z.of_nat (List.length (filter q array)) = cq).
  { subst q cq. unfold insertion_index, count_upto.
    destruct (lowInclude interval); reflexivity. }
  assert (Ecp : Z.of_nat (List.length (filter p array)) = cp).
  { subst p cp. unfold insertion_index, count_upto.
    destruct (highInclude interval); reflexivity. }
  assert (Hcq : 0 <= cq <= length array)
    by (subst cq; destruct (lowInclude interval); lia).
  assert (Hcp : 0 <= cp <= length array)
    by (subst cp; destruct (highInclude interval); lia).
  assert (Hstart :
    (if lowInclude interval then geIndexOf array (low interval)
     else gtIndexOf array (low interval))
    = Some (if cq <? length array then cq else -1)).
  { subst cq. destruct (lowInclude interval); assumption. }
  assert (Hend :
    (if highInclude interval then leIndexOf array (high interval)
     else ltIndexOf array (high interval)) = Some (cp - 1)).
  { subst cp. destruct (highInclude interval); assumption. }
  unfold lookup. rewrite Hstart. simpl.
  replace (List.length (filter q array)) with (Z.to_nat cq) by lia.
  replace (List.length (filter p array)) with (Z.to_nat cp) by lia.
  destruct (Z.ltb_spec cq (length array)) as [Hc|Hc].
  - destruct (Z.eqb_spec cq (-1)); [lia|]. rewrite Hend. simpl.
    destruct (Z.eqb_spec (cp - 1) (-1)) as [E|E].
    + replace cp with 0 by lia. simpl. now rewrite skipn_nil.
    + replace (cp - 1 + 1) with cp by lia.
      f_equal. apply sliceIterator_slice; lia.
  - simpl. rewrite skipn_all2; [reflexivity|].
    rewrite length_firstn. unfold length in *. lia.
Qed.

Lemma lookup_yields_interval_witness :
  lookup [Fin 10; Fin 20; Fin 30; Fin 40]
    {| low := Fin 20; high := Fin 40;
       lowInclude := true; highInclude := false |}
  = Some (map Some
            (filter (within {| low := Fin 20; high := Fin 40;
                               lowInclude := true; highInclude := false |})
               [Fin 10; Fin 20; Fin 30; Fin 40])).
Proof.
  apply (lookup_yields_interval [Fin 10; Fin 20; Fin 30; Fin 40]).
  - reflexivity.
  - vm_compute. reflexivity.
Defined.

(** X7.  On a sorted array [getMinimum()] and [getMaximum()] answer stored
    elements with no stored element below the first or above the second;
    both answer [undefined] exactly when the array is empty. *)
Theorem minimum_maximum_bound (array : list num) :
  is_sorted array = true ->
  match getMinimum array, getMaximum array with
  | Some lo, Some hi =>
      mem lo array && mem hi array = true
      /\ forallb (fun e => negb (ltb e lo) && negb (ltb hi e)) array = true
  | None, None => array = []
  | _, _ => False
  end.
Proof.
  intros Hs. apply is_sorted_StronglySorted in Hs.
  destruct array as [|h t]; [reflexivity|].
  unfold getMinimum, getMaximum, length. simpl List.length.
  destruct (Z.ltb_spec 0 (Z.of_nat (S (List.length t)))); [|lia].
  rewrite !get_nth by lia.
  replace (Z.to_nat (Z.of_nat (S (List.length t)) - 1))
    with (List.length t) by lia.
  simpl (nth_error (h :: t) (Z.to_nat 0)).
  destruct (nth_error (h :: t) (List.length t)) as [hi|] eqn:Ehi.
  2:{ apply nth_error_None in Ehi. simpl in Ehi. lia. }
  split.
  - apply andb_true_iff. split; apply mem_In; [now left|].
    eapply nth_error_In; eassumption.
  - apply forallb_forall. intros e He. apply In_nth_error in He.
    destruct He as [n Hn].
    assert (Hlt : (n < S (List.length t))%nat).
    { assert (nth_error (h :: t) n <> None) by congruence.
      apply nth_error_Some in H0. exact H0. }
    apply andb_true_iff. split; apply negb_true_iff.
    + destruct n as [|n].
      * simpl in Hn. inversion Hn; subst.
        destruct (ltb e e) eqn:E; [|reflexivity]. now apply lt_irrefl in E.
      * assert (Hhe : lt h e).
        { apply (sorted_nth _ Hs 0 (S n) h e); [lia|reflexivity|exact Hn]. }
        destruct (ltb e h) eqn:E; [|reflexivity].
        exfalso. exact (lt_asym _ _ Hhe E).
    + destruct (Nat.eq_dec n (List.length t)) as [->|Hne].
      * rewrite Ehi in Hn. inversion Hn; subst.
        destruct (ltb e e) eqn:E; [|reflexivity]. now apply lt_irrefl in E.
      * assert (Hhe : lt e hi).
        { apply (sorted_nth _ Hs n (List.length t) e hi);
            [lia|exact Hn|exact Ehi]. }
        destruct (ltb hi e) eqn:E; [|reflexivity].
        exfalso. exact (lt_asym _ _ Hhe E).
Qed.

Lemma minimum_maximum_bound_witness :
  match getMinimum [Fin 10; Fin 20; Fin 30],
        getMaximum [Fin 10; Fin 20; Fin 30] with
  | Some lo, Some hi =>
      mem lo [Fin 10; Fin 20; Fin 30] && mem hi [Fin 10; Fin 20; Fin 30] = true
      /\ forallb (fun e => negb (ltb e lo) && negb (ltb hi e))
           [Fin 10; Fin 20; Fin 30] = true
  | None, None => [Fin 10; Fin 20; Fin 30] = []
  | _, _ => False
  end.
Proof.
  apply (minimum_maximum_bound [Fin 10; Fin 20; Fin 30]). reflexivity.
Defined.

(** Two sorted arrays without duplicates that hold the same elements are
    the same array. *)
Lemma sorted_ext (l1 l2 : list num) :
  StronglySorted lt l1 -> StronglySorted lt l2 ->
  (forall e, In e l1 <-> In e l2) -> l1 = l2.
Proof.
  intros H1. revert l2. induction H1 as [|h1 t1 Hs1 IH Hf1]; intros l2 H2 Hmem.
  - destruct l2 as [|h2 t2]; [reflexivity|].
    exfalso. apply (Hmem h2). now left.
  - destruct H2 as [|h2 t2 Hs2 Hf2].
    + exfalso. apply (Hmem h1). now left.
    + rewrite Forall_forall in Hf1, Hf2.
      assert (Eh : h1 = h2).
      { assert (Ha : In h1 (h2 :: t2)) by (apply Hmem; now left).
        assert (Hb : In h2 (h1 :: t1)) by (apply Hmem; now left).
        destruct Ha as [Ha|Ha]; [congruence|].
        destruct Hb as [Hb|Hb]; [congruence|].
        exfalso. exact (lt_asym _ _ (Hf1 _ Hb) (Hf2 _ Ha)). }
      subst h2. f_equal. apply IH; [exact Hs2|].
      intros e. split; intros He.
      * assert (Hin : In e (h1 :: t2)) by (apply Hmem; now right).
        destruct Hin as [<-|Hin]; [|exact Hin].
        exfalso. exact (lt_irrefl _ (Hf1 _ He)).
      * assert (Hin : In e (h1 :: t1)) by (apply Hmem; now right).
        destruct Hin as [<-|Hin]; [|exact Hin].
        exfalso. exact (lt_irrefl _ (Hf2 _ He)).
Qed.

(** [update] on a non-empty sorted array with a batch of at most 100
    elements and removals without repetition. *)
Lemma update_small_batch (array to_remove to_insert : list num) :
  StronglySorted lt array -> 0 < length array ->
  length array + length to_insert < 2 ^ 31 ->
  length to_remove + length to_insert <= 100 ->
  NoDup to_remove ->
  exists array', update array to_remove to_insert = Some array' /\
    StronglySorted lt array' /\
    forall e, In e array' <->
      (In e array /\ ~ In e to_remove) \/ In e to_insert.
Proof.
  intros Hs Hpos Hlen Hsmall Hnd. unfold update.
  destruct (Z.eqb_spec (length to_remove + length to_insert) 0) as [E|E].
  - exists array. split; [reflexivity|]. split; [exact Hs|].
    assert (to_remove = [] /\ to_insert = []) as [-> ->].
    { unfold length in E. destruct to_remove, to_insert; simpl in E;
        try lia. now split. }
    intros e. simpl. tauto.
  - unfold resolve_approach.
    destruct (Z.eqb_spec (length array) 0); [lia|].
    destruct (Z.leb_spec (length to_remove + length to_insert) 100); [|lia].
    now apply _update_splice_spec.
Qed.

(** X8.  On a non-empty sorted array that together with the batch has
    fewer than [2 ^ 31] elements, inserting at most 100 elements that are
    all stored already leaves the array as it is, and so does removing at
    most 100 distinct elements of which none is stored. *)
Theorem insert_present_remove_absent (array stored missing : list num) :
  is_sorted array = true -> 0 < length array ->
  length array + length stored < 2 ^ 31 ->
  length stored <= 100 -> length missing <= 100 ->
  forallb (fun x => mem x array) stored = true ->
  no_repeat missing = true ->
  forallb (fun x => negb (mem x array)) missing = true ->
  insert array stored = Some array /\ remove array missing = Some array.
Proof.
  intros Hs Hpos Hlen Hsmall Hsmall' Hstored Hnr Hmissing.
  apply is_sorted_StronglySorted in Hs. split.
  - unfold insert.
    destruct (update_small_batch array [] stored Hs Hpos Hlen)
      as (array' & -> & Hs' & Hmem); [unfold length in *; simpl; lia|constructor|].
    f_equal. apply sorted_ext; [assumption..|].
    intros e. rewrite Hmem. rewrite forallb_forall in Hstored. split.
    + intros [[H _]|H]; [exact H|]. apply mem_In. now apply Hstored.
    + intros H. left. split; [exact H|]. intros [].
  - unfold remove. apply no_repeat_NoDup in Hnr.
    destruct (update_small_batch array missing [] Hs Hpos)
      as (array' & -> & Hs' & Hmem);
      [unfold length in *; simpl; lia..|exact Hnr|].
    f_equal. apply sorted_ext; [assumption..|].
    intros e. rewrite Hmem. rewrite forallb_forall in Hmissing. split.
    + intros [[H _]|[]]. exact H.
    + intros H. left. split; [exact H|]. intros Hb.
      specialize (Hmissing e Hb).
      apply negb_true_iff, mem_not_In in Hmissing. contradiction.
Qed.

Lemma insert_present_remove_absent_witness :
  insert [Fin 10; Fin 20; Fin 30] [Fin 20; Fin 10]
  = Some [Fin 10; Fin 20; Fin 30]
  /\ remove [Fin 10; Fin 20; Fin 30] [Fin 25; Fin 5]
     = Some [Fin 10; Fin 20; Fin 30].
Proof.
  apply (insert_present_remove_absent [Fin 10; Fin 20; Fin 30]
           [Fin 20; Fin 10] [Fin 25; Fin 5]).
  - reflexivity.
  - vm_compute. reflexivity.
  - vm_compute. reflexivity.
  - vm_compute. discriminate.
  - vm_compute. discriminate.
  - reflexivity.
  - reflexivity.
  - reflexivity.
Defined.



(** X10.  On an empty index, [update([], to_insert)] with pairwise
    distinct finite numbers stores them sorted, except the largest one,
    which is lost: nothing was flagged for removal, so
    [indexOf(Infinity)] is [-1] and [splice(-1, length)] cuts the last
    element. *)
Theorem update_on_empty_index (to_insert : list num) :
  forallb is_finite to_insert = true -> no_repeat to_insert = true ->
  exists array', update [] [] to_insert = Some array' /\
    is_sorted array' = true /\
    forall e, In e array' <->
      In e to_insert /\ existsb (fun e' => ltb e e') to_insert = true.
Proof.
  intros Hfin Hnr. rewrite (update_into_empty_drops_maximum _ Hfin).
  eexists. split; [reflexivity|].
  set (s := sort cmp to_insert).
  assert (Hperm : Permutation to_insert s) by apply sort_perm.
  assert (Hs : StronglySorted le s) by apply sort_num_sorted.
  assert (Hnd : NoDup s).
  { eapply Permutation_NoDup; [exact Hperm|now apply no_repeat_NoDup]. }
  assert (HinI : forall e, In e to_insert <-> In e s).
  { intros e. split; apply Permutation_in;
      [exact Hperm|now apply Permutation_sym]. }
  assert (Hr : StronglySorted le (removelast s)
               /\ forall e, In e (removelast s) <->
                    In e s /\ exists e', In e' s /\ lt e e').
  { destruct (list_eq_dec num_eq_dec s []) as [E|E].
    - rewrite E. simpl. split; [constructor|]. intros e. tauto.
    - assert (Hsplit : forall a, In a s <->
                 In a (removelast s) \/ a = last s Infinity).
      { intros a. rewrite (app_removelast_last Infinity E) at 1.
        rewrite in_app_iff. simpl. intuition congruence. }
      rewrite (app_removelast_last Infinity E) in Hs, Hnd.
      apply StronglySorted_app in Hs. destruct Hs as (Hs1 & _ & Hcross).
      split; [exact Hs1|]. intros e.
      apply NoDup_remove_2 in Hnd. rewrite app_nil_r in Hnd.
      split.
      + intros He. split; [apply Hsplit; now left|].
        exists (last s Infinity). split; [apply Hsplit; now right|].
        destruct (le_lt_or_eq _ _ (Hcross e _ He (or_introl eq_refl)))
          as [H|H]; [exact H|]. subst e. contradiction.
      + intros [He (e' & He' & Hlt)].
        apply Hsplit in He. destruct He as [He|Em]; [exact He|].
        exfalso. subst e. apply Hsplit in He'. destruct He' as [He'|Em].
        * specialize (Hcross e' _ He' (or_introl eq_refl)).
          unfold le, lt in *. congruence.
        * subst e'. exact (lt_irrefl _ Hlt). }
  destruct Hr as [Hrs Hrm]. split.
  - apply is_sorted_StronglySorted. now apply unique_from_sorted.
  - intros e. unfold _unique. rewrite unique_from_In, Hrm, HinI.
    rewrite existsb_exists. split.
    + intros [[He (e' & He' & Hlt)] _]. split; [exact He|].
      exists e'. split; [now apply HinI|exact Hlt].
    + intros [He (e' & He' & Hlt)]. split; [|intros []].
      split; [exact He|]. exists e'. split; [now apply HinI|exact Hlt].
Qed.

Lemma update_on_empty_index_witness :
  exists array', update [] [] [Fin 30; Fin 10; Fin 20] = Some array' /\
    is_sorted array' = true /\
    forall e, In e array' <->
      In e [Fin 30; Fin 10; Fin 20]
      /\ existsb (fun e' => ltb e e') [Fin 30; Fin 10; Fin 20] = true.
Proof.
  apply (update_on_empty_index [Fin 30; Fin 10; Fin 20]); reflexivity.
Defined.

(** X11.  On a sorted array [indexOfElements(elements)] answers one index
    for each of the elements that is stored, in the order of [elements],
    each index pointing at its element; elements that are not stored
    contribute nothing. *)
Theorem indexOfElements_positions (array elements : list num) :
  is_sorted array = true -> length array < 2 ^ 31 ->
  exists indexes, indexOfElements array elements = Some indexes /\
    map (get array) indexes
    = map Some (filter (fun x => mem x array) elements).
Proof.
  intros Hs Hlen. apply is_sorted_StronglySorted in Hs.
  induction elements as [|x elements IH].
  - exists []. split; reflexivity.
  - destruct IH as (indexes & Hidx & Hmap). simpl.
    destruct (indexOf_spec array x Hs Hlen) as (r & -> & Hcase).
    simpl. rewrite Hidx. simpl.
    destruct Hcase as [(Hin & Hr & Hn)|(Hnot & ->)].
    + rewrite (proj2 (mem_In x array) Hin).
      destruct (Z.ltb_spec (-1) r); [|lia].
      exists (r :: indexes). split; [reflexivity|]. simpl. f_equal.
      * apply get_Some. now split.
      * exact Hmap.
    + rewrite (proj2 (mem_not_In x array) Hnot). simpl.
      exists indexes. now split.
Qed.

Lemma indexOfElements_positions_witness :
  exists indexes,
    indexOfElements [Fin 10; Fin 20; Fin 30] [Fin 30; Fin 15; Fin 10]
    = Some indexes /\
    map (get [Fin 10; Fin 20; Fin 30]) indexes
    = map Some (filter (fun x => mem x [Fin 10; Fin 20; Fin 30])
                  [Fin 30; Fin 15; Fin 10]).
Proof.
  apply (indexOfElements_positions [Fin 10; Fin 20; Fin 30]
           [Fin 30; Fin 15; Fin 10]).
  - reflexivity.
  - vm_compute. reflexivity.
Defined.

End BinarySearchQueryFacts.

(** ** More of util.js *)

Module UtilMoreFacts.
Import JsMap JsMapFacts Util UtilFacts UtilSpec.

(** X12.  For safe integers [n] and [d] (magnitude below [2 ^ 53]) with
    [d] other than zero, [divmod(n, d)] answers [[q, r]] with safe integers
    such that [n = q * d + r], [|r| < |d|], and a remainder that is zero or
    has the sign of [n] (so [divmod(-7, 2)] is [[-3, -1]]). *)
Theorem divmod_reconstructs (n d : Z) :
  Z.abs n < 2 ^ 53 -> Z.abs d < 2 ^ 53 -> d <> 0 ->
  exists q r, divmod n d = Some (q, r) /\
    n = q * d + r /\ Z.abs r < Z.abs d /\ 0 <= r * n
    /\ safe_integer q = true /\ safe_integer r = true.
Proof.
  intros Hn Hd' Hd. unfold divmod, safe_integer.
  rewrite (proj2 (Z.ltb_lt _ _) Hn), (proj2 (Z.ltb_lt _ _) Hd').
  cbn [andb negb]. destruct (Z.eqb_spec d 0); [contradiction|].
  eexists. eexists. split; [reflexivity|].
  pose proof (Z.quot_rem' n d) as Hqr.
  assert (Hq : Z.quot (n - Z.rem n d) d = Z.quot n d).
  { replace (n - Z.rem n d) with (Z.quot n d * d) by lia.
    now apply Z.quot_mul. }
  rewrite Hq.
  pose proof (Z.rem_bound_abs n d Hd) as Hr.
  pose proof (Z.rem_sign_mul n d Hd) as Hsign.
  assert (Hqn : Z.abs (Z.quot n d) <= Z.abs n) by nia.
  split; [lia|]. split; [exact Hr|]. split; [exact Hsign|].
  split; apply Z.ltb_lt; lia.
Qed.

Lemma divmod_reconstructs_witness :
  exists q r, divmod (-7) 2 = Some (q, r) /\
    -7 = q * 2 + r /\ Z.abs r < Z.abs 2 /\ 0 <= r * -7
    /\ safe_integer q = true /\ safe_integer r = true.
Proof.
  apply (divmod_reconstructs (-7) 2); [reflexivity|reflexivity|discriminate].
Defined.

Section SetFacts.
Context {K : Type} `{KeyEq K}.

Lemma set_has_In (s : list K) (a : K) : set_has s a = true <-> In a s.
Proof. apply key_mem_In. Qed.

(** X13.  For two sets, [eqSet(as, bs)] is true exactly when they hold the
    same elements. *)
Theorem eqSet_same_elements (as_ bs : list K) :
  distinct as_ = true -> distinct bs = true ->
  (eqSet as_ bs = true <-> forall x, In x as_ <-> In x bs).
Proof.
  rewrite !distinct_NoDup. intros Ha Hb. unfold eqSet, all, isIn, set_size.
  rewrite andb_true_iff, Z.eqb_eq, forallb_forall. split.
  - intros [Hlen Hsub] x.
    assert (Hincl : incl as_ bs).
    { intros y Hy. apply set_has_In. now apply Hsub. }
    split; [apply Hincl|].
    apply (NoDup_length_incl Ha); [lia|exact Hincl].
  - intros Hsame. split.
    + assert (List.length as_ <= List.length bs)%nat.
      { apply NoDup_incl_length; [exact Ha|]. intros y; apply Hsame. }
      assert (List.length bs <= List.length as_)%nat.
      { apply NoDup_incl_length; [exact Hb|]. intros y; apply Hsame. }
      lia.
    + intros x Hx. apply set_has_In. now apply Hsame.
Qed.

End SetFacts.

Lemma eqSet_same_elements_witness :
  eqSet [1%nat; 2%nat; 3%nat] [3%nat; 1%nat; 2%nat] = true <->
  forall x, In x [1%nat; 2%nat; 3%nat] <-> In x [3%nat; 1%nat; 2%nat].
Proof.
  apply (eqSet_same_elements [1%nat; 2%nat; 3%nat] [3%nat; 1%nat; 2%nat]);
    reflexivity.
Defined.

Section MergeFacts.
Context {K V : Type} `{KeyEq K}.

Lemma has_set_all (first m : JsMap.t K V) (k : K) :
  has (set_all first m) k = has first k || has m k.
Proof.
  unfold set_all. revert first. induction m as [|[k0 v0] m IH]; intros first.
  - simpl. now rewrite orb_false_r.
  - simpl. rewrite IH, has_set.
    destruct (has first k), (key_eqb k0 k), (has m k); reflexivity.
Qed.

Lemma get_set_all (first m : JsMap.t K V) (k : K) :
  wf m = true ->
  get (set_all first m) k
  = match get m k with Some v => Some v | None => get first k end.
Proof.
  unfold set_all, wf. rewrite distinct_NoDup.
  revert first. induction m as [|[k0 v0] m IH]; intros first Hnd.
  - reflexivity.
  - simpl in *. inversion Hnd; subst. rewrite IH by assumption.
    rewrite get_set. destruct (key_eqb k0 k) eqn:E.
    + apply key_eqb_eq in E. subst k0.
      destruct (get m k) eqn:Eg; [|reflexivity].
      exfalso. apply H2. apply get_In in Eg.
      change k with (fst (k, v)). now apply in_map.
    + reflexivity.
Qed.

Lemma every_Map_all (refs : list MapRef) :
  every_Map (map Some refs) = Some refs.
Proof.
  induction refs as [|r refs IH]; [reflexivity|]. simpl. now rewrite IH.
Qed.

Lemma has_merge_copy (heap : @MapHeap K V) (refs : list MapRef) (k : K) :
  forall first : JsMap.t K V,
    has (fold_left (fun first m => set_all first (heap m)) refs first) k
    = has first k || existsb (fun m => has (heap m) k) refs.
Proof.
  induction refs as [|r refs IH]; intros first; simpl.
  - now rewrite orb_false_r.
  - rewrite IH, has_set_all. now rewrite orb_assoc.
Qed.

Lemma has_merge_in_place (heap : @MapHeap K V) (f : MapRef)
  (rest : list MapRef) (k : K) :
  forall first : JsMap.t K V,
    has (fold_left
           (fun first m =>
              set_all first (if Nat.eqb m f then first else heap m))
           rest first) k
    = has first k
      || existsb (fun m => negb (Nat.eqb m f) && has (heap m) k) rest.
Proof.
  induction rest as [|r rest IH]; intros first; simpl.
  - now rewrite orb_false_r.
  - rewrite IH, has_set_all. destruct (Nat.eqb r f); simpl.
    + now rewrite orb_diag.
    + now rewrite orb_assoc.
Qed.

Lemma existsb_perm {A} (p : A -> bool) (l l' : list A) :
  Permutation l l' -> existsb p l = existsb p l'.
Proof.
  intros Hp. destruct (existsb p l) eqn:E; symmetry.
  - apply existsb_exists in E. destruct E as (x & Hx & Hpx).
    apply existsb_exists. exists x. split; [|exact Hpx].
    eapply Permutation_in; eassumption.
  - destruct (existsb p l') eqn:E'; [|reflexivity].
    apply existsb_exists in E'. destruct E' as (x & Hx & Hpx).
    assert (existsb p l = true).
    { apply existsb_exists. exists x. split; [|exact Hpx].
      eapply Permutation_in; [apply Permutation_sym|]; eassumption. }
    congruence.
Qed.

(** X14.  Given an array of at least one map, [map_merge] returns a map
    whose keys are exactly the keys of the maps of the array, whatever the
    options [copy] and [order]. *)
Theorem map_merge_keys (heap : @MapHeap K V) (r : MapRef)
  (refs : list MapRef) (copy order : bool) (k : K) :
  exists merged,
    map_merge heap (ArgArray (map Some (r :: refs))) copy order
    = Returns merged
    /\ has merged k = existsb (fun m => has (heap m) k) (r :: refs).
Proof.
  unfold map_merge.
  change (Z.of_nat (List.length (map Some (r :: refs))) =? 0) with false.
  cbv iota. rewrite every_Map_all.
  set (cmp := fun a b : MapRef =>
                Js.DNum (size (heap b) - size (heap a))).
  set (sorted := if negb order then Js.sort cmp (r :: refs) else r :: refs).
  assert (Hperm : Permutation (r :: refs) sorted).
  { subst sorted. destruct (negb order); [apply JsFacts.sort_perm|reflexivity]. }
  rewrite (existsb_perm _ _ _ Hperm).
  destruct copy.
  - eexists. split; [reflexivity|]. now rewrite has_merge_copy.
  - destruct sorted as [|f rest].
    + apply Permutation_sym, Permutation_nil in Hperm. discriminate.
    + eexists. split; [reflexivity|]. rewrite has_merge_in_place. simpl.
      destruct (has (heap f) k) eqn:Ef; [reflexivity|]. simpl.
      clear -Ef. induction rest as [|m rest IH]; [reflexivity|]. simpl.
      rewrite IH. destruct (Nat.eqb_spec m f) as [->|Hne]; simpl;
        [now rewrite Ef|reflexivity].
Qed.

(** X15.  With [copy] and [order] set, [map_merge] of an array of maps
    binds every key as the last map of the array that has the key does:
    later maps win. *)
Theorem map_merge_later_wins (heap : @MapHeap K V) (r : MapRef)
  (refs : list MapRef) (k : K) :
  forallb (fun m => wf (heap m)) (r :: refs) = true ->
  exists merged,
    map_merge heap (ArgArray (map Some (r :: refs))) true true
    = Returns merged
    /\ get merged k = last_binding heap (r :: refs) k.
Proof.
  intros Hwf. unfold map_merge.
  change (Z.of_nat (List.length (map Some (r :: refs))) =? 0) with false.
  cbv iota. rewrite every_Map_all. cbn [negb].
  eexists. split; [reflexivity|]. unfold last_binding.
  assert (Hgen : forall (l : list MapRef) (first : JsMap.t K V),
            forallb (fun m => wf (heap m)) l = true ->
            get (fold_left (fun first m => set_all first (heap m)) l first) k
            = fold_left (fun acc m =>
                           match get (heap m) k with
                           | Some v => Some v
                           | None => acc
                           end) l (get first k)).
  { induction l as [|m l IH]; intros first Hl; [reflexivity|].
    simpl in *. apply andb_true_iff in Hl. destruct Hl as [Hm Hl].
    rewrite IH by exact Hl. now rewrite get_set_all. }
  now rewrite Hgen.
Qed.

End MergeFacts.

Lemma map_merge_later_wins_witness :
  let heap : @MapHeap nat Z := fun r =>
    match r with
    | O => [(1%nat, 10); (2%nat, 20)]
    | _ => [(2%nat, 21); (3%nat, 31)]
    end in
  exists merged,
    map_merge heap (ArgArray (map Some [0%nat; 1%nat])) true true
    = Returns merged
    /\ get merged 2%nat = last_binding heap [0%nat; 1%nat] 2%nat.
Proof.
  intros heap. apply (map_merge_later_wins heap 0%nat [1%nat] 2%nat).
  reflexivity.
Defined.

Section ObjectFacts.
Context {Val : Type} `{KeyEq Val}.

Lemma object_equals_loop_spec (a b : @Object Val) (aProps : list string) :
  object_equals_loop aProps a b = true <->
  forall p, In p aProps -> strict_equals (read a p) (read b p) = true.
Proof.
  induction aProps as [|p aProps IH]; simpl.
  - split; [intros _ p []|reflexivity].
  - destruct (strict_equals (read a p) (read b p)) eqn:E; simpl.
    + rewrite IH. split.
      * intros Hall q [<-|Hq]; [exact E|now apply Hall].
      * intros Hall q Hq. apply Hall. now right.
    + split; [discriminate|]. intros Hall.
      rewrite <- E. apply Hall. now left.
Qed.

Lemma strict_equals_Undefined (x : @Value Val) :
  strict_equals x Undefined = true -> x = Undefined.
Proof. destruct x; simpl; congruence. Qed.

(** X16.  For an object [a] none of whose own properties holds
    [undefined], and an object [b] that inherits nothing under the names
    of [a] that it does not own, [object_equals(a, b)] is true exactly
    when [a] and [b] have the same own property names with values that are
    pairwise [===]; a property holding [NaN] makes the answer false. *)
Theorem object_equals_same_properties (a b : @Object Val) :
  wf (own a) = true -> wf (own b) = true ->
  (forall p, get (own a) p <> Some Undefined) ->
  (forall p, has (own a) p = true -> has (own b) p = false ->
             inherited b p = Undefined) ->
  (object_equals a b = true <->
   forall p, match get (own a) p, get (own b) p with
             | Some va, Some vb => strict_equals va vb = true
             | None, None => True
             | _, _ => False
             end).
Proof.
  intros Ha Hb Hdef Hplain. unfold object_equals.
  unfold wf in Ha, Hb. rewrite distinct_NoDup in Ha, Hb.
  destruct (Z.eqb_spec (Z.of_nat (List.length (keys (own a))))
              (Z.of_nat (List.length (keys (own b))))) as [E|E]; simpl.
  - rewrite object_equals_loop_spec. split.
    + intros Hall.
      assert (Hown : forall p va, get (own a) p = Some va ->
                exists vb, get (own b) p = Some vb
                           /\ strict_equals va vb = true).
      { intros p va Ea.
        assert (Hin : In p (keys (own a)))
          by (apply has_In; now rewrite has_get, Ea).
        specialize (Hall p Hin). unfold read in Hall. rewrite Ea in Hall.
        destruct (get (own b) p) as [vb|] eqn:Eb; [now exists vb|].
        rewrite Hplain in Hall.
        - apply strict_equals_Undefined in Hall. subst va.
          now destruct (Hdef p).
        - now rewrite has_get, Ea.
        - now rewrite has_get, Eb. }
      assert (Hincl : incl (keys (own a)) (keys (own b))).
      { intros q Hq. apply has_In in Hq. rewrite has_get in Hq.
        destruct (get (own a) q) as [va|] eqn:Ea; [|discriminate].
        destruct (Hown q va Ea) as (vb & Eb & _).
        apply has_In. now rewrite has_get, Eb. }
      assert (Hback : incl (keys (own b)) (keys (own a)))
        by (apply (NoDup_length_incl Ha); [lia|exact Hincl]).
      intros p. destruct (get (own a) p) as [va|] eqn:Ea.
      * destruct (Hown p va Ea) as (vb & -> & Hv). exact Hv.
      * destruct (get (own b) p) as [vb|] eqn:Eb; [|exact I].
        assert (Hbp : has (own b) p = true) by now rewrite has_get, Eb.
        apply has_In, Hback, has_In in Hbp. rewrite has_get, Ea in Hbp.
        discriminate.
    + intros Hall p Hin. apply has_In in Hin. rewrite has_get in Hin.
      specialize (Hall p). unfold read.
      destruct (get (own a) p) as [va|]; [|discriminate].
      destruct (get (own b) p) as [vb|]; [exact Hall|contradiction].
  - split; [discriminate|]. intros Hall. exfalso. apply E. f_equal.
    assert (Hsame : forall p, In p (keys (own a)) <-> In p (keys (own b))).
    { intros p. rewrite <- !has_In, !has_get. specialize (Hall p).
      destruct (get (own a) p), (get (own b) p); tauto. }
    apply Nat.le_antisymm; apply NoDup_incl_length; try assumption;
      intros p; apply Hsame.
Qed.

End ObjectFacts.

Lemma object_equals_same_properties_witness :
  let a : @Object nat :=
    {| own := [("x"%string, Other 1%nat); ("y"%string, Other 2%nat)];
       inherited := fun _ => Undefined |} in
  let b : @Object nat :=
    {| own := [("y"%string, Other 2%nat); ("x"%string, Other 1%nat)];
       inherited := fun _ => Undefined |} in
  object_equals a b = true <->
  forall p, match get (own a) p, get (own b) p with
            | Some va, Some vb => strict_equals va vb = true
            | None, None => True
            | _, _ => False
            end.
Proof.
  intros a b. apply (object_equals_same_properties a b).
  - reflexivity.
  - reflexivity.
  - intros p E. apply get_In in E. destruct E as [E|[E|[]]]; discriminate.
  - intros p _ _. reflexivity.
Defined.

(** An own property holding [undefined] equals a property that is not
    there: [object_equals({x: undefined}, {y: 1})] is true. *)
Lemma object_equals_undefined_property :
  @object_equals nat _
    {| own := [("x"%string, Undefined)]; inherited := fun _ => Undefined |}
    {| own := [("y"%string, Other 1%nat)]; inherited := fun _ => Undefined |}
  = true.
Proof. reflexivity. Qed.

End UtilMoreFacts.

(** ** The observable map *)

Module ObservableMapFacts.
Import JsMap JsMapFacts.

Section ObservableFacts.
Context {K V : Type} `{KeyEq K}.
Variable nullish : V -> bool.

Lemma delete_absent (m : JsMap.t K V) (k : K) :
  has m k = false -> JsMap.delete m k = m.
Proof.
  unfold has, JsMap.delete. induction m as [|e m IH]; [reflexivity|].
  simpl. intros Hh. apply orb_false_iff in Hh. destruct Hh as [-> Hh].
  simpl. f_equal. now apply IH.
Qed.

(** What the subscribers of [remove] and [change] get for one item without
    a new value: a removal when the old value is neither [null] nor
    [undefined], a change otherwise. *)
Lemma notify_gone (subs : ObservableMap.Subscriptions) (key : K)
  (old : option V) :
  let item :=
    {| ObservableMap.item_key := key; ObservableMap.item_new := None;
       ObservableMap.item_old := old |} in
  ObservableMap._notifyEvents nullish subs [item]
  = (if ObservableMap.batch_subs subs
     then [ObservableMap.Batch [item]] else [])
    ++ (if negb (ObservableMap.is_undefined nullish old)
        then (if ObservableMap.remove_subs subs
              then [ObservableMap.Remove item] else [])
        else (if ObservableMap.change_subs subs
              then [ObservableMap.Change item] else [])).
Proof.
  unfold ObservableMap._notifyEvents. simpl.
  destruct (ObservableMap.is_undefined nullish old),
           (ObservableMap.remove_subs subs),
           (ObservableMap.change_subs subs); simpl;
    rewrite ?app_nil_r; reflexivity.
Qed.

(** X17.  [delete(key)] answers whether the key was stored and leaves no
    binding for it, the other bindings being kept.  A key stored with a
    value other than [null] and [undefined] is announced to the remove
    subscribers with its old value; a key that was not stored, or was
    stored with [null] or [undefined], is announced to the change
    subscribers instead. *)
Theorem delete_reports (subs : ObservableMap.Subscriptions)
  (datasource : JsMap.t K V) (key : K) :
  let '(after, result, triggers) :=
    ObservableMap.delete nullish subs datasource key in
  let item :=
    {| ObservableMap.item_key := key; ObservableMap.item_new := None;
       ObservableMap.item_old := get datasource key |} in
  result = has datasource key
  /\ (forall k, get after k = if key_eqb key k then None else get datasource k)
  /\ triggers
     = (if ObservableMap.batch_subs subs
        then [ObservableMap.Batch [item]] else [])
       ++ (if match get datasource key with
              | Some v => negb (nullish v)
              | None => false
              end
           then (if ObservableMap.remove_subs subs
                 then [ObservableMap.Remove item] else [])
           else (if ObservableMap.change_subs subs
                 then [ObservableMap.Change item] else [])).
Proof.
  unfold ObservableMap.delete. rewrite (has_get datasource key).
  destruct (get datasource key) as [v|] eqn:Eg.
  - split; [reflexivity|]. split; [intros k; apply get_delete|].
    now rewrite notify_gone.
  - split; [reflexivity|]. split.
    + intros k. destruct (key_eqb key k) eqn:E; [|reflexivity].
      apply key_eqb_eq in E. now subst.
    + now rewrite notify_gone.
Qed.

(** X18.  [clear()] empties the map.  An empty map is cleared silently;
    otherwise the batch subscribers get one item per former entry, in
    order, each with the old value and no new one, and these items go one
    by one to the remove subscribers, except those of entries that held
    [null] or [undefined], which go to the change subscribers. *)
Theorem clear_reports (subs : ObservableMap.Subscriptions)
  (datasource : JsMap.t K V) :
  let item_of (e : K * V) :=
    {| ObservableMap.item_key := fst e; ObservableMap.item_new := None;
       ObservableMap.item_old := Some (snd e) |} in
  ObservableMap.clear nullish subs datasource
  = ([],
     if size datasource =? 0 then []
     else (if ObservableMap.batch_subs subs
           then [ObservableMap.Batch (map item_of datasource)] else [])
          ++ flat_map
               (fun e =>
                  if nullish (snd e)
                  then (if ObservableMap.change_subs subs
                        then [ObservableMap.Change (item_of e)] else [])
                  else (if ObservableMap.remove_subs subs
                        then [ObservableMap.Remove (item_of e)] else []))
               datasource).
Proof.
  cbv zeta. unfold ObservableMap.clear, ObservableMap._notifyEvents, size.
  rewrite length_map. unfold empty. f_equal.
  destruct (Z.of_nat (List.length datasource) =? 0); [reflexivity|].
  f_equal.
  induction datasource as [|e m IH].
  - now destruct (_ || _).
  - destruct (ObservableMap.remove_subs subs) eqn:Er,
             (ObservableMap.change_subs subs) eqn:Ec;
      cbn [orb map flat_map] in *; rewrite <- IH; simpl;
      destruct (nullish (snd e)); reflexivity.
Qed.

(** X19.  [set(key, value)] on a map without the key, followed by
    [delete(key)], gives back the map as it was, entry for entry, and
    [delete] answers [true].  The subscribers see the value come as a
    change with no old value, never as a removal; they see it go as a
    removal, never as a change, unless the value is [null] or
    [undefined], in which case it goes as a change as well. *)
Theorem set_then_delete (subs : ObservableMap.Subscriptions)
  (datasource : JsMap.t K V) (key : K) (value : V) :
  has datasource key = false ->
  let '(stored, set_triggers) :=
    ObservableMap.set nullish subs datasource key value in
  let '(after, result, delete_triggers) :=
    ObservableMap.delete nullish subs stored key in
  let came :=
    {| ObservableMap.item_key := key; ObservableMap.item_new := Some value;
       ObservableMap.item_old := None |} in
  let went :=
    {| ObservableMap.item_key := key; ObservableMap.item_new := None;
       ObservableMap.item_old := Some value |} in
  after = datasource /\ result = true
  /\ get stored key = Some value
  /\ set_triggers
     = (if ObservableMap.batch_subs subs
        then [ObservableMap.Batch [came]] else [])
       ++ (if ObservableMap.change_subs subs
           then [ObservableMap.Change came] else [])
  /\ delete_triggers
     = (if ObservableMap.batch_subs subs
        then [ObservableMap.Batch [went]] else [])
       ++ (if nullish value
           then (if ObservableMap.change_subs subs
                 then [ObservableMap.Change went] else [])
           else (if ObservableMap.remove_subs subs
                 then [ObservableMap.Remove went] else [])).
Proof.
  intros Hno. unfold ObservableMap.set, ObservableMap.delete.
  rewrite Hno, has_set, key_eqb_refl, get_set, key_eqb_refl.
  assert (Hfresh : ~ In key (keys datasource)).
  { intros Hin. apply has_In in Hin. congruence. }
  rewrite (set_fresh _ _ value Hfresh). cbv zeta.
  split; [|split; [reflexivity|split; [|split]]].
  - unfold JsMap.delete. rewrite filter_app. simpl.
    rewrite key_eqb_refl. simpl. rewrite app_nil_r.
    now apply delete_absent.
  - reflexivity.
  - unfold ObservableMap._notifyEvents. simpl.
    destruct (nullish value),
             (ObservableMap.remove_subs subs),
             (ObservableMap.change_subs subs); simpl;
      rewrite ?app_nil_r; reflexivity.
  - rewrite notify_gone. simpl. now destruct (nullish value).
Qed.

End ObservableFacts.

Lemma set_then_delete_witness :
  let nullish : option Z -> bool :=
    fun v => match v with Some _ => false | None => true end in
  let subs :=
    {| ObservableMap.batch_subs := true; ObservableMap.remove_subs := true;
       ObservableMap.change_subs := true |} in
  let datasource : JsMap.t nat (option Z) := [(1%nat, Some 10)] in
  let '(stored, set_triggers) :=
    ObservableMap.set nullish subs datasource 2%nat None in
  let '(after, result, delete_triggers) :=
    ObservableMap.delete nullish subs stored 2%nat in
  let came :=
    {| ObservableMap.item_key := 2%nat; ObservableMap.item_new := Some None;
       ObservableMap.item_old := None |} in
  let went :=
    {| ObservableMap.item_key := 2%nat; ObservableMap.item_new := None;
       ObservableMap.item_old := Some None |} in
  after = datasource /\ result = true
  /\ get stored 2%nat = Some None
  /\ set_triggers
     = (if ObservableMap.batch_subs subs
        then [ObservableMap.Batch [came]] else [])
       ++ (if ObservableMap.change_subs subs
           then [ObservableMap.Change came] else [])
  /\ delete_triggers
     = (if ObservableMap.batch_subs subs
        then [ObservableMap.Batch [went]] else [])
       ++ (if nullish None
           then (if ObservableMap.change_subs subs
                 then [ObservableMap.Change went] else [])
           else (if ObservableMap.remove_subs subs
                 then [ObservableMap.Remove went] else [])).
Proof.
  intros nullish subs datasource.
  apply (set_then_delete nullish subs datasource 2%nat None). reflexivity.
Defined.

End ObservableMapFacts.

(** ** The sequencers: active cues across callbacks *)

Module SequencerMoreFacts.
Import JsMap JsMapFacts Util UtilFacts Sequencing SequencingSpec.

Section KeyedMaps.
Context {C : Collaborators}.

Lemma entry_key (x : JsMap.t Key Cue) :
  keyed x -> forall k cue, In (k, cue) x -> cue_key cue = k.
Proof. intros [Hwf Hk] k cue Hin. apply Hk. now apply In_get. Qed.

Lemma keyed_empty : keyed (@empty Key Cue).
Proof. split; [reflexivity|discriminate]. Qed.

Lemma keyed_set (m : JsMap.t Key Cue) (cue : Cue) :
  keyed m -> keyed (set m (cue_key cue) cue).
Proof.
  intros [Hwf Hk]. split; [now apply wf_set|].
  intros k c. rewrite get_set. destruct (key_eqb (cue_key cue) k) eqn:E.
  - intros [= <-]. now apply key_eqb_eq.
  - apply Hk.
Qed.

Lemma keyed_delete (m : JsMap.t Key Cue) (k : Key) :
  keyed m -> keyed (delete m k).
Proof.
  intros [Hwf Hk]. split; [now apply wf_delete|].
  intros k' c. rewrite get_delete.
  destruct (key_eqb k k'); [discriminate|apply Hk].
Qed.

Lemma keyed_cue_map (cues : list Cue) : keyed (cue_map cues).
Proof.
  split; [apply wf_from_entries|].
  intros k cue Hg. apply get_In, In_from_entries, in_map_iff in Hg.
  destruct Hg as (c & E & _). now inversion E.
Qed.

Lemma keyed_map_difference (a b : JsMap.t Key Cue) :
  keyed a -> keyed (map_difference a b).
Proof.
  intros [Hwf Hk]. split; [now apply wf_map_difference|].
  intros k cue. rewrite get_map_difference by assumption.
  destruct (has b k); [discriminate|apply Hk].
Qed.

Lemma keyed_fold_delete (evs : list Event) :
  forall m : JsMap.t Key Cue,
    keyed m -> keyed (fold_left (fun m item => delete m (ev_key item)) evs m).
Proof.
  induction evs as [|e evs IH]; intros m Hm; [exact Hm|].
  simpl. apply IH. now apply keyed_delete.
Qed.

Lemma keyed_fold_set (cues : list Cue) :
  forall m : JsMap.t Key Cue,
    keyed m -> keyed (fold_left (fun m cue => set m (cue_key cue) cue) cues m).
Proof.
  induction cues as [|c cues IH]; intros m Hm; [exact Hm|].
  simpl. apply IH. now apply keyed_set.
Qed.

Lemma get_fold_set_entries {W : Type} (f : Cue -> W) (x : list (Key * Cue)) :
  NoDup (map fst x) ->
  (forall k cue, In (k, cue) x -> cue_key cue = k) ->
  forall (m : JsMap.t Key W) (k : Key),
    get (fold_left (fun m cue => set m (cue_key cue) (f cue)) (map snd x) m) k
    = match get x k with Some cue => Some (f cue) | None => get m k end.
Proof.
  induction x as [|[k0 c0] x IH]; intros Hnd Hkey m k; [reflexivity|].
  simpl in *. inversion Hnd as [|? ? Hnot Hnd']; subst.
  rewrite IH; [|assumption|intros; apply Hkey; now right].
  rewrite get_set, (Hkey k0 c0) by (now left).
  destruct (key_eqb k0 k) eqn:E; [|reflexivity].
  apply key_eqb_eq in E. subst k0.
  destruct (get x k) as [c|] eqn:Eg; [|reflexivity].
  exfalso. apply Hnot. apply get_In in Eg.
  change k with (fst (k, c)). now apply in_map.
Qed.

Lemma get_fold_set_values {W : Type} (f : Cue -> W) (x : JsMap.t Key Cue) :
  keyed x ->
  forall (m : JsMap.t Key W) (k : Key),
    get (fold_left (fun m cue => set m (cue_key cue) (f cue)) (values x) m) k
    = match get x k with Some cue => Some (f cue) | None => get m k end.
Proof.
  intros Hx. apply get_fold_set_entries.
  - apply distinct_NoDup. apply Hx.
  - now apply entry_key.
Qed.

Lemma get_fold_delete (evs : list Event) :
  forall (m : JsMap.t Key Cue) (k : Key),
    get (fold_left (fun m item => delete m (ev_key item)) evs m) k
    = if existsb (fun item => key_eqb (ev_key item) k) evs
      then None else get m k.
Proof.
  induction evs as [|e evs IH]; intros m k; [reflexivity|].
  simpl. rewrite IH, get_delete.
  destruct (key_eqb (ev_key e) k); simpl; [|reflexivity].
  now destruct (existsb _ evs).
Qed.

Lemma exit_events_keys (x : JsMap.t Key Cue) (k : Key) :
  keyed x ->
  existsb (fun item => key_eqb (ev_key item) k)
    (map (fun cue => exit_event (cue_key cue) (Some cue)) (values x))
  = has x k.
Proof.
  intros Hx. pose proof (entry_key x Hx) as Hkey. clear Hx.
  unfold has, values. induction x as [|[k0 c0] x IH]; [reflexivity|].
  simpl. rewrite (Hkey k0 c0) by (now left). f_equal.
  apply IH. intros; apply Hkey; now right.
Qed.

Lemma fold_enter_events (cues : list Cue) :
  forall m : JsMap.t Key Cue,
    fold_left (fun m item =>
                 match ev_new item with
                 | Some cue => set m (ev_key item) cue
                 | None => m
                 end)
      (map (fun cue => enter_event (cue_key cue) (Some cue)) cues) m
    = fold_left (fun m cue => set m (cue_key cue) cue) cues m.
Proof.
  induction cues as [|c cues IH]; intros m; [reflexivity|]. simpl. apply IH.
Qed.

(** The events about one key among those made from the cues of a map. *)
Lemma filter_key_entries (g : Cue -> Event) (x : list (Key * Cue))
  (k : Key) :
  (forall cue, ev_key (g cue) = cue_key cue) ->
  NoDup (map fst x) ->
  (forall k' cue, In (k', cue) x -> cue_key cue = k') ->
  filter (fun e => key_eqb (ev_key e) k) (map g (map snd x))
  = match get x k with Some cue => [g cue] | None => [] end.
Proof.
  intros Hg. induction x as [|[k0 c0] x IH]; intros Hnd Hkey; [reflexivity|].
  cbn [map snd filter get]. rewrite Hg, (Hkey k0 c0) by (now left).
  inversion Hnd as [|? ? Hnot Hnd']; subst.
  rewrite IH; [|assumption|intros; apply Hkey; now right].
  destruct (key_eqb k0 k) eqn:E; [|reflexivity].
  apply key_eqb_eq in E. subst k0.
  destruct (get x k) as [c|] eqn:Eg; [|reflexivity].
  exfalso. apply Hnot. apply get_In in Eg.
  change k with (fst (k, c)). now apply in_map.
Qed.

Lemma filter_key_values (g : Cue -> Event) (x : JsMap.t Key Cue) (k : Key) :
  (forall cue, ev_key (g cue) = cue_key cue) ->
  keyed x ->
  filter (fun e => key_eqb (ev_key e) k) (map g (values x))
  = match get x k with Some cue => [g cue] | None => [] end.
Proof.
  intros Hg Hx. apply filter_key_entries; [exact Hg| |now apply entry_key].
  apply distinct_NoDup. apply Hx.
Qed.

Lemma notify_match (events : list Event) :
  notify events = match events with [] => [] | _ :: _ => [events] end.
Proof. now destruct events. Qed.

Lemma map_difference_empty_r (a : JsMap.t Key Cue) :
  map_difference a [] = a.
Proof.
  unfold map_difference. destruct (Z.eqb_spec (size a) 0) as [E|E].
  - apply size_zero in E. now subst.
  - reflexivity.
Qed.

End KeyedMaps.

(** *** The single sequencer *)

Section SingleMore.
Context {C : Collaborators}.
Import SingleSequencer SingleSequencerFacts.

(** The active cues [_onAxisCallback] leaves behind, when it returns. *)
Lemma _onAxisCallback_result (this : t) (eventMap : JsMap.t Key AxisItem) :
  let now_vector :=
    calculateVector (vector (_to this)) (now (clock (_to this))) in
  let covering :=
    cue_map (lookup (_axis this) (Interval_point (position now_vector))) in
  let active' :=
    fold_left (fun m cue => set m (cue_key cue) cue)
      (values (map_difference covering (_activeCues this)))
      (fold_left (fun m item => delete m (ev_key item))
         (map (fun cue => exit_event (cue_key cue) (Some cue))
            (values (map_difference (_activeCues this) covering)))
         (_activeCues this)) in
  match _get_events_from_axis_events this eventMap (position now_vector) with
  | None =>
      _onAxisCallback this eventMap
      = Throw (TypeError "undefined is not iterable")
  | Some _ =>
      exists sent,
        _onAxisCallback this eventMap
        = Normal (with_sched (with_activeCues this active')
                    (setVector (_sched this) now_vector), sent)
  end.
Proof.
  intros now_vector covering active'. unfold _onAxisCallback.
  fold now_vector.
  destruct (_get_events_from_axis_events this eventMap (position now_vector));
    [|reflexivity].
  unfold _get_events_from_axis_lookup. fold covering.
  destruct (Z.eqb_spec (size (_activeCues this)) 0) as [E|E].
  - cbv beta iota zeta delta [negb]. rewrite fold_enter_events.
    eexists. do 2 f_equal. unfold active'.
    apply size_zero in E. rewrite E.
    rewrite map_difference_empty_r. reflexivity.
  - cbv beta iota zeta delta [negb]. rewrite fold_enter_events.
    eexists. reflexivity.
Qed.

Lemma keyed_schedule_item (acc : JsMap.t Key Cue * list Event)
  (item : EndpointItem) :
  keyed (fst acc) -> keyed (fst (schedule_item acc item)).
Proof.
  destruct acc as [m evs]. unfold schedule_item. cbv zeta. simpl fst.
  intros Hk.
  destruct (ep_singular (ei_endpoint item)),
           (has m (cue_key (ei_cue item))),
           (0 <? ei_direction item
                 * (if ep_right (ei_endpoint item) then -1 else 1)); simpl;
    auto using keyed_set, keyed_delete.
Qed.

Lemma _onScheduleCallback_active (this : t) (items : list EndpointItem) :
  _activeCues (fst (_onScheduleCallback this items))
  = fst (fold_left schedule_item items (_activeCues this, [])).
Proof.
  unfold _onScheduleCallback.
  now destruct (fold_left schedule_item items (_activeCues this, [])).
Qed.

Lemma keyed_step (this : t) (i : Input) :
  keyed (_activeCues this) -> keyed (_activeCues (step this i)).
Proof.
  intros Hk. destruct i as [to init|eventMap|items]; simpl.
  - destruct to as [to|]; [|exact Hk]. unfold _onTimingCallback.
    destruct (PosDelta_eqb _ _ || MoveDelta_eqb _ _); simpl;
      [apply keyed_cue_map|exact Hk].
  - pose proof (_onAxisCallback_result this eventMap) as Hres.
    cbv zeta in Hres.
    destruct (_get_events_from_axis_events this eventMap _).
    + destruct Hres as [sent ->]. simpl.
      apply keyed_fold_set, keyed_fold_delete, Hk.
    + rewrite Hres. exact Hk.
  - rewrite _onScheduleCallback_active.
    assert (Hgen : forall acc : JsMap.t Key Cue * list Event,
              keyed (fst acc) ->
              keyed (fst (fold_left schedule_item items acc))).
    { induction items as [|item items IH]; intros acc Ha; [exact Ha|].
      simpl. apply IH. now apply keyed_schedule_item. }
    now apply Hgen.
Qed.

(** X20.  The active cues of a single sequencer stay a map without
    repeated keys in which every key is bound to a cue carrying that key,
    whatever timing changes, axis updates and schedule callbacks arrive,
    including those whose handler throws. *)
Theorem active_cues_keyed (this : t) (inputs : list Input) :
  keyed (_activeCues this) -> keyed (_activeCues (run this inputs)).
Proof.
  unfold run. revert this.
  induction inputs as [|i inputs IH]; intros this Hk; [exact Hk|].
  simpl. apply IH. now apply keyed_step.
Qed.

(** X21.  An axis update without noop items returns, rearms the schedule
    at the current vector, and leaves active exactly the keys the axis
    returns for the current position.  A key that was active before and
    still is keeps the cue that was stored for it; the cue the axis now
    returns is stored only for the keys that enter. *)
Theorem axis_callback_active_cues (this : t)
  (eventMap : JsMap.t Key AxisItem) :
  let now_vector :=
    calculateVector (vector (_to this)) (now (clock (_to this))) in
  let covering :=
    cue_map (lookup (_axis this) (Interval_point (position now_vector))) in
  keyed (_activeCues this) ->
  existsb (fun item => isNoop (it_delta item)) (values eventMap) = false ->
  exists this' sent,
    _onAxisCallback this eventMap = Normal (this', sent)
    /\ _sched this' = setVector (_sched this) now_vector
    /\ (forall k, has (_activeCues this') k = has covering k)
    /\ (forall k, get (_activeCues this') k
                  = if has (_activeCues this) k
                    then (if has covering k
                          then get (_activeCues this) k else None)
                    else get covering k).
Proof.
  intros now_vector covering Hk Hnoop.
  pose proof (_onAxisCallback_result this eventMap) as Hres.
  cbv zeta in Hres. fold now_vector in Hres. fold covering in Hres.
  unfold _get_events_from_axis_events in Hres.
  rewrite axis_events_loop_classifies in Hres by exact Hnoop.
  destruct Hres as [sent Hres].
  eexists. exists sent. split; [exact Hres|]. split; [reflexivity|].
  simpl _activeCues.
  assert (Hkc : keyed covering) by apply keyed_cue_map.
  assert (Hget : forall k,
    get (fold_left (fun m cue => set m (cue_key cue) cue)
           (values (map_difference covering (_activeCues this)))
           (fold_left (fun m item => delete m (ev_key item))
              (map (fun cue => exit_event (cue_key cue) (Some cue))
                 (values (map_difference (_activeCues this) covering)))
              (_activeCues this))) k
    = if has (_activeCues this) k
      then (if has covering k then get (_activeCues this) k else None)
      else get covering k).
  { intros k.
    pose proof (get_fold_set_values (fun cue => cue)
                  (map_difference covering (_activeCues this))
                  (keyed_map_difference _ _ Hkc)) as Hset.
    cbv beta in Hset. rewrite Hset.
    rewrite get_fold_delete, exit_events_keys
      by (now apply keyed_map_difference).
    rewrite (has_get (map_difference _ covering)).
    rewrite !get_map_difference by (apply Hk || apply Hkc).
    rewrite (has_get (_activeCues this) k), (has_get covering k).
    destruct (get (_activeCues this) k), (get covering k); reflexivity. }
  split; [|exact Hget].
  intros k. rewrite (has_get _ k), Hget, (has_get covering k).
  rewrite (has_get (_activeCues this) k).
  destruct (get (_activeCues this) k), (get covering k); reflexivity.
Qed.

(** X28.  If the identifier [to] that [_onTimingCallback] reads were bound
    to a timing object, a timing change with a position change or a stop,
    on active cues keyed by their own keys, would return, replace the
    active cues by the cues the axis returns for the new position, rearm
    the schedule, and send one notification (none when nothing changed)
    holding, for every key, exactly one exit event when the key is no
    longer covered, exactly one enter event when it is newly covered, and
    nothing otherwise. *)
Theorem timing_change_recomputes (to : TimingObject) (this : t)
  (eInfo_init : bool) :
  let new_vector :=
    if eInfo_init then calculateVector (vector to) (now (clock to))
    else vector to in
  let delta := MotionDelta (old_vector to) new_vector in
  let p := position new_vector in
  let covering := cue_map (lookup (_axis this) (Interval_new p p true true)) in
  PosDelta_eqb (fst delta) PosDelta_CHANGE
  || MoveDelta_eqb (snd delta) MoveDelta_STOP = true ->
  keyed (_activeCues this) ->
  exists events,
    _onTimingCallback (Some to) this eInfo_init
    = Normal (with_sched (with_activeCues this covering)
                (setVector (_sched this) new_vector),
              match events with [] => [] | _ :: _ => [events] end)
    /\ forall k,
         filter (fun e => key_eqb (ev_key e) k) events
         = match get (_activeCues this) k, get covering k with
           | Some cue, None => [exit_event k (Some cue)]
           | None, Some cue => [enter_event k (Some cue)]
           | _, _ => []
           end.
Proof.
  intros new_vector delta p covering Hjump Hk.
  assert (Hkc : keyed covering) by apply keyed_cue_map.
  unfold _onTimingCallback. fold new_vector. fold delta. rewrite Hjump.
  fold p. fold covering. cbv zeta. rewrite notify_match.
  eexists. split; [reflexivity|].
  intros k. rewrite filter_app.
  rewrite (filter_key_values
             (fun cue => exit_event (cue_key cue) (Some cue)))
    by (auto using keyed_map_difference).
  rewrite (filter_key_values
             (fun cue => enter_event (cue_key cue) (Some cue)))
    by (auto using keyed_map_difference).
  rewrite !get_map_difference by (apply Hk || apply Hkc).
  rewrite (has_get (_activeCues this) k), (has_get covering k).
  destruct (get (_activeCues this) k) as [c|] eqn:Eo;
    destruct (get covering k) as [c'|] eqn:Ec; try reflexivity.
  - destruct Hk as [_ Hkey]. now rewrite (Hkey _ _ Eo).
  - destruct Hkc as [_ Hkey]. now rewrite (Hkey _ _ Ec).
Qed.

Lemma has_schedule_item (acc : JsMap.t Key Cue * list Event)
  (item : EndpointItem) (k : Key) :
  has (fst (schedule_item acc item)) k
  = if key_eqb (cue_key (ei_cue item)) k then item_enters item
    else has (fst acc) k.
Proof.
  destruct acc as [m evs]. unfold schedule_item, item_enters. cbv zeta.
  simpl fst.
  destruct (key_eqb (cue_key (ei_cue item)) k) eqn:E.
  - apply key_eqb_eq in E. subst k.
    destruct (ep_singular (ei_endpoint item)),
             (has m (cue_key (ei_cue item))) eqn:Eh,
             (0 <? ei_direction item
                 * (if ep_right (ei_endpoint item) then -1 else 1)); simpl;
      rewrite ?has_set, ?has_delete, ?key_eqb_refl; auto.
  - destruct (ep_singular (ei_endpoint item)),
             (has m (cue_key (ei_cue item))) eqn:Eh,
             (0 <? ei_direction item
                 * (if ep_right (ei_endpoint item) then -1 else 1)); simpl;
      rewrite ?has_set, ?has_delete, ?E; auto.
Qed.

(** X22.  After a batch of due events, whether a key is active is decided
    by the last event of the batch for a cue with this key: the key is
    active when that event is on a non-singular endpoint passed inwards,
    and inactive otherwise.  A key no event of the batch is about is
    active exactly when it was before. *)
Theorem schedule_batch_last_item (this : t) (items : list EndpointItem)
  (k : Key) :
  has (_activeCues (fst (_onScheduleCallback this items))) k
  = fold_left (fun active item =>
                 if key_eqb (cue_key (ei_cue item)) k
                 then item_enters item else active)
      items (has (_activeCues this) k).
Proof.
  rewrite _onScheduleCallback_active.
  change (has (_activeCues this) k)
    with (has (fst (_activeCues this, @nil Event)) k).
  generalize (_activeCues this, @nil Event).
  induction items as [|item items IH]; intros acc; [reflexivity|].
  simpl. rewrite IH, has_schedule_item. reflexivity.
Qed.

End SingleMore.

(** *** The double sequencer *)

Section DoubleMore.
Context {C : Collaborators}.
Import DoubleSequencer.

Lemma _onTimingUpdate_undefined (heap : Heap) (this : t) (to : Ref)
  (new_vector : Vector) :
  _activeCues this = None ->
  _activeCues (fst (_onTimingUpdate heap this to new_vector)) = None
  /\ exists e, snd (_onTimingUpdate heap this to new_vector) = Throw e.
Proof.
  intros Hu. unfold _onTimingUpdate. rewrite Hu.
  destruct (PosDelta_eqb _ PosDelta_CHANGE); [simpl; eauto|].
  destruct (Nat.eqb to (_toA this));
    [destruct (_scheduleA this)
    |destruct (Nat.eqb to (_toB this)); [destruct (_scheduleB this)|]];
    simpl; eauto.
Qed.

Lemma _onTimingUpdateWrapper_undefined (heap : Heap) (this : t)
  (eInfo : EInfo) :
  _activeCues this = None ->
  _activeCues (fst (_onTimingUpdateWrapper heap this eInfo)) = None.
Proof.
  intros Hu. unfold _onTimingUpdateWrapper.
  match goal with
  | |- context [if isReady ?x then _ else _] =>
      assert (H1 : _activeCues x = None); [|destruct (isReady x)]
  end.
  - destruct (negb (_ready this)); [|exact Hu].
    destruct (Nat.eqb (src eInfo) (_toA this)); simpl.
    + now destruct (_toB_ready this).
    + destruct (Nat.eqb (src eInfo) (_toB this)); simpl.
      * now destruct (_toA_ready this).
      * now destruct (_toA_ready this && _toB_ready this).
  - now apply _onTimingUpdate_undefined.
  - exact H1.
Qed.

(** X23.  A timing update that is not a position jump ends in a
    [TypeError], the change map being built from cue sets that were never
    assigned; with both schedules in place it has by then rearmed the
    schedule of the timing object and overwritten the active cues with
    [undefined]. *)
Theorem update_without_jump_throws (heap : Heap) (this : t) (to : Ref)
  (new_vector : Vector) (scheduleA scheduleB : Schedule) :
  PosDelta_eqb (fst (MotionDelta (old_vector (heap to)) new_vector))
    PosDelta_CHANGE = false ->
  _scheduleA this = Some scheduleA ->
  _scheduleB this = Some scheduleB ->
  exists this',
    _onTimingUpdate heap this to new_vector
    = (this', Throw (TypeError "cannot read values of undefined"))
    /\ _activeCues this' = None
    /\ _ready this' = _ready this
    /\ _scheduleA this'
       = (if Nat.eqb to (_toA this)
          then Some (setVector scheduleA new_vector) else Some scheduleA)
    /\ _scheduleB this'
       = (if Nat.eqb to (_toA this) then Some scheduleB
          else if Nat.eqb to (_toB this)
               then Some (setVector scheduleB new_vector)
               else Some scheduleB).
Proof.
  intros Hsteady HA HB. unfold _onTimingUpdate. rewrite Hsteady, HA, HB.
  destruct (Nat.eqb to (_toA this));
    [|destruct (Nat.eqb to (_toB this))];
    eexists; (split; [reflexivity|]); simpl; auto.
Qed.

(** X24.  Once the active cues of a double sequencer are [undefined], they
    stay so under every sequence of timing changes, axis updates and
    schedule callbacks, and every timing update from then on throws. *)
Theorem active_cues_never_recover (this : t) (inputs : list Input) :
  _activeCues this = None ->
  _activeCues (run this inputs) = None
  /\ forall heap to new_vector,
       exists e,
         snd (_onTimingUpdate heap (run this inputs) to new_vector) = Throw e.
Proof.
  intros Hu.
  assert (Hrun : _activeCues (run this inputs) = None).
  { unfold run. revert this Hu.
    induction inputs as [|i inputs IH]; intros this Hu; [exact Hu|].
    simpl. apply IH. destruct i as [heap eInfo|batchMap|due schedule]; simpl.
    - now apply _onTimingUpdateWrapper_undefined.
    - exact Hu.
    - exact Hu. }
  split; [exact Hrun|].
  intros heap to new_vector.
  now apply _onTimingUpdate_undefined.
Qed.

(** X25.  A timing update that is a position jump, on a double sequencer
    with both schedules in place and active cues keyed by their own keys,
    returns: the active cues become the cues the axis returns for the
    closed interval between the positions of the two timing objects, and
    the change map sent has an exit entry for every key that was active and
    is not any more, an enter entry for every key that is newly active, and
    nothing for the other keys. *)
Theorem jump_replaces_active_cues (heap : Heap) (this : t) (to : Ref)
  (new_vector : Vector) (old : JsMap.t Key Cue)
  (scheduleA scheduleB : Schedule) :
  let other_to := if Nat.eqb to (_toA this) then _toB this else _toA this in
  let other_new_vector :=
    calculateVector (vector (heap other_to)) (timestamp new_vector) in
  let low := pos_min (position new_vector) (position other_new_vector) in
  let high := pos_max (position new_vector) (position other_new_vector) in
  let covering :=
    cue_map (lookup (_axis this) (Interval_new low high true true)) in
  PosDelta_eqb (fst (MotionDelta (old_vector (heap to)) new_vector))
    PosDelta_CHANGE = true ->
  _activeCues this = Some old ->
  keyed old ->
  _scheduleA this = Some scheduleA ->
  _scheduleB this = Some scheduleB ->
  exists this' changeMap,
    _onTimingUpdate heap this to new_vector = (this', Normal [changeMap])
    /\ _activeCues this' = Some covering
    /\ forall k,
         get changeMap k
         = match get old k, get covering k with
           | Some cue, None => Some (exit_event k (Some cue))
           | None, Some cue => Some (enter_event k (Some cue))
           | _, _ => None
           end.
Proof.
  intros other_to other_new_vector low high covering Hjump Hold Hk HA HB.
  assert (Hkc : keyed covering) by apply keyed_cue_map.
  assert (Hmap : forall k,
    get (fold_left (fun m cue =>
                      set m (cue_key cue) (enter_event (cue_key cue) (Some cue)))
           (values (map_difference covering old))
           (fold_left (fun m cue =>
                         set m (cue_key cue)
                           (exit_event (cue_key cue) (Some cue)))
              (values (map_difference old covering)) empty)) k
    = match get old k, get covering k with
      | Some cue, None => Some (exit_event k (Some cue))
      | None, Some cue => Some (enter_event k (Some cue))
      | _, _ => None
      end).
  { intros k.
    pose proof (get_fold_set_values
                  (fun cue => enter_event (cue_key cue) (Some cue))
                  (map_difference covering old)
                  (keyed_map_difference _ _ Hkc)) as Henter.
    pose proof (get_fold_set_values
                  (fun cue => exit_event (cue_key cue) (Some cue))
                  (map_difference old covering)
                  (keyed_map_difference _ _ Hk)) as Hexit.
    cbv beta in Henter, Hexit. rewrite Henter, Hexit.
    rewrite !get_map_difference by (apply Hk || apply Hkc).
    rewrite (has_get old k), (has_get covering k).
    destruct (get old k) as [c|] eqn:Eo;
      destruct (get covering k) as [c'|] eqn:Ec; try reflexivity.
    - destruct Hk as [_ Hkey]. now rewrite (Hkey _ _ Eo).
    - destruct Hkc as [_ Hkey]. now rewrite (Hkey _ _ Ec). }
  unfold _onTimingUpdate. rewrite Hjump, Hold, HA, HB.
  fold other_to. fold other_new_vector. fold low. fold high. fold covering.
  destruct (Nat.eqb to (_toA this));
    [|destruct (Nat.eqb to (_toB this))];
    eexists; eexists; (split; [reflexivity|]); (split; [reflexivity|]);
    exact Hmap.
Qed.

End DoubleMore.

(** *** Runs on the sample instance *)

Import Sample.

Lemma active_cues_keyed_witness :
  keyed (SingleSequencer._activeCues
           (SingleSequencer.run sample_sequencer
              [SingleSequencer.ScheduleCallback [low_item; singular_item];
               SingleSequencer.AxisUpdate change_eventMap;
               SingleSequencer.TimingChange (Some jumped) false])).
Proof.
  apply (active_cues_keyed sample_sequencer).
  split; [reflexivity|discriminate].
Defined.

Lemma axis_callback_active_cues_witness :
  let this :=
    SingleSequencer.with_activeCues sample_sequencer [(2%nat, cueB0)] in
  let covering :=
    cue_map (lookup (SingleSequencer._axis this)
               (@Interval_point collaborators 5)) in
  exists this' sent,
    SingleSequencer._onAxisCallback this change_eventMap
    = Normal (this', sent)
    /\ SingleSequencer._sched this'
       = setVector (SingleSequencer._sched this) at5
    /\ (forall k, has (SingleSequencer._activeCues this') k = has covering k)
    /\ (forall k, get (SingleSequencer._activeCues this') k
                  = if has (SingleSequencer._activeCues this) k
                    then (if has covering k
                          then get (SingleSequencer._activeCues this) k
                          else None)
                    else get covering k).
Proof.
  intros this covering.
  apply (axis_callback_active_cues this change_eventMap).
  - split; [reflexivity|].
    intros k cue. destruct k as [|[|[|k]]]; simpl; try discriminate.
    intros [= <-]. reflexivity.
  - reflexivity.
Defined.

Lemma timing_change_recomputes_witness :
  let this :=
    SingleSequencer.with_activeCues sample_sequencer [(2%nat, cueB)] in
  let covering :=
    @cue_map collaborators (axis_lookup [cueA; cueB] (closed 25 25)) in
  exists events,
    SingleSequencer._onTimingCallback (Some jumped) this false
    = Normal (SingleSequencer.with_sched
                (SingleSequencer.with_activeCues this covering)
                (setVector (SingleSequencer._sched this) at25),
              match events with [] => [] | _ :: _ => [events] end)
    /\ forall k,
         filter (fun e => key_eqb (ev_key e) k) events
         = match get (SingleSequencer._activeCues this) k, get covering k with
           | Some cue, None => [exit_event k (Some cue)]
           | None, Some cue => [enter_event k (Some cue)]
           | _, _ => []
           end.
Proof.
  intros this covering.
  apply (timing_change_recomputes jumped this false).
  - reflexivity.
  - split; [reflexivity|].
    intros k cue. destruct k as [|[|[|k]]]; simpl; try discriminate.
    intros [= <-]. reflexivity.
Defined.

Lemma axis_strategies_agree_witness :
  let this :=
    SingleSequencer.with_activeCues sample_sequencer [(2%nat, cueB0)] in
  exists exit1 change1 enter1,
    SingleSequencer._get_events_from_axis_events this change_eventMap 5
    = Some (exit1, change1, enter1)
    /\ let '(exit2, change2, enter2) :=
         SingleSequencer._get_events_from_axis_lookup
           this change_eventMap 5 true in
       (In 2%nat (SingleSequencer.event_keys exit1)
        <-> In 2%nat (SingleSequencer.event_keys exit2))
       /\ (In 2%nat (SingleSequencer.event_keys change1)
           <-> In 2%nat (SingleSequencer.event_keys change2))
       /\ (In 2%nat (SingleSequencer.event_keys enter1)
           <-> In 2%nat (SingleSequencer.event_keys enter2)).
Proof.
  intros this.
  apply (SingleSequencerFacts.axis_strategies_agree this change_eventMap 5).
  - split; [reflexivity|]. split; [reflexivity|]. split; [|split].
    + intros k item. destruct k as [|[|[|k]]]; vm_compute; try discriminate.
      intros [= <-]. split; reflexivity.
    + intros k cue. destruct k as [|[|[|k]]]; vm_compute; try discriminate.
      intros [= <-]. reflexivity.
    + intros k. destruct k as [|[|[|k]]]; vm_compute; try discriminate;
        intros _; reflexivity.
  - reflexivity.
Defined.

Lemma update_without_jump_throws_witness :
  let noSchedule : @Schedule collaborators := None in
  exists this',
    DoubleSequencer._onTimingUpdate sample_heap sample_double 1%nat at5
    = (this', Throw (TypeError "cannot read values of undefined"))
    /\ DoubleSequencer._activeCues this' = None
    /\ DoubleSequencer._ready this' = DoubleSequencer._ready sample_double
    /\ DoubleSequencer._scheduleA this'
       = (if Nat.eqb 1 (DoubleSequencer._toA sample_double)
          then Some (setVector noSchedule at5) else Some noSchedule)
    /\ DoubleSequencer._scheduleB this'
       = (if Nat.eqb 1 (DoubleSequencer._toA sample_double) then Some noSchedule
          else if Nat.eqb 1 (DoubleSequencer._toB sample_double)
               then Some (setVector noSchedule at5)
               else Some noSchedule).
Proof.
  intros noSchedule.
  apply (update_without_jump_throws sample_heap sample_double 1%nat at5
           noSchedule noSchedule); reflexivity.
Defined.

Lemma active_cues_never_recover_witness :
  let this :=
    fst (DoubleSequencer._onTimingUpdate sample_heap sample_double 1%nat at5) in
  let inputs :=
    [DoubleSequencer.TimingChange jump_heap
       {| DoubleSequencer.src := 2%nat; DoubleSequencer.init := false |};
     DoubleSequencer.AxisUpdate []] in
  DoubleSequencer._activeCues (DoubleSequencer.run this inputs) = None
  /\ forall heap to new_vector,
       exists e,
         snd (DoubleSequencer._onTimingUpdate heap
                (DoubleSequencer.run this inputs) to new_vector) = Throw e.
Proof.
  intros this inputs.
  apply (active_cues_never_recover this inputs). reflexivity.
Defined.

Lemma jump_replaces_active_cues_witness :
  let covering :=
    @cue_map collaborators (axis_lookup [cueA; cueB] (closed 5 25)) in
  exists this' changeMap,
    DoubleSequencer._onTimingUpdate
      (fun r => if Nat.eqb r 1 then jumped else sample_heap r)
      sample_double 1%nat at25
    = (this', Normal [changeMap])
    /\ DoubleSequencer._activeCues this' = Some covering
    /\ forall k,
         get changeMap k
         = match get [(2%nat, cueB)] k, get covering k with
           | Some cue, None => Some (exit_event k (Some cue))
           | None, Some cue => Some (enter_event k (Some cue))
           | _, _ => None
           end.
Proof.
  intros covering.
  apply (jump_replaces_active_cues
           (fun r => if Nat.eqb r 1 then jumped else sample_heap r)
           sample_double 1%nat at25 [(2%nat, cueB)]
           (None : @Schedule collaborators)
           (None : @Schedule collaborators)).
  - reflexivity.
  - reflexivity.
  - split; [reflexivity|].
    intros k cue. destruct k as [|[|[|k]]]; simpl; try discriminate.
    intros [= <-]. reflexivity.
  - reflexivity.
  - reflexivity.
Defined.

End SequencerMoreFacts.

(** ** [array_concat] *)

Module ConcatFacts.
Import Util.

Section ConcatFacts.
Context {V : Type}.

Lemma firstn_length_app {A : Type} (p t : list A) :
  firstn (List.length p) (p ++ t) = p.
Proof. induction p as [|a p IH]; simpl; [reflexivity|now f_equal]. Qed.

Lemma skipn_length_app {A : Type} (p t : list A) :
  skipn (List.length p) (p ++ t) = t.
Proof. induction p as [|a p IH]; simpl; [reflexivity|exact IH]. Qed.

Lemma firstn_S_nth {A : Type} (l : list A) (j : nat) (e : A) :
  nth_error l j = Some e -> firstn (S j) l = firstn j l ++ [e].
Proof.
  revert j. induction l as [|a l IH]; intros [|j] E; try discriminate.
  - simpl in *. now inversion E.
  - simpl in *. f_equal. now apply IH.
Qed.

Lemma slot_nth (l : @Slots V) (j : nat) (e : option V) :
  nth_error l j = Some e -> slot l (Z.of_nat j) = e.
Proof.
  intros E. unfold slot, Js.get.
  destruct (Z.ltb_spec (Z.of_nat j) 0); [lia|]. now rewrite Nat2Z.id, E.
Qed.

(** A write into the slot right after [p]. *)
Lemma store_next (p t : @Slots V) (x v : option V) :
  store (p ++ x :: t) (Js.length p) v = p ++ v :: t.
Proof.
  unfold store, Js.length. rewrite length_app. simpl List.length.
  destruct (Z.ltb_spec (Z.of_nat (List.length p))
              (Z.of_nat (List.length p + S (List.length t)))) as [_|Hge];
    [|lia].
  rewrite Nat2Z.id. f_equal; [apply firstn_length_app|]. f_equal.
  replace (p ++ x :: t) with ((p ++ [x]) ++ t)
    by (rewrite <- app_assoc; reflexivity).
  replace (S (List.length p)) with (List.length (p ++ [x]))
    by (rewrite length_app; simpl; lia).
  apply skipn_length_app.
Qed.

(** A write right past the end. *)
Lemma store_end (a : @Slots V) (v : option V) :
  store a (Js.length a) v = a ++ [v].
Proof.
  unfold store. rewrite Z.ltb_irrefl. unfold Js.length.
  now rewrite Nat2Z.id, Nat.sub_diag.
Qed.

Lemma copy_into_progress (src prefix : @Slots V) (k j : nat) :
  (j <= List.length src)%nat -> (List.length src <= k)%nat ->
  fold_left (fun first i =>
               store first (Js.length prefix + Z.of_nat i)
                 (slot src (Z.of_nat i)))
    (seq 0 j) (prefix ++ repeat None k)
  = prefix ++ firstn j src ++ repeat None (k - j).
Proof.
  intros Hj Hk. induction j as [|j IH].
  - simpl. now rewrite Nat.sub_0_r.
  - rewrite seq_S, fold_left_app, IH by lia.
    change (0 + j)%nat with j. cbn [fold_left].
    destruct (nth_error src j) as [e|] eqn:E.
    2:{ apply nth_error_None in E. lia. }
    rewrite (slot_nth _ _ _ E), (firstn_S_nth _ _ _ E).
    replace (k - j)%nat with (S (k - S j)) by lia. cbn [repeat].
    replace (Js.length prefix + Z.of_nat j)
      with (Js.length (prefix ++ firstn j src)).
    2:{ unfold Js.length. rewrite length_app, firstn_length_le by lia. lia. }
    rewrite (app_assoc prefix (firstn j src) (None :: _)), store_next.
    rewrite <- !app_assoc. reflexivity.
Qed.

(** Copying another array into the empty slots after [prefix]. *)
Lemma copy_into_fresh (src prefix : @Slots V) (k : nat) :
  (List.length src <= k)%nat ->
  copy_into (prefix ++ repeat None k) (Some src)
    (Js.length prefix) (Js.length src)
  = prefix ++ src ++ repeat None (k - List.length src).
Proof.
  intros Hk. unfold copy_into.
  replace (Z.to_nat (Js.length src)) with (List.length src)
    by (unfold Js.length; now rewrite Nat2Z.id).
  cbv beta iota zeta. rewrite copy_into_progress by lia.
  now rewrite firstn_all.
Qed.

Lemma concat_step_fresh (heap : @ArrayHeap V) (first_ref : option ArrayRef)
  (acc : @Slots V) (k : nat) (arr : ArrayRef) :
  match first_ref with Some r => Nat.eqb arr r | None => false end = false ->
  (List.length (heap arr) <= k)%nat ->
  concat_step heap first_ref (acc ++ repeat None k, Js.length acc) arr
  = ((acc ++ heap arr) ++ repeat None (k - List.length (heap arr)),
     Js.length (acc ++ heap arr)).
Proof.
  intros Halias Hk. unfold concat_step. rewrite Halias.
  cbv beta iota zeta. rewrite copy_into_fresh by exact Hk.
  f_equal; [now rewrite app_assoc|].
  unfold Js.length. rewrite length_app. lia.
Qed.

Lemma concat_loop_fresh (heap : @ArrayHeap V) (first_ref : option ArrayRef)
  (rest : list ArrayRef) :
  (forall arr, In arr rest ->
     match first_ref with Some r => Nat.eqb arr r | None => false end = false) ->
  forall (acc : @Slots V) (k : nat),
    (List.length (List.concat (map heap rest)) <= k)%nat ->
    fst (fold_left (concat_step heap first_ref) rest
           (acc ++ repeat None k, Js.length acc))
    = acc ++ List.concat (map heap rest)
        ++ repeat None (k - List.length (List.concat (map heap rest))).
Proof.
  induction rest as [|arr rest IH]; intros Hfresh acc k Hk.
  - simpl. now rewrite Nat.sub_0_r.
  - cbn [map List.concat] in *. rewrite length_app in *.
    cbn [fold_left]. rewrite concat_step_fresh; [|apply Hfresh; now left|lia].
    rewrite IH; [|intros; apply Hfresh; now right|lia].
    replace (k - (List.length (heap arr)
                  + List.length (List.concat (map heap rest))))%nat
      with (k - List.length (heap arr)
            - List.length (List.concat (map heap rest)))%nat by lia.
    now rewrite <- !app_assoc.
Qed.

Lemma total_fold (heap : @ArrayHeap V) (l : list ArrayRef) :
  forall z,
    fold_left (fun acc cur => acc + Js.length (heap cur)) l z
    = z + Z.of_nat (List.length (List.concat (map heap l))).
Proof.
  induction l as [|r l IH]; intros z; simpl; [lia|].
  rewrite IH, length_app. unfold Js.length. lia.
Qed.

Lemma concat_length_perm (heap : @ArrayHeap V) (l l' : list ArrayRef) :
  Permutation l l' ->
  List.length (List.concat (map heap l)) = List.length (List.concat (map heap l')).
Proof.
  induction 1; simpl; rewrite ?length_app in *; lia.
Qed.

(** X26.  When the arrays given are distinct objects, or [copy] is set,
    [array_concat] returns the concatenation of the arrays: in the order
    given when [order] is set, and longest first otherwise.  Nothing is
    lost, added or left empty. *)
Theorem array_concat_concatenates (heap : @ArrayHeap V)
  (arrays : list ArrayRef) (copy order : bool) :
  (copy = false -> NoDup arrays) ->
  exists arranged,
    array_concat heap arrays copy order = List.concat (map heap arranged)
    /\ Permutation arrays arranged
    /\ (order = true -> arranged = arrays)
    /\ (order = false ->
        StronglySorted
          (fun a b => Js.length (heap b) <= Js.length (heap a)) arranged).
Proof.
  intros Hdistinct.
  set (cmp := fun a b : ArrayRef =>
                Js.DNum (Js.length (heap b) - Js.length (heap a))).
  assert (Hperm : Permutation arrays (Js.sort cmp arrays))
    by apply JsFacts.sort_perm.
  assert (Hsorted :
    StronglySorted (fun a b => Js.length (heap b) <= Js.length (heap a))
      (Js.sort cmp arrays)).
  { apply JsFacts.sort_sorted.
    - intros a b c. lia.
    - intros x y. unfold cmp. simpl. rewrite Z.ltb_ge. lia.
    - intros x y. unfold cmp. simpl. rewrite Z.ltb_lt. lia. }
  exists (if order then arrays else Js.sort cmp arrays).
  split.
  2:{ split; [destruct order; [reflexivity|exact Hperm]|].
      split; intros ->; [reflexivity|exact Hsorted]. }
  assert (Hpa : Permutation arrays
                  (if order then arrays else Js.sort cmp arrays))
    by (destruct order; [reflexivity|exact Hperm]).
  clear Hperm Hsorted.
  destruct arrays as [|r1 [|r2 l]].
  - unfold array_concat. simpl. now destruct order.
  - unfold array_concat. simpl. destruct order; simpl; now rewrite app_nil_r.
  - unfold array_concat. fold cmp.
    replace (Js.length (r1 :: r2 :: l) =? 0) with false
      by (unfold Js.length; simpl List.length; symmetry; apply Z.eqb_neq; lia).
    replace (Js.length (r1 :: r2 :: l) =? 1) with false
      by (unfold Js.length; simpl List.length; symmetry; apply Z.eqb_neq; lia).
    rewrite total_fold.
    replace (if negb order then Js.sort cmp (r1 :: r2 :: l)
             else r1 :: r2 :: l)
      with (if order then r1 :: r2 :: l else Js.sort cmp (r1 :: r2 :: l))
      by (now destruct order).
    rewrite (concat_length_perm heap _ _ Hpa).
    set (arrays := r1 :: r2 :: l) in *.
    set (arranged := if order then arrays else Js.sort cmp arrays) in *.
    destruct copy.
    + cbv beta iota zeta. unfold set_length.
      rewrite firstn_nil. cbn [List.length app]. rewrite Nat.sub_0_r.
      rewrite Z.add_0_l, Nat2Z.id.
      pose proof (concat_loop_fresh heap None arranged (fun _ _ => eq_refl)
                    [] _ (le_n _)) as Hloop.
      cbn [app] in Hloop. etransitivity; [exact Hloop|].
      now rewrite Nat.sub_diag, app_nil_r.
    + assert (Hnd : NoDup arranged).
      { eapply Permutation_NoDup; [exact Hpa|now apply Hdistinct]. }
      destruct arranged as [|r rest] eqn:Ea.
      { apply Permutation_sym, Permutation_nil in Hpa. discriminate. }
      cbv beta iota zeta. unfold set_length.
      cbn [map List.concat]. rewrite length_app, Z.add_0_l, Nat2Z.id.
      rewrite firstn_all2 by lia.
      replace (List.length (heap r) + List.length (List.concat (map heap rest))
               - List.length (heap r))%nat
        with (List.length (List.concat (map heap rest))) by lia.
      etransitivity; [apply concat_loop_fresh; [|apply le_n]|].
      * intros arr Hin. apply Nat.eqb_neq. intros ->.
        inversion Hnd; subst. contradiction.
      * now rewrite Nat.sub_diag, app_nil_r.
Qed.

Lemma nth_error_firstn_lt {A : Type} (l : list A) (m i : nat) :
  (i < m)%nat -> nth_error (firstn m l) i = nth_error l i.
Proof.
  revert m i. induction l as [|a l IH]; intros m i Hi.
  - now rewrite firstn_nil.
  - destruct m as [|m]; [lia|]. destruct i as [|i]; [reflexivity|].
    simpl. apply IH. lia.
Qed.

(** The inner loop reading from the array it writes to: [first] holds
    [l], followed by as many empty slots as [l] is long. *)
Lemma copy_into_self_progress (l : @Slots V) (j : nat) :
  (j <= 2 * List.length l)%nat ->
  fold_left (fun first i =>
               store first (Js.length l + Z.of_nat i)
                 (slot first (Z.of_nat i)))
    (seq 0 j) (l ++ repeat None (List.length l))
  = firstn (List.length l + j) (l ++ l ++ l)
      ++ repeat None (List.length l - j).
Proof.
  intros Hj. induction j as [|j IH].
  - simpl. now rewrite Nat.add_0_r, Nat.sub_0_r, firstn_length_app.
  - rewrite seq_S, fold_left_app, IH by lia.
    change (0 + j)%nat with j. cbn [fold_left].
    set (n := List.length l) in *.
    assert (Hlen : List.length (firstn (n + j) (l ++ l ++ l)) = (n + j)%nat).
    { apply firstn_length_le. rewrite !length_app. fold n. lia. }
    destruct (nth_error (l ++ l ++ l) j) as [e|] eqn:E.
    2:{ apply nth_error_None in E. rewrite !length_app in E. fold n in E. lia. }
    assert (Eshift : nth_error (l ++ l ++ l) (n + j) = Some e).
    { rewrite nth_error_app2 by (fold n; lia).
      replace (n + j - List.length l)%nat with j by (fold n; lia).
      rewrite app_assoc in E. rewrite nth_error_app1 in E; [exact E|].
      rewrite length_app. fold n. lia. }
    assert (Eread : slot (firstn (n + j) (l ++ l ++ l)
                            ++ repeat None (n - j)) (Z.of_nat j) = e).
    { apply slot_nth. rewrite nth_error_app1 by lia.
      rewrite nth_error_firstn_lt by lia. exact E. }
    rewrite Eread.
    replace (Js.length l + Z.of_nat j)
      with (Js.length (firstn (n + j) (l ++ l ++ l)))
      by (unfold Js.length; rewrite Hlen; fold n; lia).
    replace (n + S j)%nat with (S (n + j)) by lia.
    rewrite (firstn_S_nth _ _ _ Eshift).
    destruct (Nat.lt_ge_cases j n) as [Hlt|Hge].
    + replace (n - j)%nat with (S (n - S j)) by lia. cbn [repeat].
      rewrite store_next. now rewrite <- app_assoc.
    + replace (n - j)%nat with O by lia.
      replace (n - S j)%nat with O by lia.
      cbn [repeat]. rewrite !app_nil_r. apply store_end.
Qed.

(** X27.  Given the same array twice and no [copy], [array_concat] fills
    the array from itself while it grows: what is returned holds the
    array's elements three times over, not twice. *)
Theorem array_concat_same_array_twice (heap : @ArrayHeap V) (r : ArrayRef)
  (order : bool) :
  array_concat heap [r; r] false order = heap r ++ heap r ++ heap r.
Proof.
  unfold array_concat.
  change (Js.length [r; r] =? 0) with false.
  change (Js.length [r; r] =? 1) with false.
  cbv beta iota.
  replace (if negb order
           then Js.sort (fun a b : ArrayRef =>
                           Js.DNum (Js.length (heap b) - Js.length (heap a)))
                  [r; r]
           else [r; r]) with [r; r].
  2:{ destruct order; [reflexivity|]. simpl.
      now rewrite Z.sub_diag. }
  cbv beta iota zeta. cbn [fold_left]. unfold concat_step.
  rewrite Nat.eqb_refl. cbv beta iota zeta. cbn [fst].
  set (n := List.length (heap r)).
  assert (Efirst : set_length (heap r)
                     (0 + Js.length (heap r) + Js.length (heap r))
                   = heap r ++ repeat None n).
  { unfold set_length, Js.length. fold n.
    replace (Z.to_nat (0 + Z.of_nat n + Z.of_nat n)) with (n + n)%nat by lia.
    rewrite firstn_all2 by (fold n; lia). f_equal. f_equal. lia. }
  rewrite Efirst. unfold copy_into.
  replace (Z.to_nat (Js.length (heap r ++ repeat None n))) with (2 * n)%nat
    by (unfold Js.length; rewrite length_app, repeat_length; fold n; lia).
  cbv beta iota zeta. unfold n. rewrite copy_into_self_progress by lia.
  fold n. replace (n - 2 * n)%nat with O by lia. cbn [repeat].
  rewrite app_nil_r. apply firstn_all2. rewrite !length_app. fold n. lia.
Qed.

End ConcatFacts.

Lemma array_concat_concatenates_witness :
  let heap : @ArrayHeap Z :=
    fun r => match r with
             | O => [Some 1]
             | S O => [Some 2; None; Some 3]
             | _ => [Some 4; Some 5]
             end in
  (false = false -> NoDup [0%nat; 1%nat; 2%nat])
  /\ exists arranged,
       array_concat heap [0%nat; 1%nat; 2%nat] false false
       = List.concat (map heap arranged)
       /\ Permutation [0%nat; 1%nat; 2%nat] arranged
       /\ (false = true -> arranged = [0%nat; 1%nat; 2%nat])
       /\ (false = false ->
           StronglySorted
             (fun a b => Js.length (heap b) <= Js.length (heap a)) arranged).
Proof.
  intros heap.
  assert (Hd : false = false -> NoDup [0%nat; 1%nat; 2%nat]).
  { intros _. repeat constructor; simpl; intuition discriminate. }
  split; [exact Hd|].
  exact (array_concat_concatenates heap [0%nat; 1%nat; 2%nat] false false Hd).
Defined.

End ConcatFacts.
